(** * Numix compiler: a shallow embedding of the pipeline and its properties

    The development follows the C++ sources phase by phase:
    - [Cxx]: the pieces of the C++ runtime the sources call (exceptions,
      [std::stoi] / [std::stoll] / [std::stod], [std::to_string], the
      stream output of a [double], fixed-width integers, IEEE doubles);
    - [Optimizer]: three-address code and the five passes of optimizer.cpp;
    - [Tokens], [Ast]: token.h and ast.h;
    - [CodeGenerator]: the lowering of codegen.cpp;
    - [Interpreter]: the tree-walking evaluator of interpreter.cpp;
    - [Lexer], [Parser]: lexer.cpp and parser.cpp;
    - [Samples]: source texts used as concrete inputs.
    The properties follow the definitions, phase by phase.

    Machine integers are values of [Z] with the wrap-around written out,
    doubles are [spec_float] at precision 53, [std::string] is [string],
    [std::unordered_map] / [std::unordered_set] are [gmap] / [gset], a C++
    exception is an explicit result next to the normal one.  Functions
    whose recursion follows the input program rather than a data structure
    (the interpreter, the parser) take a budget of nested calls and report
    its exhaustion as a result of its own, [OutOfFuel]; a larger budget
    never changes any other result ([run_fuel_monotone],
    [parse_fuel_monotone]). *)

From Stdlib Require Import ZArith Ascii String List Bool Lia SpecFloat.
From stdpp Require Import base gmap strings list pretty.

Open Scope string_scope.
Open Scope list_scope.
Open Scope Z_scope.

Set Warnings "-register-all".

(* ===================================================================== *)
(** * The C++ runtime the sources rely on *)
(* ===================================================================== *)

Module Cxx.

(** Exceptions of <stdexcept> that the sources throw or let escape; each
    carries its [what()] text. *)
Inductive exn : Type :=
  | runtime_error (what : string)
  | invalid_argument (what : string)
  | out_of_range (what : string).

Definition what (e : exn) : string :=
  match e with
  | runtime_error w | invalid_argument w | out_of_range w => w
  end.

(** A computation that returns or throws. *)
Inductive res (A : Type) : Type :=
  | Ok (a : A)
  | Throw (e : exn).
Arguments Ok {A} a.
Arguments Throw {A} e.

Definition bind {A B} (m : res A) (k : A -> res B) : res B :=
  match m with
  | Ok a => k a
  | Throw e => Throw e
  end.

Fixpoint mapM {A B} (f : A -> res B) (l : list A) : res (list B) :=
  match l with
  | [] => Ok []
  | x :: xs => bind (f x) (fun y => bind (mapM f xs) (fun ys => Ok (y :: ys)))
  end.

(** ** Characters *)

Definition isdigit (c : ascii) : bool :=
  let n := nat_of_ascii c in (48 <=? n)%nat && (n <=? 57)%nat.

(** [isspace] in the "C" locale: space, \t, \n, \v, \f, \r. *)
Definition isspace (c : ascii) : bool :=
  let n := nat_of_ascii c in (n =? 32)%nat || ((9 <=? n)%nat && (n <=? 13)%nat).

Definition digit_value (c : ascii) : Z := Z.of_nat (nat_of_ascii c) - 48.

(** ** Fixed-width integers *)

Definition INT_MIN : Z := - 2 ^ 31.
Definition INT_MAX : Z := 2 ^ 31 - 1.
Definition LLONG_MIN : Z := - 2 ^ 63.
Definition LLONG_MAX : Z := 2 ^ 63 - 1.

(** Two's complement reduction to [w] bits. *)
Definition wrap (w : Z) (z : Z) : Z := (z + 2 ^ (w - 1)) mod 2 ^ w - 2 ^ (w - 1).
Definition wrap_int : Z -> Z := wrap 32.
Definition wrap_ll : Z -> Z := wrap 64.

(** ** Decimal conversions *)

(** The run of decimal digits at the head of [s], accumulated into [acc];
    returns the value, the number of digits read and the rest. *)
Fixpoint read_digits (s : string) (acc : Z) (n : nat) : Z * nat * string :=
  match s with
  | String c rest =>
      if isdigit c then read_digits rest (10 * acc + digit_value c) (S n)
      else (acc, n, s)
  | EmptyString => (acc, n, s)
  end.

Fixpoint skip_space (s : string) : string :=
  match s with
  | String c rest => if isspace c then skip_space rest else s
  | EmptyString => s
  end.

(** [strtol]-style scan in base 10: leading white space, an optional sign,
    then digits.  [None] when there is no digit; otherwise the (unbounded)
    value and the number of characters consumed. *)
Definition scan_integer (str : string) : option (Z * nat) :=
  let s := skip_space str in
  let skipped := (String.length str - String.length s)%nat in
  let '(neg, signed, body) :=
    match s with
    | String "-" rest => (true, 1%nat, rest)
    | String "+" rest => (false, 1%nat, rest)
    | _ => (false, 0%nat, s)
    end in
  let '(v, n, _) := read_digits body 0 0%nat in
  match n with
  | O => None
  | _ => Some (if neg then - v else v, (skipped + signed + n)%nat)
  end.

(** [std::stoi]: [invalid_argument] without digits, [out_of_range] when the
    value does not fit an [int]; trailing characters are ignored. *)
Definition stoi (str : string) : res Z :=
  match scan_integer str with
  | None => Throw (invalid_argument "stoi")
  | Some (v, _) =>
      if (INT_MIN <=? v) && (v <=? INT_MAX) then Ok v
      else Throw (out_of_range "stoi")
  end.

(** [std::stoll], with the number of characters consumed ([idx]). *)
Definition stoll_idx (str : string) : res (Z * nat) :=
  match scan_integer str with
  | None => Throw (invalid_argument "stoll")
  | Some (v, n) =>
      if (LLONG_MIN <=? v) && (v <=? LLONG_MAX) then Ok (v, n)
      else Throw (out_of_range "stoll")
  end.

Definition stoll (str : string) : res Z :=
  bind (stoll_idx str) (fun r => Ok (fst r)).

(** [std::to_string] on an integer. *)
Definition to_string (z : Z) : string := pretty z.

(** ** [double]

    IEEE 754 binary64 with round-to-nearest-even, as the executable
    specification [spec_float] of the standard library gives it.  The sign
    and payload of a NaN are not represented. *)

Definition double : Type := spec_float.
Definition dprec : Z := 53.
Definition demax : Z := 1024.

Definition dadd : double -> double -> double := SFadd dprec demax.
Definition dsub : double -> double -> double := SFsub dprec demax.
Definition dmul : double -> double -> double := SFmul dprec demax.
Definition ddiv : double -> double -> double := SFdiv dprec demax.
Definition dneg : double -> double := SFopp.
Definition dabs : double -> double := SFabs.
Definition dlt : double -> double -> bool := SFltb.
Definition dle : double -> double -> bool := SFleb.
Definition deq : double -> double -> bool := SFeqb.
Definition dzero : double := S754_zero false.

(** [static_cast<double>(z)] for an integer [z]. *)
Definition double_of_Z (z : Z) : double := binary_normalize dprec demax z 0 false.

(** The integer part of a finite double, rounded toward zero. *)
Definition dtrunc (d : double) : option Z :=
  match d with
  | S754_zero _ => Some 0
  | S754_finite s m e =>
      let a := if 0 <=? e then Z.pos m * 2 ^ e else Z.pos m / 2 ^ (- e) in
      Some (if s then - a else a)
  | S754_infinity _ | S754_nan => None
  end.

(** [static_cast<long long>(d)]: truncation toward zero.  When the
    truncated value is not representable (also for infinities and NaN) the
    C++ standard leaves the result open; x86-64 yields the "integer
    indefinite" value [LLONG_MIN], which is what is taken here. *)
Definition ll_of_double (d : double) : Z :=
  match dtrunc d with
  | Some z => if (LLONG_MIN <=? z) && (z <=? LLONG_MAX) then z else LLONG_MIN
  | None => LLONG_MIN
  end.

(** The double nearest to [m * 10^k], for [0 <= m]. *)
Definition double_of_decimal (neg : bool) (m k : Z) : double :=
  match m with
  | Z0 => S754_zero neg
  | Zneg _ => S754_nan
  | Zpos _ =>
      if 0 <=? k then
        binary_normalize dprec demax ((if neg then - m else m) * 10 ^ k) 0 false
      else
        let '(q, e, l) := SFdiv_core_binary dprec demax m 0 (10 ^ (- k)) 0 in
        binary_round_aux dprec demax neg q e l
  end.

(** The double nearest to [m * 2^e]. *)
Definition double_of_binary (neg : bool) (m e : Z) : double :=
  match m with
  | Z0 => S754_zero neg
  | _ => binary_normalize dprec demax (if neg then - m else m) e false
  end.

(** Whether the finite double [d] is exactly [m * 10^k] in magnitude. *)
Definition exactly_decimal (d : double) (m k : Z) : bool :=
  match d with
  | S754_zero _ => m =? 0
  | S754_finite _ dm de =>
      let '(a, b) := (Z.pos dm * 2 ^ Z.max de 0 * 10 ^ Z.max (- k) 0,
                      m * 10 ^ Z.max k 0 * 2 ^ Z.max (- de) 0) in
      a =? b
  | _ => false
  end.

Definition is_subnormal_or_zero (d : double) : bool :=
  match d with
  | S754_zero _ => true
  | S754_finite _ m _ => Z.pos (digits2_pos m) <? dprec
  | _ => false
  end.

(** *** Reading a double: [std::stod] over [strtod] *)

Definition tolower (c : ascii) : ascii :=
  let n := nat_of_ascii c in
  if (65 <=? n)%nat && (n <=? 90)%nat then ascii_of_nat (n + 32) else c.

(** [strip_prefix_ci p s]: the rest of [s] after the lower-case word [p],
    compared without regard to case. *)
Fixpoint strip_prefix_ci (p s : string) : option string :=
  match p, s with
  | EmptyString, _ => Some s
  | String a p', String b s' =>
      if Ascii.eqb a (tolower b) then strip_prefix_ci p' s' else None
  | String _ _, EmptyString => None
  end.

Definition hex_value (c : ascii) : option Z :=
  let n := nat_of_ascii (tolower c) in
  if isdigit c then Some (Z.of_nat n - 48)
  else if (97 <=? n)%nat && (n <=? 102)%nat then Some (Z.of_nat n - 87)
  else None.

Fixpoint read_hex_digits (s : string) (acc : Z) (n : nat) : Z * nat * string :=
  match s with
  | String c rest =>
      match hex_value c with
      | Some v => read_hex_digits rest (16 * acc + v) (S n)
      | None => (acc, n, s)
      end
  | EmptyString => (acc, n, s)
  end.

(** An exponent part: the marker [e] (or [p]), an optional sign, digits.
    Without digits there is no exponent part. *)
Definition read_exponent (marker : ascii) (s : string) : Z :=
  match s with
  | String c rest =>
      if Ascii.eqb (tolower c) marker then
        let '(neg, body) :=
          match rest with
          | String "-" r => (true, r)
          | String "+" r => (false, r)
          | _ => (false, rest)
          end in
        let '(v, n, _) := read_digits body 0 0%nat in
        match n with
        | O => 0
        | _ => if neg then - v else v
        end
      else 0
  | EmptyString => 0
  end.

(** What [strtod] recognises at the head of a string. *)
Inductive scanned : Type :=
  | ScanInfinity
  | ScanNaN
  | ScanDecimal (m k : Z)    (* m * 10^k *)
  | ScanBinary (m e : Z).    (* m * 2^e, from a hexadecimal form *)

Definition scan_mantissa (read : string -> Z -> nat -> Z * nat * string)
    (s : string) : option (Z * nat * string) :=
  let '(ip, n1, rest) := read s 0 0%nat in
  let '(m, n2, rest') :=
    match rest with
    | String "." r => read r ip 0%nat
    | _ => (ip, 0%nat, rest)
    end in
  match (n1 + n2)%nat with
  | O => None
  | _ => Some (m, n2, rest')
  end.

Definition scan_float (str : string) : option (bool * scanned) :=
  let s := skip_space str in
  let '(neg, body) :=
    match s with
    | String "-" r => (true, r)
    | String "+" r => (false, r)
    | _ => (false, s)
    end in
  match strip_prefix_ci "inf" body, strip_prefix_ci "nan" body with
  | Some _, _ => Some (neg, ScanInfinity)
  | _, Some _ => Some (neg, ScanNaN)
  | None, None =>
      let hex :=
        match strip_prefix_ci "0x" body with
        | Some h =>
            match scan_mantissa read_hex_digits h with
            | Some (m, nfrac, rest) =>
                Some (neg, ScanBinary m (read_exponent "p" rest - 4 * Z.of_nat nfrac))
            | None => None
            end
        | None => None
        end in
      match hex with
      | Some r => Some r
      | None =>
          match scan_mantissa read_digits body with
          | Some (m, nfrac, rest) =>
              Some (neg, ScanDecimal m (read_exponent "e" rest - Z.of_nat nfrac))
          | None => None
          end
      end
  end.

(** [std::stod]: [invalid_argument] when nothing converts, [out_of_range]
    on overflow and on an inexact result below the normal range. *)
Definition stod (str : string) : res double :=
  match scan_float str with
  | None => Throw (invalid_argument "stod")
  | Some (neg, ScanInfinity) => Ok (S754_infinity neg)
  | Some (neg, ScanNaN) => Ok S754_nan
  | Some (neg, ScanDecimal m k) =>
      let d := double_of_decimal neg m k in
      match d with
      | S754_infinity _ => Throw (out_of_range "stod")
      | _ =>
          if is_subnormal_or_zero d && negb (exactly_decimal d m k)
          then Throw (out_of_range "stod") else Ok d
      end
  | Some (neg, ScanBinary m e) =>
      let d := double_of_binary neg m e in
      match d with
      | S754_infinity _ => Throw (out_of_range "stod")
      | S754_zero _ => if m =? 0 then Ok d else Throw (out_of_range "stod")
      | _ => Ok d
      end
  end.

(** *** Printing a double: [operator<<] with the stream defaults

    The default format is that of [printf("%g")] with precision 6: six
    significant digits after correct rounding, fixed notation when the
    decimal exponent is in [-4, 6), scientific otherwise, trailing zeros
    removed. *)

(** [10^x <= num / den], for positive [num] and [den]. *)
Definition pow10_le (x num den : Z) : bool :=
  if 0 <=? x then 10 ^ x * den <=? num else den <=? num * 10 ^ (- x).

Fixpoint raise_exponent (fuel : nat) (x num den : Z) : Z :=
  match fuel with
  | O => x
  | S fuel' =>
      if pow10_le (x + 1) num den then raise_exponent fuel' (x + 1) num den
      else x
  end.

(** The decimal exponent of [num / den]: the [x] with
    [10^x <= num / den < 10^(x+1)].  The search starts from an
    under-estimate drawn from the binary logarithms. *)
Definition decimal_exponent (num den : Z) : Z :=
  let x0 := ((Z.log2 num - Z.log2 den - 1) * 30103) / 100000 - 1 in
  raise_exponent 8 x0 num den.

(** [num / den] rounded to the nearest integer, ties to even. *)
Definition round_half_even (num den : Z) : Z :=
  let q := num / den in
  let r := num mod den in
  match 2 * r ?= den with
  | Lt => q
  | Gt => q + 1
  | Eq => if Z.even q then q else q + 1
  end.

Fixpoint strip_zeros_rev (s : list ascii) : list ascii :=
  match s with
  | c :: rest => if Ascii.eqb c "0" then strip_zeros_rev rest else s
  | [] => []
  end.

Definition strip_trailing_zeros (s : string) : string :=
  string_of_list_ascii (rev (strip_zeros_rev (rev (list_ascii_of_string s)))).

Fixpoint zeros (n : nat) : string :=
  match n with
  | O => ""
  | S n' => String "0" (zeros n')
  end.

Definition string_take (n : nat) (s : string) : string := substring 0 n s.
Definition string_drop (n : nat) (s : string) : string :=
  substring n (String.length s - n) s.

(** The text of the positive rational [num / den] under [%g]. *)
Definition format_g6_pos (num den : Z) : string :=
  let x := decimal_exponent num den in
  let d := round_half_even (num * 10 ^ Z.max (5 - x) 0) (den * 10 ^ Z.max (x - 5) 0) in
  let '(d, x) := if d =? 10 ^ 6 then (10 ^ 5, x + 1) else (d, x) in
  let digits := to_string d in
  if (x <? -4) || (6 <=? x) then
    let frac := strip_trailing_zeros (string_drop 1 digits) in
    let ex := to_string (Z.abs x) in
    string_take 1 digits
    +:+ (if String.eqb frac "" then "" else "." +:+ frac)
    +:+ "e" +:+ (if x <? 0 then "-" else "+")
    +:+ (if Z.abs x <? 10 then "0" +:+ ex else ex)
  else if 0 <=? x then
    let n := Z.to_nat (x + 1) in
    let frac := strip_trailing_zeros (string_drop n digits) in
    string_take n digits +:+ (if String.eqb frac "" then "" else "." +:+ frac)
  else
    "0." +:+ zeros (Z.to_nat (- x - 1)) +:+ strip_trailing_zeros digits.

(** [std::ostringstream() << d]. *)
Definition double_to_string (d : double) : string :=
  match d with
  | S754_zero s => if s then "-0" else "0"
  | S754_infinity s => if s then "-inf" else "inf"
  | S754_nan => "nan"
  | S754_finite s m e =>
      (if s then "-" else "")
      +:+ format_g6_pos (Z.pos m * 2 ^ Z.max e 0) (2 ^ Z.max (- e) 0)
  end.

End Cxx.

(* ===================================================================== *)
(** * Three-address code and the optimizer (codegen.h, optimizer.cpp) *)
(* ===================================================================== *)

Module Optimizer.
Import Cxx.

Record ThreeAddressCode : Type := TAC {
  op : string;
  arg1 : string;
  arg2 : string;
  result : string;
  line : Z
}.

Definition set_op (o : string) (i : ThreeAddressCode) :=
  TAC o (arg1 i) (arg2 i) (result i) (line i).
Definition set_arg1 (a : string) (i : ThreeAddressCode) :=
  TAC (op i) a (arg2 i) (result i) (line i).
Definition set_arg2 (a : string) (i : ThreeAddressCode) :=
  TAC (op i) (arg1 i) a (result i) (line i).

(** ** Helper predicates *)

Fixpoint all_digits (s : string) : bool :=
  match s with
  | EmptyString => true
  | String c rest => isdigit c && all_digits rest
  end.

(** [Optimizer::isConstant]: an optional sign followed by digits only. *)
Definition isConstant (value : string) : bool :=
  match value with
  | EmptyString => false
  | String c rest =>
      if Ascii.eqb c "-" || Ascii.eqb c "+" then
        match rest with
        | EmptyString => false
        | _ => all_digits rest
        end
      else all_digits value
  end.

(** [Optimizer::evaluateConstant].  The arithmetic is on [int]; the result
    of an overflowing operation is taken modulo 2^32. *)
Definition evaluateConstant (o left right : string) : res Z :=
  bind (stoi left) (fun leftVal =>
  bind (stoi right) (fun rightVal =>
    if String.eqb o "+" then Ok (wrap_int (leftVal + rightVal))
    else if String.eqb o "-" then Ok (wrap_int (leftVal - rightVal))
    else if String.eqb o "*" then Ok (wrap_int (leftVal * rightVal))
    else if (String.eqb o "/") && negb (rightVal =? 0)
      then Ok (wrap_int (Z.quot leftVal rightVal))
    else if (String.eqb o "%") && negb (rightVal =? 0)
      then Ok (wrap_int (Z.rem leftVal rightVal))
    else Ok 0)).

(** The test of the temporary-name convention used by the optimizer:
    a non-empty name whose first character is [t]. *)
Definition startsWith_t (s : string) : bool :=
  match s with
  | String c _ => Ascii.eqb c "t"
  | EmptyString => false
  end.

(** ** Pass 1: constant folding *)

Definition isArithOp (o : string) : bool :=
  String.eqb o "+" || String.eqb o "-" || String.eqb o "*" || String.eqb o "/".

Definition foldInstr (instr : ThreeAddressCode) : res ThreeAddressCode :=
  if isArithOp (op instr) && isConstant (arg1 instr) && isConstant (arg2 instr)
  then
    bind (evaluateConstant (op instr) (arg1 instr) (arg2 instr)) (fun r =>
      Ok (TAC "ASSIGN" (to_string r) "" (result instr) (line instr)))
  else Ok instr.

Definition constantFolding (code : list ThreeAddressCode)
  : res (list ThreeAddressCode) :=
  mapM foldInstr code.

(** ** Pass 2: constant propagation *)

(** "Update uses with known constants": both operands are looked up in
    the map as it stands before the instruction. *)
Definition substituteOperands (constantMap : gmap string string)
    (instr : ThreeAddressCode) : ThreeAddressCode :=
  let instr1 :=
    match constantMap !! arg1 instr with
    | Some c => set_arg1 c instr
    | None => instr
    end in
  match constantMap !! arg2 instr1 with
  | Some c => set_arg2 c instr1
  | None => instr1
  end.

(** One iteration of the loop: the instruction after substitution and the
    updated [constantMap]. *)
Definition propagateInstr (constantMap : gmap string string)
    (instr : ThreeAddressCode) : ThreeAddressCode * gmap string string :=
  let instr' := substituteOperands constantMap instr in
  if String.eqb (op instr') "ASSIGN" && isConstant (arg1 instr')
  then (instr', <[result instr' := arg1 instr']> constantMap)
  else if negb (String.eqb (op instr') "ASSIGN")
  then (instr', delete (result instr') constantMap)
  else (instr', constantMap).

Fixpoint propagateFrom (constantMap : gmap string string)
    (code : list ThreeAddressCode) : list ThreeAddressCode :=
  match code with
  | [] => []
  | instr :: rest =>
      let '(instr', m') := propagateInstr constantMap instr in
      instr' :: propagateFrom m' rest
  end.

Definition constantPropagation (code : list ThreeAddressCode)
  : list ThreeAddressCode :=
  propagateFrom ∅ code.

(** ** Pass 3: algebraic simplification *)

Definition simplifyInstr (instr : ThreeAddressCode) : ThreeAddressCode :=
  if (String.eqb (op instr) "+") && (String.eqb (arg2 instr) "0") then
    TAC "ASSIGN" (arg1 instr) "" (result instr) (line instr)
  else if (String.eqb (op instr) "-") && (String.eqb (arg2 instr) "0") then
    TAC "ASSIGN" (arg1 instr) "" (result instr) (line instr)
  else if (String.eqb (op instr) "*") && (String.eqb (arg2 instr) "1") then
    TAC "ASSIGN" (arg1 instr) "" (result instr) (line instr)
  else if (String.eqb (op instr) "*") && ((String.eqb (arg1 instr) "0") || (String.eqb (arg2 instr) "0")) then
    TAC "ASSIGN" "0" "" (result instr) (line instr)
  else if (String.eqb (op instr) "+") && (String.eqb (arg1 instr) "0") then
    TAC "ASSIGN" (arg2 instr) "" (result instr) (line instr)
  else if (String.eqb (op instr) "*") && (String.eqb (arg1 instr) "1") then
    TAC "ASSIGN" (arg2 instr) "" (result instr) (line instr)
  else instr.

Definition algebraicSimplification (code : list ThreeAddressCode)
  : list ThreeAddressCode :=
  map simplifyInstr code.

(** ** Pass 4: redundant-assignment removal *)

(** The loop keeps a [valueMap] that it writes and clears but never reads;
    it is carried along as in the source. *)
Fixpoint removeRedundantFrom (valueMap : gmap string string)
    (code : list ThreeAddressCode) : list ThreeAddressCode :=
  match code with
  | [] => []
  | instr :: rest =>
      if String.eqb (op instr) "ASSIGN" then
        if String.eqb (arg1 instr) (result instr) then removeRedundantFrom valueMap rest
        else instr :: removeRedundantFrom (<[result instr := arg1 instr]> valueMap) rest
      else instr :: removeRedundantFrom ∅ rest
  end.

(** The instructions pass 4 drops: an [ASSIGN] of a name to itself. *)
Definition isRedundant (i : ThreeAddressCode) : bool :=
  String.eqb (op i) "ASSIGN" && String.eqb (arg1 i) (result i).

Definition removeRedundantAssignments (code : list ThreeAddressCode)
  : list ThreeAddressCode :=
  removeRedundantFrom ∅ code.

(** ** Pass 5: dead-code elimination *)

Definition markUsed (usedTemps : gset string) (instr : ThreeAddressCode)
  : gset string :=
  let u1 := if startsWith_t (arg1 instr) then {[arg1 instr]} ∪ usedTemps
            else usedTemps in
  if startsWith_t (arg2 instr) then {[arg2 instr]} ∪ u1 else u1.

Definition collectUsedTemps (code : list ThreeAddressCode) : gset string :=
  fold_left markUsed code ∅.

Definition isDeadAssign (usedTemps : gset string) (instr : ThreeAddressCode)
  : bool :=
  (String.eqb (op instr) "ASSIGN") && startsWith_t (result instr)
  && negb (bool_decide (result instr ∈ usedTemps)).

Definition deadCodeElimination (code : list ThreeAddressCode)
  : list ThreeAddressCode :=
  let usedTemps := collectUsedTemps code in
  List.filter (fun instr => negb (isDeadAssign usedTemps instr)) code.

(** [Optimizer::isDeadTemp]: no instruction after [currentIndex] reads
    [temp] before one writes it.  The scan stops at the first instruction
    that reads [temp] (not dead) or writes it (dead). *)
Fixpoint unreadUntilRedefined (temp : string) (rest : list ThreeAddressCode)
  : bool :=
  match rest with
  | [] => true
  | instr :: rest' =>
      if String.eqb (arg1 instr) temp || String.eqb (arg2 instr) temp then false
      else if String.eqb (result instr) temp then true
      else unreadUntilRedefined temp rest'
  end.

Definition isDeadTemp (code : list ThreeAddressCode) (temp : string)
    (currentIndex : nat) : bool :=
  if negb (startsWith_t temp) then false
  else unreadUntilRedefined temp (drop (S currentIndex) code).

(** ** Relations between an instruction and its rewriting *)

(** What passes 1 to 3 keep of an instruction: its destination and its
    source line. *)
Definition sameTarget (i i' : ThreeAddressCode) : Prop :=
  result i' = result i /\ line i' = line i.

(** Every value of the map is an integer constant. *)
Definition constantsOnly (m : gmap string string) : Prop :=
  map_Forall (fun _ v => isConstant v = true) m.

Definition operandsKeptOrConstant (i i' : ThreeAddressCode) : Prop :=
  op i' = op i /\
  (arg1 i' = arg1 i \/ isConstant (arg1 i') = true) /\
  (arg2 i' = arg2 i \/ isConstant (arg2 i') = true).

(** ** [Optimizer::optimize] *)

Definition optimize (code : list ThreeAddressCode)
  : res (list ThreeAddressCode) :=
  bind (constantFolding code) (fun c1 =>
    Ok (deadCodeElimination
          (removeRedundantAssignments
             (algebraicSimplification
                (constantPropagation c1))))).

End Optimizer.

(* ===================================================================== *)
(** * Tokens (token.h) *)
(* ===================================================================== *)

Module Tokens.

Inductive TokenType : Type :=
  (* literals *)
  | IDENTIFIER | NUMBER | FLOAT | STRING
  (* keywords *)
  | FUNC | LET | IF | ELSE | WHILE | RETURN
  | TRUE | FALSE | AND | OR | NOT
  | INT | FLOAT_TYPE | BOOL | SEQUENCE | PATTERN
  (* operators *)
  | PLUS | MINUS | MULTIPLY | DIVIDE | MODULO
  | ASSIGN | EQUALS | NOT_EQUALS
  | LESS | GREATER | LESS_EQUAL | GREATER_EQUAL
  (* delimiters *)
  | LPAREN | RPAREN | LBRACE | RBRACE | LBRACKET | RBRACKET
  | COMMA | COLON | SEMICOLON | ARROW
  (* special *)
  | END_OF_FILE | ERROR.

Global Instance TokenType_eq_dec : EqDecision TokenType.
Proof. solve_decision. Defined.

Definition TokenType_eqb (a b : TokenType) : bool := bool_decide (a = b).

Record Token : Type := mkToken {
  type : TokenType;
  lexeme : string;
  line : Z;
  column : Z
}.

End Tokens.

(* ===================================================================== *)
(** * Abstract syntax (ast.h) *)
(* ===================================================================== *)

Module Ast.
Import Tokens.

Inductive DataType : Type :=
  | DT_INT | DT_FLOAT | DT_BOOL | DT_SEQUENCE | DT_PATTERN | DT_VOID | DT_UNKNOWN.

Global Instance DataType_eq_dec : EqDecision DataType.
Proof. solve_decision. Defined.

(** Expressions.  A [std::unique_ptr<Expr>] that the parser never leaves
    null is an [Expr]; the two that may be null (a declaration's
    initializer, a return's value) are [option Expr] in [Stmt].  The
    [DataType] annotation of an expression is written by the semantic
    analyser only and read by neither the code generator nor the
    interpreter; it is not represented. *)
Inductive Expr : Type :=
  | BinaryExpr (left : Expr) (op : Token) (right : Expr)
  | UnaryExpr (op : Token) (right : Expr)
  | LiteralExpr (value : Token)
  | VariableExpr (name : Token)
  | CallExpr (callee : Token) (arguments : list Expr)
  | SequenceExpr (elements : list Expr).

Inductive Stmt : Type :=
  | DeclarationStmt (name : Token) (dataType : DataType) (initializer : option Expr)
  | AssignmentStmt (name : Token) (value : Expr)
  | IfStmt (condition : Expr) (thenBranch elseBranch : list Stmt)
  | WhileStmt (condition : Expr) (body : list Stmt)
  | ReturnStmt (value : option Expr)
  | ExpressionStmt (expression : Expr)
  | BlockStmt (statements : list Stmt).

Record FunctionDecl : Type := mkFunctionDecl {
  name : Token;
  parameters : list (Token * DataType);
  returnType : DataType;
  body : list Stmt
}.

Record Program : Type := mkProgram {
  functions : list FunctionDecl
}.

(** The [line] member of a node, as the constructors of ast.h set it.
    It defaults to -1.  A sequence literal, a block, a return and an
    expression statement test their constructor parameter after it has been
    moved from (an empty vector, a null pointer), so they keep the default. *)
Definition Expr_line (e : Expr) : Z :=
  match e with
  | BinaryExpr _ o _ => line o
  | UnaryExpr o _ => line o
  | LiteralExpr v => line v
  | VariableExpr n => line n
  | CallExpr c _ => line c
  | SequenceExpr _ => -1
  end.

Definition Stmt_line (s : Stmt) : Z :=
  match s with
  | DeclarationStmt n _ _ => line n
  | AssignmentStmt n _ => line n
  | IfStmt c _ _ => Expr_line c
  | WhileStmt c _ => Expr_line c
  | ReturnStmt _ => -1
  | ExpressionStmt _ => -1
  | BlockStmt _ => -1
  end.

Definition FunctionDecl_line (f : FunctionDecl) : Z := line (name f).

End Ast.

(** ** Induction over the syntax, through the lists of children *)

Section SyntaxInduction.
Import Tokens Ast.

Section ExprInduction.
Variable P : Expr -> Prop.
Hypothesis HBinary : forall l o r, P l -> P r -> P (BinaryExpr l o r).
Hypothesis HUnary : forall o r, P r -> P (UnaryExpr o r).
Hypothesis HLiteral : forall v, P (LiteralExpr v).
Hypothesis HVariable : forall n, P (VariableExpr n).
Hypothesis HCall : forall c args, Forall P args -> P (CallExpr c args).
Hypothesis HSequence : forall elts, Forall P elts -> P (SequenceExpr elts).

Fixpoint Expr_nested_ind (e : Expr) : P e :=
  let children :=
    fix children (l : list Expr) : Forall P l :=
      match l with
      | [] => Forall_nil_2 P
      | x :: rest => Forall_cons_2 P x rest (Expr_nested_ind x) (children rest)
      end in
  match e with
  | BinaryExpr l o r => HBinary l o r (Expr_nested_ind l) (Expr_nested_ind r)
  | UnaryExpr o r => HUnary o r (Expr_nested_ind r)
  | LiteralExpr v => HLiteral v
  | VariableExpr n => HVariable n
  | CallExpr c args => HCall c args (children args)
  | SequenceExpr elts => HSequence elts (children elts)
  end.
End ExprInduction.

Section StmtInduction.
Variable P : Stmt -> Prop.
Hypothesis HDecl : forall n t i, P (DeclarationStmt n t i).
Hypothesis HAssign : forall n v, P (AssignmentStmt n v).
Hypothesis HIf : forall c t e, Forall P t -> Forall P e -> P (IfStmt c t e).
Hypothesis HWhile : forall c b, Forall P b -> P (WhileStmt c b).
Hypothesis HReturn : forall v, P (ReturnStmt v).
Hypothesis HExpr : forall e, P (ExpressionStmt e).
Hypothesis HBlock : forall l, Forall P l -> P (BlockStmt l).

Fixpoint Stmt_nested_ind (s : Stmt) : P s :=
  let children :=
    fix children (l : list Stmt) : Forall P l :=
      match l with
      | [] => Forall_nil_2 P
      | x :: rest => Forall_cons_2 P x rest (Stmt_nested_ind x) (children rest)
      end in
  match s with
  | DeclarationStmt n t i => HDecl n t i
  | AssignmentStmt n v => HAssign n v
  | IfStmt c t e => HIf c t e (children t) (children e)
  | WhileStmt c b => HWhile c b (children b)
  | ReturnStmt v => HReturn v
  | ExpressionStmt e => HExpr e
  | BlockStmt l => HBlock l (children l)
  end.
End StmtInduction.

End SyntaxInduction.

(* ===================================================================== *)
(** * Code generator (codegen.cpp) *)
(* ===================================================================== *)

Module CodeGenerator.
Import Cxx Tokens Ast Optimizer.

(** The generator's mutable members.  The symbol manager it also owns is
    written (scopes entered and left, symbols declared) but never read when
    instructions are produced; it is not part of the state here. *)
Record state : Type := mkState {
  intermediateCode : list ThreeAddressCode;
  tempCounter : Z;
  labelCounter : Z
}.

Definition emit (i : ThreeAddressCode) (st : state) : state :=
  mkState (intermediateCode st ++ [i]) (tempCounter st) (labelCounter st).

(** ["t" + std::to_string(tempCounter++)] *)
Definition newTemp (st : state) : string * state :=
  ("t" +:+ to_string (tempCounter st),
   mkState (intermediateCode st) (wrap_int (tempCounter st + 1)) (labelCounter st)).

(** The names [newTemp] can return: the compiler-generated temporaries. *)
Definition isTemporary (s : string) : Prop :=
  exists n : Z, s = "t" +:+ to_string n.

(** ["L" + std::to_string(labelCounter++)] *)
Definition newLabel (st : state) : string * state :=
  ("L" +:+ to_string (labelCounter st),
   mkState (intermediateCode st) (tempCounter st) (wrap_int (labelCounter st + 1))).

Definition getOperatorTAC (o : TokenType) : string :=
  match o with
  | PLUS => "+"
  | MINUS => "-"
  | MULTIPLY => "*"
  | DIVIDE => "/"
  | MODULO => "%"
  | EQUALS => "=="
  | NOT_EQUALS => "!="
  | LESS => "<"
  | LESS_EQUAL => "<="
  | GREATER => ">"
  | GREATER_EQUAL => ">="
  | AND => "&&"
  | OR => "||"
  | NOT => "!"
  | _ => "?"
  end.

(** ** Expressions *)

(** The two loops over sub-expressions, abstracted over the function that
    lowers one expression.  [generateArgumentsWith] is the loop of
    [generateCallExpression] (one PARAM per argument, the texts joined by a
    comma), [generateElementsWith] the loop of [generateSequenceExpression]
    (one STORE per element, with its index). *)
Section ExpressionLoops.
Variable gen : Expr -> state -> string * state.

Definition generateArgumentsWith (ln : Z)
  : list Expr -> string -> state -> string * state :=
  fix loop (l : list Expr) (args : string) (st : state) : string * state :=
    match l with
    | [] => (args, st)
    | a :: rest =>
        let '(arg, st1) := gen a st in
        let st2 := emit (TAC "PARAM" arg "" "" ln) st1 in
        let args1 := if String.eqb args "" then args else args +:+ ", " in
        loop rest (args1 +:+ arg) st2
    end.

Definition generateElementsWith (result : string) (ln : Z)
  : list Expr -> Z -> state -> state :=
  fix loop (l : list Expr) (i : Z) (st : state) : state :=
    match l with
    | [] => st
    | e :: rest =>
        let '(element, st1) := gen e st in
        loop rest (i + 1)
          (emit (TAC "STORE" element (to_string i) result ln) st1)
    end.
End ExpressionLoops.

Fixpoint generateExpression (expr : Expr) (st : state) : string * state :=
  match expr with
  | BinaryExpr l o r =>
      let '(lhs, st1) := generateExpression l st in
      let '(rhs, st2) := generateExpression r st1 in
      let '(result, st3) := newTemp st2 in
      (result, emit (TAC (getOperatorTAC (type o)) lhs rhs result (Expr_line expr)) st3)
  | UnaryExpr o r =>
      let '(e, st1) := generateExpression r st in
      let '(result, st2) := newTemp st1 in
      (result, emit (TAC (getOperatorTAC (type o)) e "" result (Expr_line expr)) st2)
  | LiteralExpr v => (lexeme v, st)
  | VariableExpr n => (lexeme n, st)
  | CallExpr callee arguments =>
      let '(result, st1) := newTemp st in
      let '(args, st2) :=
        generateArgumentsWith generateExpression (Expr_line expr) arguments "" st1 in
      (result, emit (TAC "CALL" (lexeme callee) args result (Expr_line expr)) st2)
  | SequenceExpr elements =>
      let '(result, st1) := newTemp st in
      let st2 := emit (TAC "ASSIGN" "[]" "" result (Expr_line expr)) st1 in
      (result, generateElementsWith generateExpression result (Expr_line expr) elements 0 st2)
  end.

(** ** Statements *)

Definition generateDeclaration (n : Token) (initializer : option Expr)
    (ln : Z) (st : state) : state :=
  match initializer with
  | Some init =>
      let '(value, st1) := generateExpression init st in
      emit (TAC "ASSIGN" value "" (lexeme n) ln) st1
  | None => st
  end.

Definition generateAssignment (n : Token) (v : Expr) (ln : Z) (st : state)
  : state :=
  let '(value, st1) := generateExpression v st in
  emit (TAC "ASSIGN" value "" (lexeme n) ln) st1.

Definition generateReturnStatement (v : option Expr) (ln : Z) (st : state)
  : state :=
  match v with
  | Some e =>
      let '(value, st1) := generateExpression e st in
      emit (TAC "RETURN" value "" "" ln) st1
  | None => emit (TAC "RETURN" "" "" "" ln) st
  end.

Definition generateExpressionStatement (e : Expr) (st : state) : state :=
  snd (generateExpression e st).

(** The loop [for (auto& stmt : ...) generateStatement(stmt.get())],
    abstracted over the function that lowers one statement. *)
Definition generateStatementsWith (gen : Stmt -> state -> state)
  : list Stmt -> state -> state :=
  fix loop (l : list Stmt) (st : state) : state :=
    match l with
    | [] => st
    | s :: rest => loop rest (gen s st)
    end.

(** [generateStatement] dispatches on the dynamic type of the node; a
    [BlockStmt] matches no branch and emits nothing.  The bodies of
    [generateIfStatement] and [generateWhileStatement] are written in the
    branches they are called from. *)
Fixpoint generateStatement (stmt : Stmt) (st : state) : state :=
  match stmt with
  | DeclarationStmt n _ init => generateDeclaration n init (Stmt_line stmt) st
  | AssignmentStmt n v => generateAssignment n v (Stmt_line stmt) st
  | IfStmt condition thenBranch elseBranch =>
      let '(cond, st1) := generateExpression condition st in
      let '(elseLabel, st2) := newLabel st1 in
      let '(endLabel, st3) := newLabel st2 in
      let st4 := emit (TAC "IF_FALSE" cond "" elseLabel (Stmt_line stmt)) st3 in
      let st5 := generateStatementsWith generateStatement thenBranch st4 in
      let st6 := emit (TAC "GOTO" "" "" endLabel (Stmt_line stmt)) st5 in
      let st7 := emit (TAC "LABEL" "" "" elseLabel (Stmt_line stmt)) st6 in
      let st8 := generateStatementsWith generateStatement elseBranch st7 in
      emit (TAC "LABEL" "" "" endLabel (Stmt_line stmt)) st8
  | WhileStmt condition body =>
      let '(startLabel, st1) := newLabel st in
      let '(conditionLabel, st2) := newLabel st1 in
      let '(endLabel, st3) := newLabel st2 in
      let st4 := emit (TAC "GOTO" "" "" conditionLabel (Stmt_line stmt)) st3 in
      let st5 := emit (TAC "LABEL" "" "" startLabel (Stmt_line stmt)) st4 in
      let st6 := generateStatementsWith generateStatement body st5 in
      let st7 := emit (TAC "LABEL" "" "" conditionLabel (Stmt_line stmt)) st6 in
      let '(cond, st8) := generateExpression condition st7 in
      let st9 := emit (TAC "IF" cond "" startLabel (Stmt_line stmt)) st8 in
      emit (TAC "LABEL" "" "" endLabel (Stmt_line stmt)) st9
  | ReturnStmt v => generateReturnStatement v (Stmt_line stmt) st
  | ExpressionStmt e => generateExpressionStatement e st
  | BlockStmt _ => st
  end.

Definition generateStatements : list Stmt -> state -> state :=
  generateStatementsWith generateStatement.

(** [generateWhileStatement] is the [WhileStmt] branch above. *)
Definition generateWhileStatement (condition : Expr) (body : list Stmt)
    (st : state) : state :=
  generateStatement (WhileStmt condition body) st.

(** [generateIfStatement] is the [IfStmt] branch above. *)
Definition generateIfStatement (condition : Expr) (thenBranch elseBranch : list Stmt)
    (st : state) : state :=
  generateStatement (IfStmt condition thenBranch elseBranch) st.

(** [extends st st']: the code of [st'] is the code of [st] followed by
    further instructions. *)
Definition extends (st st' : state) : Prop :=
  exists d, intermediateCode st' = intermediateCode st ++ d.

(** The instructions appended between two states of one generation run. *)
Definition emittedBetween (before after : state) : list ThreeAddressCode :=
  drop (length (intermediateCode before)) (intermediateCode after).




(** ** Functions and programs *)

Fixpoint generateParameters (ps : list (Token * DataType)) (st : state) : state :=
  match ps with
  | [] => st
  | (p, _) :: rest =>
      generateParameters rest
        (emit (TAC "ASSIGN" ("param_" +:+ lexeme p) "" (lexeme p) (Tokens.line p)) st)
  end.

Definition generateFunction (function : FunctionDecl) (st : state) : state :=
  let st1 := emit (TAC "LABEL" "" "" (lexeme (name function)) (FunctionDecl_line function)) st in
  let st2 := generateParameters (parameters function) st1 in
  let st3 := generateStatements (body function) st2 in
  if bool_decide (returnType function = DT_VOID)
  then emit (TAC "RETURN" "" "" "" (FunctionDecl_line function)) st3
  else st3.

Fixpoint generateProgram (fs : list FunctionDecl) (st : state) : state :=
  match fs with
  | [] => st
  | f :: rest => generateProgram rest (generateFunction f st)
  end.

(** [CodeGenerator::generate]: clears the code and both counters first. *)
Definition generate (program : Program) : list ThreeAddressCode :=
  intermediateCode (generateProgram (functions program) (mkState [] 0 0)).

End CodeGenerator.

(* ===================================================================== *)
(** * Interpreter (interpreter.h, interpreter.cpp) *)
(* ===================================================================== *)

Module Interpreter.
Import Cxx Ast.
Import Tokens (Token, lexeme, type).

(** ** Runtime values *)

Module Kind.
Inductive t : Type := VOID | INT | FLOAT | BOOL | STRING | SEQUENCE.
End Kind.

(** [RuntimeValue] is a struct that carries a [kind] tag next to one member
    per kind; every accessor reads only the member its [kind] selects, so a
    value is represented by its tag and that member.  The constructors are
    the factory functions of the struct.  ([FromInt] and [FromFloat] also
    store the converted value in the other numeric member; nothing reads
    it.) *)
Inductive RuntimeValue : Type :=
  | Void
  | FromInt (intValue : Z)
  | FromFloat (floatValue : double)
  | FromBool (boolValue : bool)
  | FromString (stringValue : string)
  | FromSequence (sequenceValue : list RuntimeValue).

Definition kind (v : RuntimeValue) : Kind.t :=
  match v with
  | Void => Kind.VOID
  | FromInt _ => Kind.INT
  | FromFloat _ => Kind.FLOAT
  | FromBool _ => Kind.BOOL
  | FromString _ => Kind.STRING
  | FromSequence _ => Kind.SEQUENCE
  end.

Definition isNumeric (v : RuntimeValue) : bool :=
  match v with
  | FromInt _ | FromFloat _ => true
  | _ => false
  end.

Definition isFloat (v : RuntimeValue) : bool :=
  match v with
  | FromFloat _ => true
  | _ => false
  end.

Definition asFloat (v : RuntimeValue) : res double :=
  match v with
  | FromFloat f => Ok f
  | FromInt i => Ok (double_of_Z i)
  | FromBool b => Ok (double_of_Z (if b then 1 else 0))
  | _ => Throw (runtime_error "Runtime error: value is not numeric")
  end.

Definition asInt (v : RuntimeValue) : res Z :=
  match v with
  | FromInt i => Ok i
  | FromFloat f => Ok (ll_of_double f)
  | FromBool b => Ok (if b then 1 else 0)
  | _ => Throw (runtime_error "Runtime error: value is not an integer")
  end.

(** The double literal [1e-9]. *)
Definition epsilon : double := double_of_decimal false 1 (-9).

Definition isTruthy (v : RuntimeValue) : bool :=
  match v with
  | Void => false
  | FromBool b => b
  | FromInt i => negb (i =? 0)
  | FromFloat f => dlt epsilon (dabs f)
  | FromString s => negb (String.eqb s "")
  | FromSequence l => match l with [] => false | _ => true end
  end.

Definition asBool (v : RuntimeValue) : bool :=
  match v with
  | FromBool b => b
  | FromInt i => negb (deq (double_of_Z i) dzero)
  | FromFloat f => negb (deq f dzero)
  | _ => isTruthy v
  end.

Fixpoint toString (v : RuntimeValue) : string :=
  match v with
  | Void => "void"
  | FromInt i => to_string i
  | FromFloat f => double_to_string f
  | FromBool b => if b then "true" else "false"
  | FromString s => s
  | FromSequence l =>
      let fix elements (l : list RuntimeValue) (i : nat) : string :=
        match l with
        | [] => ""
        | x :: rest =>
            (match i with O => "" | _ => ", " end)
            +:+ toString x +:+ elements rest (S i)
        end in
      "[" +:+ elements l O +:+ "]"
  end.

(** ** The interpreter's state and control *)

(** [scopes] is the stack of frames with the innermost frame (the back of
    the vector) at the head of the list.  [cin] holds the lines still to be
    read from the input stream and [cout] what [input] has written to the
    console. *)
Record state : Type := mkState {
  scopes : list (gmap string RuntimeValue);
  outputLog : list string;
  cin : list string;
  cout : string
}.

(** What unwinds the C++ stack: an exception of <stdexcept>, or the
    [ReturnSignal] of a return statement. *)
Inductive signal : Type :=
  | Exception (e : exn)
  | ReturnSignal (value : RuntimeValue).

(** The result of running a piece of the interpreter on a budget of
    recursion steps. *)
Inductive outcome (A : Type) : Type :=
  | Normal (a : A)
  | Raised (s : signal)
  | OutOfFuel.
Arguments Normal {A} a.
Arguments Raised {A} s.
Arguments OutOfFuel {A}.

Definition M (A : Type) : Type := state -> outcome A * state.

Definition ret {A} (a : A) : M A := fun st => (Normal a, st).

Definition bindM {A B} (m : M A) (k : A -> M B) : M B :=
  fun st =>
    match m st with
    | (Normal a, st') => k a st'
    | (Raised s, st') => (Raised s, st')
    | (OutOfFuel, st') => (OutOfFuel, st')
    end.

Notation "'let*' x ':=' m 'in' k" := (bindM m (fun x => k))
  (at level 10, x pattern, m at level 100, k at level 200).
Notation "m ';;' k" := (bindM m (fun _ => k))
  (at level 100, k at level 200, right associativity).

Definition raise {A} (s : signal) : M A := fun st => (Raised s, st).
Definition throw {A} (what : string) : M A :=
  raise (Exception (runtime_error what)).
Definition outOfFuel {A} : M A := fun st => (OutOfFuel, st).

Definition lift {A} (r : res A) : M A :=
  match r with
  | Ok a => ret a
  | Throw e => raise (Exception e)
  end.

Definition modify (f : state -> state) : M unit := fun st => (Normal tt, f st).

(** [finishes m m']: whatever [m] produces within its budget, [m']
    produces too.  It relates a computation to the same computation on a
    larger budget. *)
Definition finished {A} (o : outcome A) : Prop :=
  match o with
  | OutOfFuel => False
  | _ => True
  end.

Definition refines {A} (m m' : M A) : Prop :=
  forall st o st', m st = (o, st') -> finished o -> m' st = (o, st').

(** ** Scopes *)

Definition set_scopes (sc : list (gmap string RuntimeValue)) (st : state) : state :=
  mkState sc (outputLog st) (cin st) (cout st).

Definition pushScope : M unit :=
  modify (fun st => set_scopes (∅ :: scopes st) st).

Definition popScope : M unit :=
  modify (fun st => set_scopes (tail (scopes st)) st).

Definition defineIn (n : string) (value : RuntimeValue)
    (sc : list (gmap string RuntimeValue)) : list (gmap string RuntimeValue) :=
  match sc with
  | [] => [ <[n := value]> ∅ ]
  | frame :: outer => <[n := value]> frame :: outer
  end.

Definition define (n : string) (value : RuntimeValue) : M unit :=
  modify (fun st => set_scopes (defineIn n value (scopes st)) st).

(** The search of [assign], from the innermost frame outwards: the frames
    with the first one that binds [n] updated, or [None]. *)
Fixpoint assignIn (n : string) (value : RuntimeValue)
    (sc : list (gmap string RuntimeValue))
  : option (list (gmap string RuntimeValue)) :=
  match sc with
  | [] => None
  | frame :: outer =>
      match frame !! n with
      | Some _ => Some (<[n := value]> frame :: outer)
      | None => option_map (cons frame) (assignIn n value outer)
      end
  end.

Definition assign (n : string) (value : RuntimeValue) : M unit :=
  fun st =>
    match assignIn n value (scopes st) with
    | Some sc => (Normal tt, set_scopes sc st)
    | None => define n value st
    end.

Fixpoint lookupIn (n : string) (sc : list (gmap string RuntimeValue))
  : option RuntimeValue :=
  match sc with
  | [] => None
  | frame :: outer =>
      match frame !! n with
      | Some v => Some v
      | None => lookupIn n outer
      end
  end.

Definition get (n : string) : M RuntimeValue :=
  fun st =>
    match lookupIn n (scopes st) with
    | Some v => (Normal v, st)
    | None => throw ("Runtime error: Undefined variable '" +:+ n +:+ "'") st
    end.

(** ** Helpers of the built-ins *)

Definition ensureNumeric (value : RuntimeValue) (o : string) : M RuntimeValue :=
  if isNumeric value then ret value
  else throw ("Runtime error: operator '" +:+ o +:+ "' requires numeric operands").

Definition extractFunctionName (expr : Expr) : M string :=
  match expr with
  | VariableExpr n => ret (lexeme n)
  | _ => throw "Runtime error: expected function identifier"
  end.

Definition is_blank (c : ascii) : bool :=
  Ascii.eqb c " " || Ascii.eqb c "009" || Ascii.eqb c "013" || Ascii.eqb c "010".

Fixpoint drop_blanks (s : list ascii) : list ascii :=
  match s with
  | c :: rest => if is_blank c then drop_blanks rest else s
  | [] => []
  end.

(** The [trim] lambda of [handleInput]. *)
Definition trim (s : string) : string :=
  string_of_list_ascii
    (rev (drop_blanks (rev (drop_blanks (list_ascii_of_string s))))).

(** The conversion of a trimmed, non-empty input line. *)
Definition parseInputLine (ln : string) : RuntimeValue :=
  let asInteger :=
    match stoll_idx ln with
    | Ok (value, idx) =>
        if (idx =? String.length ln)%nat then Some (FromInt value) else None
    | Throw _ => None
    end in
  match asInteger with
  | Some v => v
  | None =>
      match stod ln with
      | Ok value => FromInt (ll_of_double value)
      | Throw _ => FromInt 0
      end
  end.

(** The lambdas handed to [performNumeric] by the four arithmetic
    operators. *)
Definition arithmetic (t : Tokens.TokenType)
  : option (double -> double -> double) :=
  match t with
  | Tokens.PLUS => Some dadd
  | Tokens.MINUS => Some dsub
  | Tokens.MULTIPLY => Some dmul
  | Tokens.DIVIDE => Some ddiv
  | _ => None
  end.

(** ** Evaluation, parameterised by the recursive calls

    [evaluateExpression], [executeStatement] and [executeFunction] call one
    another without bound (loops, recursion in the interpreted program).
    Their bodies are written once, over the three functions they call; the
    knot is tied below by recursion on a budget. *)
Section Bodies.
Variable functions : gmap string FunctionDecl.
Variable evaluateExpression : Expr -> M RuntimeValue.
Variable executeStatement : Stmt -> M unit.
Variable executeFunction : FunctionDecl -> list RuntimeValue -> M RuntimeValue.

Fixpoint evaluateAll (l : list Expr) : M (list RuntimeValue) :=
  match l with
  | [] => ret []
  | e :: rest =>
      let* v := evaluateExpression e in
      let* vs := evaluateAll rest in
      ret (v :: vs)
  end.

Fixpoint executeAll (l : list Stmt) : M unit :=
  match l with
  | [] => ret tt
  | s :: rest => executeStatement s ;; executeAll rest
  end.

Definition callUserFunction (n : string) (args : list RuntimeValue)
  : M RuntimeValue :=
  match functions !! n with
  | Some f => executeFunction f args
  | None => throw ("Runtime error: Undefined function '" +:+ n +:+ "'")
  end.

Definition performNumeric (func : double -> double -> double)
    (lhs rhs : RuntimeValue) : M RuntimeValue :=
  let useFloat := isFloat lhs || isFloat rhs in
  let* leftVal := lift (asFloat lhs) in
  let* rightVal := lift (asFloat rhs) in
  let value := func leftVal rightVal in
  if useFloat then ret (FromFloat value)
  else ret (FromInt (ll_of_double value)).

Definition compareNumeric (cmp : double -> double -> bool)
    (lhs rhs : RuntimeValue) : M RuntimeValue :=
  let* l := lift (asFloat lhs) in
  let* r := lift (asFloat rhs) in
  ret (FromBool (cmp l r)).

Definition evaluateBinary (l : Expr) (o : Token) (r : Expr) : M RuntimeValue :=
  let* lhs := evaluateExpression l in
  let* rhs := evaluateExpression r in
  match type o with
  | Tokens.PLUS =>
      match lhs, rhs with
      | FromSequence a, FromSequence b => ret (FromSequence (a ++ b))
      | _, _ => performNumeric dadd lhs rhs
      end
  | Tokens.MINUS => performNumeric dsub lhs rhs
  | Tokens.MULTIPLY => performNumeric dmul lhs rhs
  | Tokens.DIVIDE => performNumeric ddiv lhs rhs
  | Tokens.MODULO =>
      let* lv := lift (asInt lhs) in
      let* rv := lift (asInt rhs) in
      if rv =? 0 then throw "Runtime error: division by zero"
      else ret (FromInt (wrap_ll (Z.rem lv rv)))
  | Tokens.EQUALS =>
      ret (FromBool (String.eqb (toString lhs) (toString rhs)))
  | Tokens.NOT_EQUALS =>
      ret (FromBool (negb (String.eqb (toString lhs) (toString rhs))))
  | Tokens.LESS => compareNumeric dlt lhs rhs
  | Tokens.LESS_EQUAL => compareNumeric dle lhs rhs
  | Tokens.GREATER => compareNumeric (fun a b => dlt b a) lhs rhs
  | Tokens.GREATER_EQUAL => compareNumeric (fun a b => dle b a) lhs rhs
  | Tokens.AND => ret (FromBool (asBool lhs && asBool rhs))
  | Tokens.OR => ret (FromBool (asBool lhs || asBool rhs))
  | _ => ret Void
  end.

Definition evaluateUnary (o : Token) (r : Expr) : M RuntimeValue :=
  let* value := evaluateExpression r in
  match type o with
  | Tokens.MINUS =>
      ensureNumeric value "-" ;;
      match value with
      | FromFloat f => ret (FromFloat (dneg f))
      | FromInt i => ret (FromInt (wrap_ll (- i)))
      | _ => ret (FromInt 0)
      end
  | Tokens.NOT => ret (FromBool (negb (asBool value)))
  | _ => ret Void
  end.

Definition evaluateLiteral (value : Token) : M RuntimeValue :=
  match type value with
  | Tokens.NUMBER => let* i := lift (stoll (lexeme value)) in ret (FromInt i)
  | Tokens.FLOAT => let* f := lift (stod (lexeme value)) in ret (FromFloat f)
  | Tokens.TRUE => ret (FromBool true)
  | Tokens.FALSE => ret (FromBool false)
  | Tokens.STRING => ret (FromString (lexeme value))
  | _ => ret Void
  end.

Definition evaluateVariable (n : Token) : M RuntimeValue := get (lexeme n).

Definition evaluateSequence (elements : list Expr) : M RuntimeValue :=
  let* values := evaluateAll elements in
  ret (FromSequence values).

(** *** Built-ins *)

Fixpoint printArguments (l : list Expr) (i : nat) (ln : string) : M string :=
  match l with
  | [] => ret ln
  | e :: rest =>
      let* value := evaluateExpression e in
      let ln1 := match i with O => ln | _ => ln +:+ " " end in
      printArguments rest (S i) (ln1 +:+ toString value)
  end.

Definition handlePrint (arguments : list Expr) : M RuntimeValue :=
  let* ln := printArguments arguments O "" in
  modify (fun st => mkState (scopes st) (outputLog st ++ [ln]) (cin st) (cout st)) ;;
  ret Void.

Definition handleLength (arguments : list Expr) : M RuntimeValue :=
  match arguments with
  | [a] =>
      let* sequence := evaluateExpression a in
      match sequence with
      | FromSequence l => ret (FromInt (Z.of_nat (length l)))
      | _ => throw "Runtime error: length expects a sequence"
      end
  | _ => throw "Runtime error: length expects 1 argument"
  end.

Definition handleGet (arguments : list Expr) : M RuntimeValue :=
  match arguments with
  | [a; b] =>
      let* sequence := evaluateExpression a in
      let* index := evaluateExpression b in
      match sequence with
      | FromSequence l =>
          let* idx := lift (asInt index) in
          if (idx <? 0) || (Z.of_nat (length l) <=? idx)
          then throw "Runtime error: sequence index out of range"
          else
            match l !! Z.to_nat idx with
            | Some v => ret v
            | None => throw "Runtime error: sequence index out of range"
            end
      | _ => throw "Runtime error: get expects a sequence as the first argument"
      end
  | _ => throw "Runtime error: get expects 2 arguments"
  end.

Fixpoint mapItems (mapperName : string) (items : list RuntimeValue)
  : M (list RuntimeValue) :=
  match items with
  | [] => ret []
  | item :: rest =>
      let* v := callUserFunction mapperName [item] in
      let* vs := mapItems mapperName rest in
      ret (v :: vs)
  end.

Definition handleMap (arguments : list Expr) : M RuntimeValue :=
  match arguments with
  | [a; b] =>
      let* sequence := evaluateExpression a in
      match sequence with
      | FromSequence l =>
          let* mapperName := extractFunctionName b in
          let* result := mapItems mapperName l in
          ret (FromSequence result)
      | _ => throw "Runtime error: map expects a sequence as the first argument"
      end
  | _ => throw "Runtime error: map expects 2 arguments"
  end.

Fixpoint filterItems (predicateName : string) (items : list RuntimeValue)
  : M (list RuntimeValue) :=
  match items with
  | [] => ret []
  | item :: rest =>
      let* keep := callUserFunction predicateName [item] in
      let* vs := filterItems predicateName rest in
      ret (if asBool keep then item :: vs else vs)
  end.

Definition handleFilter (arguments : list Expr) : M RuntimeValue :=
  match arguments with
  | [a; b] =>
      let* sequence := evaluateExpression a in
      match sequence with
      | FromSequence l =>
          let* predicateName := extractFunctionName b in
          let* result := filterItems predicateName l in
          ret (FromSequence result)
      | _ => throw "Runtime error: filter expects a sequence as the first argument"
      end
  | _ => throw "Runtime error: filter expects 2 arguments"
  end.

Definition handleGenerate (arguments : list Expr) : M RuntimeValue :=
  evaluateAll arguments ;; ret (FromSequence []).

Definition write_cout (s : string) : M unit :=
  modify (fun st => mkState (scopes st) (outputLog st) (cin st) (cout st +:+ s)).

(** [std::getline(std::cin, line)]: [None] at the end of the input. *)
Definition getline : M (option string) :=
  fun st =>
    match cin st with
    | [] => (Normal None, st)
    | l :: rest => (Normal (Some l), mkState (scopes st) (outputLog st) rest (cout st))
    end.

Definition handleInput (arguments : list Expr) : M RuntimeValue :=
  match arguments with
  | _ :: _ :: _ => throw "Runtime error: input expects at most 1 argument"
  | _ =>
      match arguments with
      | a :: _ =>
          let* prompt := evaluateExpression a in
          let promptText := toString prompt in
          if String.eqb promptText "" then ret tt
          else write_cout (promptText +:+ " ")
      | [] => ret tt
      end ;;
      write_cout "> " ;;
      let* read := getline in
      match read with
      | None => ret (FromInt 0)
      | Some l =>
          let l' := trim l in
          if String.eqb l' "" then ret (FromInt 0)
          else ret (parseInputLine l')
      end
  end.

Definition evaluateCall (callee : Token) (arguments : list Expr)
  : M RuntimeValue :=
  let funcName := lexeme callee in
  if String.eqb funcName "print" then handlePrint arguments
  else if String.eqb funcName "length" then handleLength arguments
  else if String.eqb funcName "get" then handleGet arguments
  else if String.eqb funcName "map" then handleMap arguments
  else if String.eqb funcName "filter" then handleFilter arguments
  else if String.eqb funcName "generate" then handleGenerate arguments
  else if String.eqb funcName "input" then handleInput arguments
  else
    let* args := evaluateAll arguments in
    callUserFunction funcName args.

Definition evaluateExpressionBody (expr : Expr) : M RuntimeValue :=
  match expr with
  | BinaryExpr l o r => evaluateBinary l o r
  | UnaryExpr o r => evaluateUnary o r
  | LiteralExpr v => evaluateLiteral v
  | VariableExpr n => evaluateVariable n
  | CallExpr c args => evaluateCall c args
  | SequenceExpr elts => evaluateSequence elts
  end.

(** *** Statements *)

(** [executeBlock]: the frame is popped on the way out, also when an
    exception or a return passes through. *)
Definition executeBlock (statements : list Stmt) : M unit :=
  pushScope ;;
  fun st =>
    match executeAll statements st with
    | (Normal tt, st') => popScope st'
    | (Raised s, st') => (Raised s, snd (popScope st'))
    | (OutOfFuel, st') => (OutOfFuel, st')
    end.

(** In the [if] and [while] branches the frame is pushed and popped
    around the statements without a handler: an exception or a return
    leaves it on the stack. *)
Definition executeStatementBody (stmt : Stmt) : M unit :=
  match stmt with
  | DeclarationStmt n _ initializer =>
      let* value :=
        match initializer with
        | Some e => evaluateExpression e
        | None => ret Void
        end in
      define (lexeme n) value
  | AssignmentStmt n v =>
      let* value := evaluateExpression v in
      assign (lexeme n) value
  | IfStmt condition thenBranch elseBranch =>
      let* c := evaluateExpression condition in
      if asBool c then
        pushScope ;; executeAll thenBranch ;; popScope
      else
        match elseBranch with
        | [] => ret tt
        | _ => pushScope ;; executeAll elseBranch ;; popScope
        end
  | WhileStmt condition body =>
      let* c := evaluateExpression condition in
      if asBool c then
        pushScope ;; executeAll body ;; popScope ;;
        executeStatement stmt
      else ret tt
  | ReturnStmt v =>
      let* value :=
        match v with
        | Some e => evaluateExpression e
        | None => ret Void
        end in
      raise (ReturnSignal value)
  | ExpressionStmt e => evaluateExpression e ;; ret tt
  | BlockStmt statements => executeBlock statements
  end.

Fixpoint bindParameters (ps : list (Token * DataType))
    (args : list RuntimeValue) : M unit :=
  match ps with
  | [] => ret tt
  | (p, _) :: rest =>
      define (lexeme p) (match args with a :: _ => a | [] => Void end) ;;
      bindParameters rest (tail args)
  end.

Definition executeFunctionBody (function : FunctionDecl)
    (args : list RuntimeValue) : M RuntimeValue :=
  pushScope ;;
  bindParameters (parameters function) args ;;
  fun st =>
    match executeAll (body function) st with
    | (Normal tt, st') => (Normal Void, snd (popScope st'))
    | (Raised (ReturnSignal value), st') => (Normal value, snd (popScope st'))
    | (Raised (Exception e), st') => (Raised (Exception e), snd (popScope st'))
    | (OutOfFuel, st') => (OutOfFuel, st')
    end.
End Bodies.

(** ** Tying the knot: a budget of nested calls *)

Fixpoint evaluateExpression (functions : gmap string FunctionDecl)
    (fuel : nat) (expr : Expr) {struct fuel} : M RuntimeValue :=
  match fuel with
  | O => outOfFuel
  | S fuel' =>
      evaluateExpressionBody functions
        (evaluateExpression functions fuel')
        (executeFunction functions fuel') expr
  end
with executeStatement (functions : gmap string FunctionDecl)
    (fuel : nat) (stmt : Stmt) {struct fuel} : M unit :=
  match fuel with
  | O => outOfFuel
  | S fuel' =>
      executeStatementBody
        (evaluateExpression functions fuel')
        (executeStatement functions fuel') stmt
  end
with executeFunction (functions : gmap string FunctionDecl)
    (fuel : nat) (function : FunctionDecl) (args : list RuntimeValue)
    {struct fuel} : M RuntimeValue :=
  match fuel with
  | O => outOfFuel
  | S fuel' =>
      executeFunctionBody (executeStatement functions fuel') function args
  end.

(** ** [Interpreter::run] *)

Module ExecutionResult.
Record t : Type := make {
  success : bool;
  exitCode : Z;
  outputLog : list string;
  errorMessage : string
}.
End ExecutionResult.
Abbreviation ExecutionResult := ExecutionResult.t.
Abbreviation mkResult := ExecutionResult.make.

(** [initializeFunctionTable]: a later function of the same name replaces
    an earlier one. *)
Definition initializeFunctionTable (program : option Program)
  : gmap string FunctionDecl :=
  match program with
  | None => ∅
  | Some p =>
      fold_left (fun m f => <[lexeme (name f) := f]> m) (functions p) ∅
  end.

(** [ReturnSignal] derives from [std::exception] and does not override
    [what()]. *)
Definition signal_what (s : signal) : string :=
  match s with
  | Exception e => what e
  | ReturnSignal _ => "std::exception"
  end.

(** What [run] makes of the call of [main]: the exit code of a normal
    return (0 for [Void]; [success] is already set when the conversion of
    the returned value throws), or the message of the exception caught at
    the top level.  The output log is reported in every case.  [None] means
    that the budget was too small. *)
Definition resultOf (r : outcome RuntimeValue * state) : option ExecutionResult :=
  match r with
  | (Normal returnValue, st) =>
      match returnValue with
      | Void => Some (mkResult true 0 (outputLog st) "")
      | _ =>
          match asInt returnValue with
          | Ok code => Some (mkResult true (wrap_int code) (outputLog st) "")
          | Throw e => Some (mkResult true 0 (outputLog st) (what e))
          end
      end
  | (Raised s, st) => Some (mkResult false 0 (outputLog st) (signal_what s))
  | (OutOfFuel, _) => None
  end.

(** [run fuel program input]: a freshly constructed interpreter run once,
    with the lines [input] on its input stream. *)
Definition run (fuel : nat) (program : option Program) (input : list string)
  : option ExecutionResult :=
  let functions := initializeFunctionTable program in
  match program with
  | None => Some (mkResult false 0 [] "No program loaded")
  | Some _ =>
      match functions !! "main" with
      | None => Some (mkResult false 0 [] "No 'main' function found")
      | Some main =>
          resultOf (executeFunction functions fuel main [] (mkState [] [] input ""))
      end
  end.

(** ** Relations used to state what an execution leaves unchanged *)

(** Between two states of one run: the output log and the console output
    have only been extended, the input has only been consumed. *)
Definition streamsAdvance (st st' : state) : Prop :=
  (exists d, outputLog st' = outputLog st ++ d) /\
  (exists k : nat, cin st' = drop k (cin st)) /\
  (exists s, cout st' = cout st +:+ s).

Definition isException (s : signal) : Prop :=
  match s with
  | Exception _ => True
  | ReturnSignal _ => False
  end.

Definition anySignal (s : signal) : Prop := True.

(** [respects ok m]: every run of [m] advances the streams, and a signal
    it lets escape satisfies [ok]. *)
Definition respects {A} (ok : signal -> Prop) (m : M A) : Prop :=
  forall st o st', m st = (o, st') ->
    streamsAdvance st st' /\
    match o with
    | Raised s => ok s
    | _ => True
    end.

End Interpreter.

(* ===================================================================== *)
(** * Lexer (lexer.cpp) *)
(* ===================================================================== *)

Module Lexer.
Import Cxx Tokens.

(** [std::isalpha] and [std::isalnum] in the "C" locale. *)
Definition isalpha (c : ascii) : bool :=
  let n := nat_of_ascii c in
  ((65 <=? n)%nat && (n <=? 90)%nat) || ((97 <=? n)%nat && (n <=? 122)%nat).

Definition isalnum (c : ascii) : bool := isalpha c || isdigit c.

Definition keywords (text : string) : option TokenType :=
  if String.eqb text "func" then Some FUNC
  else if String.eqb text "let" then Some LET
  else if String.eqb text "if" then Some IF
  else if String.eqb text "else" then Some ELSE
  else if String.eqb text "while" then Some WHILE
  else if String.eqb text "return" then Some RETURN
  else if String.eqb text "true" then Some TRUE
  else if String.eqb text "false" then Some FALSE
  else if String.eqb text "and" then Some AND
  else if String.eqb text "or" then Some OR
  else if String.eqb text "not" then Some NOT
  else if String.eqb text "int" then Some INT
  else if String.eqb text "float" then Some FLOAT_TYPE
  else if String.eqb text "bool" then Some BOOL
  else if String.eqb text "sequence" then Some SEQUENCE
  else if String.eqb text "pattern" then Some PATTERN
  else None.

(** The scanner's position: the characters from [current] on, with the
    line and column counters.  The text of a token is the run of characters
    consumed since [start]; the scanning functions below build it as they
    consume. *)
Record state : Type := mkState {
  rest : string;
  line : Z;
  column : Z
}.

(** [skipWhitespace].  [inComment] is the inner loop that runs from a [#]
    to the end of the line; the line feed itself is handled by the outer
    loop (the line counter goes up, the column is reset to 1 and then the
    character is consumed). *)
Fixpoint skipWhitespace (inComment : bool) (s : string) (ln col : Z) : state :=
  match s with
  | EmptyString => mkState s ln col
  | String c r =>
      if Ascii.eqb c "010" then skipWhitespace false r (ln + 1) (1 + 1)
      else if inComment then skipWhitespace true r ln (col + 1)
      else if Ascii.eqb c " " || Ascii.eqb c "009" || Ascii.eqb c "013"
        then skipWhitespace false r ln (col + 1)
      else if Ascii.eqb c "#" then skipWhitespace true r ln (col + 1)
      else mkState s ln col
  end.

(** [stringLiteral], after the opening quote: [text] is the content read
    so far. *)
Fixpoint stringLiteral (s : string) (text : string) (ln col : Z)
  : Token * state :=
  match s with
  | EmptyString =>
      (mkToken ERROR "Unterminated string" ln col, mkState s ln col)
  | String c r =>
      if Ascii.eqb c "034" then
        (mkToken STRING text ln (col + 1), mkState r ln (col + 1))
      else if Ascii.eqb c "010" then
        stringLiteral r (text +:+ String c "") (ln + 1) (1 + 1)
      else stringLiteral r (text +:+ String c "") ln (col + 1)
  end.

(** [number], after its first digit. *)
Fixpoint number (s : string) (text : string) (isFloat : bool) (ln col : Z)
  : Token * state :=
  let finish :=
    (mkToken (if isFloat then FLOAT else NUMBER) text ln col, mkState s ln col) in
  match s with
  | EmptyString => finish
  | String c r =>
      if Ascii.eqb c "." then
        if isFloat then finish
        else number r (text +:+ String c "") true ln (col + 1)
      else if isdigit c then number r (text +:+ String c "") isFloat ln (col + 1)
      else finish
  end.

(** [identifier], after its first character. *)
Fixpoint identifier (s : string) (text : string) (ln col : Z)
  : Token * state :=
  let finish :=
    (mkToken (match keywords text with Some t => t | None => IDENTIFIER end)
       text ln col,
     mkState s ln col) in
  match s with
  | EmptyString => finish
  | String c r =>
      if isalnum c || Ascii.eqb c "_"
      then identifier r (text +:+ String c "") ln (col + 1)
      else finish
  end.

(** [match(expected)] on the character after the one just consumed. *)
Definition matchChar (expected : ascii) (s : string) : option string :=
  match s with
  | String c r => if Ascii.eqb c expected then Some r else None
  | EmptyString => None
  end.

Definition nextToken (st : state) : Token * state :=
  let '(mkState s ln col) := skipWhitespace false (rest st) (line st) (column st) in
  match s with
  | EmptyString => (mkToken END_OF_FILE "" ln col, mkState s ln col)
  | String c r =>
      let col1 := col + 1 in
      let single (t : TokenType) := (mkToken t (String c "") ln col1, mkState r ln col1) in
      let double (second : ascii) (t2 : TokenType) (text2 : string)
                 (otherwise : Token * state) :=
        match matchChar second r with
        | Some r' => (mkToken t2 text2 ln (col1 + 1), mkState r' ln (col1 + 1))
        | None => otherwise
        end in
      if isalpha c || Ascii.eqb c "_" then identifier r (String c "") ln col1
      else if isdigit c then number r (String c "") false ln col1
      else if Ascii.eqb c "034" then stringLiteral r "" ln col1
      else if Ascii.eqb c "(" then single LPAREN
      else if Ascii.eqb c ")" then single RPAREN
      else if Ascii.eqb c "{" then single LBRACE
      else if Ascii.eqb c "}" then single RBRACE
      else if Ascii.eqb c "[" then single LBRACKET
      else if Ascii.eqb c "]" then single RBRACKET
      else if Ascii.eqb c "," then single COMMA
      else if Ascii.eqb c ":" then single COLON
      else if Ascii.eqb c ";" then single SEMICOLON
      else if Ascii.eqb c "+" then single PLUS
      else if Ascii.eqb c "-" then double ">"%char ARROW "->" (single MINUS)
      else if Ascii.eqb c "*" then single MULTIPLY
      else if Ascii.eqb c "/" then single DIVIDE
      else if Ascii.eqb c "%" then single MODULO
      else if Ascii.eqb c "=" then double "="%char EQUALS "==" (single ASSIGN)
      else if Ascii.eqb c "!" then double "="%char NOT_EQUALS "!=" (single ERROR)
      else if Ascii.eqb c "<" then double "="%char LESS_EQUAL "<=" (single LESS)
      else if Ascii.eqb c ">" then double "="%char GREATER_EQUAL ">=" (single GREATER)
      else single ERROR
  end.

(** The loop of [tokenize]: tokens are collected until END_OF_FILE or
    ERROR, which is pushed last.  Every other token consumes at least one
    character, so a budget of one more than the length of the source is
    never used up. *)
Fixpoint tokenizeFrom (budget : nat) (st : state) : list Token :=
  let '(token, st') := nextToken st in
  match type token with
  | END_OF_FILE | ERROR => [token]
  | _ =>
      match budget with
      | O => [token]
      | S budget' => token :: tokenizeFrom budget' st'
      end
  end.

Definition tokenize (source : string) : list Token :=
  tokenizeFrom (S (String.length source)) (mkState source 1 1).

End Lexer.

(* ===================================================================== *)
(** * Parser (parser.h, parser.cpp) *)
(* ===================================================================== *)

Module Parser.
Import Cxx Tokens Ast.

(** The parser owns the token vector and the index [current].  A grammar
    function returns a node, throws a [ParseError] carrying a message, or
    (in this embedding) runs out of its budget of nested calls; the index
    keeps the value it had when the exception was thrown. *)
Inductive outcome (A : Type) : Type :=
  | Parsed (a : A)
  | ParseError (what : string)
  | OutOfFuel.
Arguments Parsed {A} a.
Arguments ParseError {A} what.
Arguments OutOfFuel {A}.

Definition P (A : Type) : Type := nat -> outcome A * nat.

Definition ret {A} (a : A) : P A := fun current => (Parsed a, current).

Definition bindP {A B} (m : P A) (k : A -> P B) : P B :=
  fun current =>
    match m current with
    | (Parsed a, current') => k a current'
    | (ParseError w, current') => (ParseError w, current')
    | (OutOfFuel, current') => (OutOfFuel, current')
    end.

Notation "'let*' x ':=' m 'in' k" := (bindP m (fun x => k))
  (at level 10, x pattern, m at level 100, k at level 200).
Notation "m ';;' k" := (bindP m (fun _ => k))
  (at level 100, k at level 200, right associativity).

Definition throw {A} (what : string) : P A :=
  fun current => (ParseError what, current).
Definition outOfFuel {A} : P A := fun current => (OutOfFuel, current).

(** [refines m m']: whatever [m] produces within its budget, [m'] produces
    too. *)
Definition finished {A} (o : outcome A) : Prop :=
  match o with
  | OutOfFuel => False
  | _ => True
  end.

Definition refines {A} (m m' : P A) : Prop :=
  forall current o current',
    m current = (o, current') -> finished o -> m' current = (o, current').

Section Grammar.
Variable tokens : list Token.

(** [Token(TokenType::END_OF_FILE, "")]: line and column default to 1. *)
Definition eofToken : Token := mkToken END_OF_FILE "" 1 1.

Definition tokenAt (i : nat) : Token :=
  match tokens !! i with
  | Some t => t
  | None => eofToken
  end.

Definition peek : P Token := fun current => (Parsed (tokenAt current), current).
Definition peekNext : P Token :=
  fun current => (Parsed (tokenAt (current + 1)), current).
Definition previous : P Token :=
  fun current =>
    (Parsed (match current with O => eofToken | S i => tokenAt i end), current).

Definition isAtEnd : P bool :=
  let* t := peek in ret (TokenType_eqb (type t) END_OF_FILE).

Definition advance : P Token :=
  let* e := isAtEnd in
  (if e then ret tt else fun current => (Parsed tt, S current)) ;;
  previous.

Definition check (t : TokenType) : P bool :=
  let* e := isAtEnd in
  if e then ret false
  else let* tok := peek in ret (TokenType_eqb (type tok) t).

Definition match_ (t : TokenType) : P bool :=
  let* c := check t in
  if c then advance ;; ret true else ret false.

Fixpoint matchAny (types : list TokenType) : P bool :=
  match types with
  | [] => ret false
  | t :: rest =>
      let* c := check t in
      if c then advance ;; ret true else matchAny rest
  end.

Fixpoint checkAny (types : list TokenType) : P bool :=
  match types with
  | [] => ret false
  | t :: rest =>
      let* c := check t in
      if c then ret true else checkAny rest
  end.

Definition consume (t : TokenType) (message : string) : P Token :=
  let* c := check t in
  if c then advance
  else
    let* tok := peek in
    throw (message +:+ " at line " +:+ to_string (line tok)).

Definition tokenToDataType (token : Token) : DataType :=
  if TokenType_eqb (type token) INT || String.eqb (lexeme token) "int" then DT_INT
  else if TokenType_eqb (type token) FLOAT_TYPE || String.eqb (lexeme token) "float" then DT_FLOAT
  else if TokenType_eqb (type token) BOOL || String.eqb (lexeme token) "bool" then DT_BOOL
  else if TokenType_eqb (type token) SEQUENCE || String.eqb (lexeme token) "sequence" then DT_SEQUENCE
  else if TokenType_eqb (type token) PATTERN || String.eqb (lexeme token) "pattern" then DT_PATTERN
  else DT_UNKNOWN.

Definition validTypeTokens : list TokenType :=
  [INT; FLOAT_TYPE; BOOL; SEQUENCE; PATTERN; IDENTIFIER].

(** The tokens at which [parsePrintStatement] stops. *)
Definition isStatementTerminator (t : TokenType) : bool :=
  match t with
  | SEMICOLON | RBRACE | FUNC | LET | IF | WHILE | RETURN | ELSE
  | END_OF_FILE => true
  | _ => false
  end.

Definition isPrimaryStart (t : TokenType) : bool :=
  match t with
  | IDENTIFIER | STRING | NUMBER | FLOAT | TRUE | FALSE | LPAREN
  | LBRACKET => true
  | _ => false
  end.

(** ** The grammar functions, over the two recursive entry points

    [fuel] bounds the iterations of the loops; [parseExpression] and
    [parseStatement] stand for the recursive calls. *)
Section Bodies.
Variable fuel : nat.
Variable parseExpression : P Expr.
Variable parseStatement : P Stmt.

(** [do { list.push_back(parseExpression()); }
     while (match(COMMA) && !check(closing));] *)
Fixpoint expressionList (n : nat) (closing : TokenType) (acc : list Expr)
  : P (list Expr) :=
  match n with
  | O => outOfFuel
  | S n' =>
      let* e := parseExpression in
      let acc' := acc ++ [e] in
      let* comma := match_ COMMA in
      if comma then
        let* closed := check closing in
        if closed then ret acc' else expressionList n' closing acc'
      else ret acc'
  end.

Definition parseArguments : P (list Expr) :=
  let* closed := check RPAREN in
  let* arguments := if closed then ret [] else expressionList fuel RPAREN [] in
  let* m := match_ RPAREN in
  if m then ret arguments
  else throw "Expected ')' after function arguments".

Definition parseSequence : P Expr :=
  let* closed := check RBRACKET in
  let* elements := if closed then ret [] else expressionList fuel RBRACKET [] in
  let* m := match_ RBRACKET in
  if m then ret (SequenceExpr elements)
  else throw "Expected ']' after sequence elements".

Definition parsePrimary : P Expr :=
  let* m := match_ TRUE in
  if m then let* t := previous in ret (LiteralExpr t) else
  let* m := match_ FALSE in
  if m then let* t := previous in ret (LiteralExpr t) else
  let* m := matchAny [NUMBER; FLOAT; STRING] in
  if m then let* t := previous in ret (LiteralExpr t) else
  let* m := match_ IDENTIFIER in
  if m then
    let* name := previous in
    let* call := match_ LPAREN in
    if call then
      let* arguments := parseArguments in
      ret (CallExpr name arguments)
    else
      let* index := match_ LBRACKET in
      if index then
        let* i := parseExpression in
        consume RBRACKET "Expected ']' after index" ;;
        ret (CallExpr (mkToken IDENTIFIER "get" (line name) (column name))
               [VariableExpr name; i])
      else ret (VariableExpr name)
  else
  let* m := match_ LPAREN in
  if m then
    let* e := parseExpression in
    consume RPAREN "Expected ')' after expression" ;;
    ret e
  else
  let* m := match_ LBRACKET in
  if m then parseSequence
  else throw "Expected expression".

Fixpoint parseUnary (n : nat) : P Expr :=
  match n with
  | O => outOfFuel
  | S n' =>
      let* m := matchAny [MINUS; NOT] in
      if m then
        let* o := previous in
        let* operand := parseUnary n' in
        ret (UnaryExpr o operand)
      else parsePrimary
  end.

(** [while (match(ops)) { op = previous(); right = operand();
     expr = BinaryExpr(expr, op, right); }] *)
Fixpoint binaryLoop (n : nat) (ops : list TokenType) (operand : P Expr)
    (expr : Expr) : P Expr :=
  match n with
  | O => outOfFuel
  | S n' =>
      let* m := matchAny ops in
      if m then
        let* o := previous in
        let* rhs := operand in
        binaryLoop n' ops operand (BinaryExpr expr o rhs)
      else ret expr
  end.

Definition parseFactor : P Expr :=
  let* e := parseUnary fuel in
  binaryLoop fuel [MULTIPLY; DIVIDE; MODULO] (parseUnary fuel) e.

Definition parseTerm : P Expr :=
  let* e := parseFactor in binaryLoop fuel [PLUS; MINUS] parseFactor e.

Definition parseComparison : P Expr :=
  let* e := parseTerm in
  binaryLoop fuel [LESS; LESS_EQUAL; GREATER; GREATER_EQUAL] parseTerm e.

Definition parseEquality : P Expr :=
  let* e := parseComparison in
  binaryLoop fuel [EQUALS; NOT_EQUALS] parseComparison e.

Definition parseLogicalAnd : P Expr :=
  let* e := parseEquality in binaryLoop fuel [AND] parseEquality e.

Definition parseLogicalOr : P Expr :=
  let* e := parseLogicalAnd in binaryLoop fuel [OR] parseLogicalAnd e.

(** The body of [parseExpression]. *)
Definition parseExpressionBody : P Expr := parseLogicalOr.

(** *** Statements *)

Fixpoint blockLoop (n : nat) (statements : list Stmt) : P (list Stmt) :=
  match n with
  | O => outOfFuel
  | S n' =>
      let* closing := check RBRACE in
      let* e := isAtEnd in
      if negb closing && negb e then
        let* stmt := parseStatement in
        blockLoop n' (statements ++ [stmt])
      else ret statements
  end.

Definition parseBlock : P (list Stmt) :=
  consume LBRACE "Expected '{' before block" ;;
  let* statements := blockLoop fuel [] in
  consume RBRACE "Expected '}' after block" ;;
  ret statements.

Definition parseDeclaration : P Stmt :=
  let* name := consume IDENTIFIER "Expected variable name" in
  consume COLON "Expected ':' after variable name" ;;
  let* isValidType := checkAny validTypeTokens in
  if negb isValidType then
    let* t := peek in
    throw ("Expected variable type after '" +:+ lexeme name +:+ ":', got: "
           +:+ lexeme t)
  else
    let* typeToken := advance in
    let dataType := tokenToDataType typeToken in
    let* hasInit := match_ ASSIGN in
    let* initializer :=
      if hasInit then let* e := parseExpression in ret (Some e)
      else ret None in
    match_ SEMICOLON ;;
    ret (DeclarationStmt name dataType initializer).

(** Called after the identifier has been consumed. *)
Definition parseAssignment : P Stmt :=
  let* name := previous in
  consume ASSIGN "Expected '=' after variable name" ;;
  let* value := parseExpression in
  match_ SEMICOLON ;;
  ret (AssignmentStmt name value).

Definition parseIfStatement : P Stmt :=
  let* condition := parseExpression in
  let* thenBranch := parseBlock in
  let* hasElse := match_ ELSE in
  let* elseBranch := if hasElse then parseBlock else ret [] in
  ret (IfStmt condition thenBranch elseBranch).

Definition parseWhileStatement : P Stmt :=
  let* condition := parseExpression in
  let* body := parseBlock in
  ret (WhileStmt condition body).

Definition parseReturnStatement : P Stmt :=
  let* semi := check SEMICOLON in
  let* value :=
    if semi then ret None
    else let* e := parseExpression in ret (Some e) in
  match_ SEMICOLON ;;
  ret (ReturnStmt value).

(** The argument loop of [parsePrintStatement]: primary expressions
    are collected until a terminator, another [print], an assignment
    operator or a token that cannot start a primary expression; a
    [ParseError] raised by [parsePrimary] is caught and ends the
    loop, with the tokens it consumed gone. *)
Fixpoint printLoop (n : nat) (arguments : list Expr) : P (list Expr) :=
  match n with
  | O => outOfFuel
  | S n' =>
      let* t := peek in
      if isStatementTerminator (type t) then ret arguments
      else
        fun current =>
          match parsePrimary current with
          | (ParseError _, current') => (Parsed arguments, current')
          | (OutOfFuel, current') => (OutOfFuel, current')
          | (Parsed e, current') =>
              let arguments' := arguments ++ [e] in
              let next := tokenAt current' in
              if isStatementTerminator (type next) then
                (Parsed arguments', current')
              else if TokenType_eqb (type next) IDENTIFIER
                      && String.eqb (lexeme next) "print" then
                (Parsed arguments', current')
              else if TokenType_eqb (type next) ASSIGN then
                (Parsed arguments', current')
              else if negb (isPrimaryStart (type next)) then
                (Parsed arguments', current')
              else printLoop n' arguments' current'
          end
  end.

Definition parsePrintStatement : P Stmt :=
  let* printToken := advance in
  let* arguments := printLoop fuel [] in
  match_ SEMICOLON ;;
  ret (ExpressionStmt (CallExpr printToken arguments)).

Definition parseExpressionStatement : P Stmt :=
  let* e := parseExpression in
  match_ SEMICOLON ;;
  ret (ExpressionStmt e).

(** The body of [parseStatement]. *)
Definition parseStatementBody : P Stmt :=
  let* m := match_ LET in
  if m then parseDeclaration else
  let* m := match_ IF in
  if m then parseIfStatement else
  let* m := match_ WHILE in
  if m then parseWhileStatement else
  let* m := match_ RETURN in
  if m then parseReturnStatement else
  let* t := peek in
  let* isIdent := check IDENTIFIER in
  if isIdent && String.eqb (lexeme t) "print" then parsePrintStatement else
  let* next := peekNext in
  if isIdent && TokenType_eqb (type next) ASSIGN then
    advance ;; parseAssignment
  else
  let* m := match_ LBRACE in
  if m then let* stmts := parseBlock in ret (BlockStmt stmts)
  else parseExpressionStatement.

(** *** Functions and programs *)

Fixpoint parameterLoop (n : nat) (parameters : list (Token * DataType))
  : P (list (Token * DataType)) :=
  match n with
  | O => outOfFuel
  | S n' =>
      let* isName := check IDENTIFIER in
      if negb isName then
        let* t := peek in
        throw ("Expected parameter name, got: " +:+ lexeme t)
      else
        let* name := advance in
        let* colon := match_ COLON in
        if negb colon then
          throw ("Expected ':' after parameter name '" +:+ lexeme name +:+ "'")
        else
          let* isValidType := checkAny validTypeTokens in
          if negb isValidType then
            let* t := peek in
            throw ("Expected parameter type after '" +:+ lexeme name
                   +:+ ":', got: " +:+ lexeme t)
          else
            let* typeToken := advance in
            let dataType := tokenToDataType typeToken in
            if bool_decide (dataType = DT_UNKNOWN) then
              throw ("Unknown parameter type: '" +:+ lexeme typeToken +:+ "'")
            else
              let parameters' := parameters ++ [(name, dataType)] in
              let* comma := match_ COMMA in
              if comma then parameterLoop n' parameters'
              else ret parameters'
  end.

Definition parseParameters : P (list (Token * DataType)) :=
  let* closed := check RPAREN in
  if closed then ret [] else parameterLoop fuel [].

Definition parseFunction : P FunctionDecl :=
  let* name := consume IDENTIFIER "Expected function name" in
  consume LPAREN "Expected '(' after function name" ;;
  let* parameters := parseParameters in
  consume RPAREN "Expected ')' after parameters" ;;
  consume ARROW "Expected '->' after function parameters" ;;
  let* isValidType := checkAny validTypeTokens in
  if negb isValidType then
    let* t := peek in
    throw ("Expected return type, got: " +:+ lexeme t)
  else
    let* returnTypeToken := advance in
    let returnType := tokenToDataType returnTypeToken in
    let* body := parseBlock in
    ret (mkFunctionDecl name parameters returnType body).

Fixpoint programLoop (n : nat) (functions : list FunctionDecl)
  : P (list FunctionDecl) :=
  match n with
  | O => outOfFuel
  | S n' =>
      let* e := isAtEnd in
      if e then ret functions
      else
        let* m := match_ FUNC in
        if m then
          let* func := parseFunction in
          programLoop n' (functions ++ [func])
        else throw "Expected function declaration"
  end.

Definition parseProgramBody : P Program :=
  let* functions := programLoop fuel [] in
  ret (mkProgram functions).
End Bodies.

(** ** Tying the knot *)

Fixpoint parseExpression (fuel : nat) {struct fuel} : P Expr :=
  match fuel with
  | O => outOfFuel
  | S fuel' => parseExpressionBody fuel' (parseExpression fuel')
  end.

Fixpoint parseStatement (fuel : nat) {struct fuel} : P Stmt :=
  match fuel with
  | O => outOfFuel
  | S fuel' =>
      parseStatementBody fuel' (parseExpression fuel') (parseStatement fuel')
  end.

Definition parseProgram (fuel : nat) : P Program :=
  parseProgramBody fuel (parseStatement fuel).
End Grammar.

(** [movesForward tokens m]: [m] leaves the index where it is or further
    on, and inside the token vector (at most one past its last token) when
    it started there. *)
Definition movesForward (tokens : list Token) {A} (m : P A) : Prop :=
  forall current o current',
    m current = (o, current') ->
    (current <= current')%nat /\
    ((current <= length tokens)%nat -> (current' <= length tokens)%nat).

(** [Parser(tokens).parse()]: the program, or the message of the
    [ParseError] that the C++ function reports before returning a null
    pointer. *)
Definition parse (fuel : nat) (tokens : list Token) : outcome Program :=
  fst (parseProgram tokens fuel 0%nat).

End Parser.

(* ===================================================================== *)
(** * Sample programs *)
(* ===================================================================== *)

(** Source texts used as concrete inputs, with the three-address code
    generated for them. *)
Module Samples.
Import Optimizer.

(** The lexer, the parser and the code generator in a row.  (The driver
    also prints diagnostics in between; they are not represented.) *)
Definition compile (fuel : nat) (source : string)
  : Parser.outcome (list ThreeAddressCode) :=
  match Parser.parse fuel (Lexer.tokenize source) with
  | Parser.Parsed p => Parser.Parsed (CodeGenerator.generate p)
  | Parser.ParseError w => Parser.ParseError w
  | Parser.OutOfFuel => Parser.OutOfFuel
  end.

(** A constant that reaches an addition only through propagation. *)
Definition sum_source : string :=
  "func main() -> int { let x: int = 5; let y: int = x + 3; return 0; }".

Definition sum_code : list ThreeAddressCode :=
  [ TAC "LABEL" "" "" "main" 1;
    TAC "ASSIGN" "5" "" "x" 1;
    TAC "+" "x" "3" "t0" 1;
    TAC "ASSIGN" "t0" "" "y" 1;
    TAC "RETURN" "0" "" "" (-1) ].

Definition sum_optimized_once : list ThreeAddressCode :=
  [ TAC "LABEL" "" "" "main" 1;
    TAC "ASSIGN" "5" "" "x" 1;
    TAC "+" "5" "3" "t0" 1;
    TAC "ASSIGN" "t0" "" "y" 1;
    TAC "RETURN" "0" "" "" (-1) ].

Definition sum_optimized_twice : list ThreeAddressCode :=
  [ TAC "LABEL" "" "" "main" 1;
    TAC "ASSIGN" "5" "" "x" 1;
    TAC "ASSIGN" "8" "" "y" 1;
    TAC "RETURN" "0" "" "" (-1) ].

(** A user variable whose name begins with [t] and that is never read. *)
Definition total_source : string :=
  "func main() -> int { let total: int = 5; return 0; }".

Definition total_assign : ThreeAddressCode := TAC "ASSIGN" "5" "" "total" 1.

Definition total_code : list ThreeAddressCode :=
  [ TAC "LABEL" "" "" "main" 1; total_assign; TAC "RETURN" "0" "" "" (-1) ].

(** A variable that holds a constant and is then overwritten with a value
    read at run time. *)
Definition overwrite_source : string :=
  "func main() -> int { let y: int = input(); let x: int = 5; x = y; let z: int = x + 1; return z; }".

Definition overwrite_code : list ThreeAddressCode :=
  [ TAC "LABEL" "" "" "main" 1;
    TAC "CALL" "input" "" "t0" 1;
    TAC "ASSIGN" "t0" "" "y" 1;
    TAC "ASSIGN" "5" "" "x" 1;
    TAC "ASSIGN" "y" "" "x" 1;
    TAC "+" "x" "1" "t1" 1;
    TAC "ASSIGN" "t1" "" "z" 1;
    TAC "RETURN" "z" "" "" (-1) ].

Definition overwrite_propagated : list ThreeAddressCode :=
  [ TAC "LABEL" "" "" "main" 1;
    TAC "CALL" "input" "" "t0" 1;
    TAC "ASSIGN" "t0" "" "y" 1;
    TAC "ASSIGN" "5" "" "x" 1;
    TAC "ASSIGN" "y" "" "x" 1;
    TAC "+" "5" "1" "t1" 1;
    TAC "ASSIGN" "t1" "" "z" 1;
    TAC "RETURN" "z" "" "" (-1) ].

(** A division by zero whose dividend does not fit an [int]. *)
Definition wide_source : string :=
  "func main() -> int { let x: int = 99999999999 / 0; return 0; }".

Definition wide_division : ThreeAddressCode := TAC "/" "99999999999" "0" "t0" 1.

Definition wide_code : list ThreeAddressCode :=
  [ TAC "LABEL" "" "" "main" 1;
    wide_division;
    TAC "ASSIGN" "t0" "" "x" 1;
    TAC "RETURN" "0" "" "" (-1) ].

(** A loop. *)
Definition while_source : string :=
  "func main() -> int { let i: int = 0; while i < 3 { i = i + 1; } return i; }".

Definition while_code : list ThreeAddressCode :=
  [ TAC "LABEL" "" "" "main" 1;
    TAC "ASSIGN" "0" "" "i" 1;
    TAC "GOTO" "" "" "L1" 1;
    TAC "LABEL" "" "" "L0" 1;
    TAC "+" "i" "1" "t0" 1;
    TAC "ASSIGN" "t0" "" "i" 1;
    TAC "LABEL" "" "" "L1" 1;
    TAC "<" "i" "3" "t1" 1;
    TAC "IF" "t1" "" "L0" 1;
    TAC "LABEL" "" "" "L2" 1;
    TAC "RETURN" "i" "" "" (-1) ].

(** Programs for the interpreter. *)
Definition main_with_parameter_source : string :=
  "func main(x: int) -> int { print 1; return 0; }".

Definition division_source : string :=
  "func main() -> int { let a: int = 1 / 0; let b: float = 1.5 / 0; print a b; return 0; }".

Definition modulo_source : string :=
  "func main() -> int { print 1; let a: int = 1 % 0; print 2; return 0; }".

Definition scenarioA_source : string :=
  "func main() -> int { let x: int = 2 + 3 * 4; print x; return x; }".

Definition scenarioB_source : string :=
  "func main() -> int { let s: sequence = [1,2,3]; print length(s); return 0; }".

Definition scenarioC_source : string :=
  "func main() -> int { print 1==1; return 0; }".

Definition scenarioC_parenthesised_source : string :=
  "func main() -> int { print (1==1); return 0; }".

Definition scenarioD_source : string :=
  "func main() -> int { let s: sequence = [1,2]; print get(s, 5); return 0; }".

(** The lexer, the parser and the interpreter in a row. *)
Definition interpret (fuel : nat) (source : string) (input : list string)
  : Parser.outcome (option Interpreter.ExecutionResult) :=
  match Parser.parse fuel (Lexer.tokenize source) with
  | Parser.Parsed p => Parser.Parsed (Interpreter.run fuel (Some p) input)
  | Parser.ParseError w => Parser.ParseError w
  | Parser.OutOfFuel => Parser.OutOfFuel
  end.

End Samples.

(* ===================================================================== *)
(** * Properties of the optimizer *)
(* ===================================================================== *)

Section OptimizerFacts.
Import Cxx Optimizer.

(** ** Decimal printing produces digits *)

Lemma pretty_N_char_isdigit x : isdigit (pretty_N_char x) = true.
Proof. unfold pretty_N_char. repeat case_match; reflexivity. Qed.

Lemma pretty_N_go_all_digits x s :
  all_digits s = true -> all_digits (pretty_N_go x s) = true.
Proof.
  revert s. induction (N.lt_wf_0 x) as [x _ IH]. intros s Hs.
  destruct (decide (0 < x)%N) as [Hpos | Hzero].
  - rewrite pretty_N_go_step by exact Hpos.
    apply IH.
    + apply N.div_lt; [exact Hpos | reflexivity].
    + simpl. rewrite pretty_N_char_isdigit. exact Hs.
  - assert (x = 0%N) as -> by lia. exact Hs.
Qed.

Lemma to_string_pos_all_digits (p : positive) :
  all_digits (to_string (Z.pos p)) = true.
Proof.
  unfold to_string, pretty, pretty_Z, pretty, pretty_positive, pretty, pretty_N.
  case_decide; [reflexivity |]. apply pretty_N_go_all_digits. reflexivity.
Qed.

(** No generated temporary is spelled [total]. *)
Lemma total_not_generated (n : Z) : "total" <> "t" +:+ to_string n.
Proof.
  intros H. injection H as H.
  destruct n as [| p | p].
  - discriminate H.
  - pose proof (to_string_pos_all_digits p) as Hd.
    change ("otal" = to_string (Z.pos p)) in H. rewrite <- H in Hd.
    discriminate Hd.
  - discriminate H.
Qed.

(** ** The monadic map *)

Lemma mapM_lookup {A B} (f : A -> res B) (l : list A) (l' : list B) k x :
  mapM f l = Ok l' -> l !! k = Some x ->
  exists y, f x = Ok y /\ l' !! k = Some y.
Proof.
  revert l' k. induction l as [| a l IH]; intros l' k Hm Hk.
  - destruct k; discriminate Hk.
  - simpl in Hm. destruct (f a) as [b |] eqn:Hfa; [| discriminate Hm].
    simpl in Hm. destruct (mapM f l) as [bs |] eqn:Hl; [| discriminate Hm].
    injection Hm as <-.
    destruct k as [| k]; simpl in Hk.
    + injection Hk as ->. exists b. split; [exact Hfa | reflexivity].
    + apply (IH bs k eq_refl Hk).
Qed.

Lemma mapM_fixed {A} (f : A -> res A) (l : list A) :
  Forall (fun x => f x = Ok x) l -> mapM f l = Ok l.
Proof.
  induction 1 as [| x l Hx _ IH]; [reflexivity |].
  simpl. rewrite Hx. simpl. rewrite IH. reflexivity.
Qed.

Lemma mapM_Forall {A B} (f : A -> res B) (P : B -> Prop) (l : list A) l' :
  (forall x y, f x = Ok y -> P y) -> mapM f l = Ok l' -> Forall P l'.
Proof.
  intros HP. revert l'. induction l as [| a l IH]; intros l' Hm.
  - injection Hm as <-. constructor.
  - simpl in Hm. destruct (f a) as [b |] eqn:Hfa; [| discriminate Hm].
    simpl in Hm. destruct (mapM f l) as [bs |] eqn:Hl; [| discriminate Hm].
    injection Hm as <-. constructor; [eapply HP; eassumption | apply IH; reflexivity].
Qed.

(** ** Constant folding *)

Lemma foldInstr_fixed i i' : foldInstr i = Ok i' -> foldInstr i' = Ok i'.
Proof.
  unfold foldInstr.
  destruct (isArithOp (op i) && isConstant (arg1 i) && isConstant (arg2 i)) eqn:Hc.
  - destruct (evaluateConstant (op i) (arg1 i) (arg2 i)) as [r |]; simpl;
      [| discriminate].
    intros [= <-]. reflexivity.
  - intros [= <-]. rewrite Hc. reflexivity.
Qed.

Lemma constantFolding_idempotent c c1 :
  constantFolding c = Ok c1 -> constantFolding c1 = Ok c1.
Proof.
  intros H. apply mapM_fixed.
  eapply mapM_Forall; [| exact H]. intros x y. apply foldInstr_fixed.
Qed.

(** ** Constant propagation: what one instruction does to the map *)

Lemma substituteOperands_op m i : op (substituteOperands m i) = op i.
Proof.
  unfold substituteOperands.
  destruct (m !! arg1 i); simpl; destruct (m !! _); reflexivity.
Qed.

Lemma substituteOperands_result m i :
  result (substituteOperands m i) = result i.
Proof.
  unfold substituteOperands.
  destruct (m !! arg1 i); simpl; destruct (m !! _); reflexivity.
Qed.

(** An Assign whose source is a constant enters the map. *)
Lemma propagateInstr_assign_constant m i :
  op i = "ASSIGN" -> isConstant (arg1 (substituteOperands m i)) = true ->
  snd (propagateInstr m i) !! result i = Some (arg1 (substituteOperands m i)).
Proof.
  intros Hop Hc. unfold propagateInstr.
  rewrite substituteOperands_op, Hop, Hc, substituteOperands_result. simpl.
  apply lookup_insert_eq.
Qed.

(** An instruction other than an Assign removes its result name. *)
Lemma propagateInstr_other_op m i :
  op i <> "ASSIGN" -> snd (propagateInstr m i) !! result i = None.
Proof.
  intros Hop. unfold propagateInstr.
  rewrite substituteOperands_op, substituteOperands_result.
  destruct (String.eqb_spec (op i) "ASSIGN") as [E | _]; [contradiction |].
  simpl. apply lookup_delete_eq.
Qed.

(** An Assign whose source is not a constant leaves the map as it is: a
    constant recorded for its destination stays. *)
Lemma propagateInstr_assign_nonconstant m i :
  op i = "ASSIGN" -> isConstant (arg1 (substituteOperands m i)) = false ->
  snd (propagateInstr m i) = m.
Proof.
  intros Hop Hc. unfold propagateInstr.
  rewrite substituteOperands_op, Hop, Hc. reflexivity.
Qed.

(** ** Algebraic simplification *)

Lemma simplifyInstr_fixed i : simplifyInstr (simplifyInstr i) = simplifyInstr i.
Proof.
  unfold simplifyInstr at 2 3.
  repeat (match goal with
          | |- context [if ?b then _ else _] => destruct b eqn:?
          end; [reflexivity |]).
  unfold simplifyInstr.
  repeat match goal with H : _ = false |- _ => rewrite H; clear H end.
  reflexivity.
Qed.

Lemma algebraicSimplification_idempotent c :
  algebraicSimplification (algebraicSimplification c) = algebraicSimplification c.
Proof.
  unfold algebraicSimplification. rewrite map_map.
  apply map_ext. intros i. apply simplifyInstr_fixed.
Qed.

(** ** Redundant-assignment removal *)

Lemma removeRedundantFrom_filter m c :
  removeRedundantFrom m c = List.filter (fun i => negb (isRedundant i)) c.
Proof.
  revert m. induction c as [| i c IH]; intros m; [reflexivity |].
  simpl. unfold isRedundant.
  destruct (String.eqb (op i) "ASSIGN"); simpl.
  - destruct (String.eqb (arg1 i) (result i)); simpl; rewrite IH; reflexivity.
  - rewrite IH. reflexivity.
Qed.

Lemma filter_fixed {A} (p : A -> bool) (l : list A) :
  Forall (fun x => p x = true) l -> List.filter p l = l.
Proof.
  induction 1 as [| x l Hx _ IH]; [reflexivity |].
  simpl. rewrite Hx, IH. reflexivity.
Qed.

Lemma filter_Forall_true {A} (p : A -> bool) (l : list A) :
  Forall (fun x => p x = true) (List.filter p l).
Proof. apply List.Forall_forall. intros x Hx. apply filter_In in Hx. apply Hx. Qed.

Lemma Forall_filter_sub {A} (P : A -> Prop) (q : A -> bool) (l : list A) :
  Forall P l -> Forall P (List.filter q l).
Proof.
  rewrite !List.Forall_forall. intros H x Hx. apply filter_In in Hx. apply H, Hx.
Qed.

Lemma removeRedundantAssignments_idempotent c :
  removeRedundantAssignments (removeRedundantAssignments c)
  = removeRedundantAssignments c.
Proof.
  unfold removeRedundantAssignments. rewrite !removeRedundantFrom_filter.
  apply filter_fixed, filter_Forall_true.
Qed.

(** ** An optimized list is stable under passes 3 and 4 *)

Lemma map_fixed {A} (f : A -> A) (l : list A) :
  Forall (fun x => f x = x) l -> map f l = l.
Proof.
  induction 1 as [| x l Hx _ IH]; [reflexivity |].
  simpl. rewrite Hx, IH. reflexivity.
Qed.

Lemma optimize_output_simplified c c1 :
  optimize c = Ok c1 -> algebraicSimplification c1 = c1.
Proof.
  unfold optimize. destruct (constantFolding c) as [c0 |]; simpl; [| discriminate].
  intros [= <-]. unfold algebraicSimplification at 1. apply map_fixed.
  unfold deadCodeElimination. apply Forall_filter_sub.
  unfold removeRedundantAssignments. rewrite removeRedundantFrom_filter.
  apply Forall_filter_sub.
  unfold algebraicSimplification. apply List.Forall_forall. intros i Hi.
  apply in_map_iff in Hi as [j [<- _]]. apply simplifyInstr_fixed.
Qed.

Lemma optimize_output_irredundant c c1 :
  optimize c = Ok c1 -> removeRedundantAssignments c1 = c1.
Proof.
  unfold optimize. destruct (constantFolding c) as [c0 |]; simpl; [| discriminate].
  intros [= <-]. unfold removeRedundantAssignments at 1.
  rewrite removeRedundantFrom_filter. apply filter_fixed.
  unfold deadCodeElimination. apply Forall_filter_sub.
  unfold removeRedundantAssignments. rewrite removeRedundantFrom_filter.
  apply filter_Forall_true.
Qed.

End OptimizerFacts.
(* ===================================================================== *)
(** * Printed integers *)
(* ===================================================================== *)

Section PrintedIntegers.
Import Cxx Optimizer.

(** ** Reading back a printed integer *)

Lemma pretty_N_char_digit_value x :
  (x < 10)%N -> digit_value (pretty_N_char x) = Z.of_N x.
Proof.
  intros H. destruct x as [| p]; [reflexivity |].
  do 4 (destruct p as [p | p |]; try reflexivity; try lia).
Qed.

Lemma read_digits_pretty_N_go x s :
  exists k : nat, (x <> 0%N -> k <> 0%nat) /\
    forall acc n, read_digits (pretty_N_go x s) acc n
                  = read_digits s (acc * 10 ^ Z.of_nat k + Z.of_N x) (n + k).
Proof.
  revert s. induction (N.lt_wf_0 x) as [x _ IH]. intros s.
  destruct (decide (0 < x)%N) as [Hpos | Hzero].
  - rewrite pretty_N_go_step by exact Hpos.
    destruct (IH (x `div` 10)%N
                (N.div_lt x 10 Hpos eq_refl)
                (String (pretty_N_char (x `mod` 10)) s)) as [k [_ Hk]].
    exists (S k). split; [discriminate |].
    intros acc n. rewrite Hk. simpl read_digits.
    rewrite pretty_N_char_isdigit.
    rewrite pretty_N_char_digit_value by (apply N.mod_lt; discriminate).
    f_equal; [| lia].
    rewrite Nat2Z.inj_succ, Z.pow_succ_r by lia.
    pose proof (N.div_mod x 10 ltac:(discriminate)) as Hdm.
    rewrite N2Z.inj_mod. rewrite N2Z.inj_div.
    pose proof (Z.div_mod (Z.of_N x) 10 ltac:(discriminate)) as Hz.
    change (Z.of_N 10) with 10. lia.
  - assert (x = 0%N) as -> by lia. rewrite pretty_N_go_0.
    exists 0%nat. split; [congruence |]. intros acc n.
    f_equal; [simpl; lia | lia].
Qed.

Lemma pretty_positive_digit_led (p : positive) :
  exists c r, pretty (N.pos p) = String c r /\ isdigit c = true.
Proof.
  pose proof (to_string_pos_all_digits p) as Hd.
  unfold to_string, pretty at 1, pretty_Z, pretty at 1, pretty_positive in Hd.
  destruct (read_digits_pretty_N_go (N.pos p) "") as [k [Hk Hr]].
  specialize (Hr 0 0%nat).
  unfold pretty at 1 in Hd. unfold pretty at 1. unfold pretty_N in *.
  case_decide; [discriminate |].
  destruct (pretty_N_go (N.pos p) "") as [| c r] eqn:Hs.
  - simpl in Hr. injection Hr as _ Hz. specialize (Hk ltac:(discriminate)). lia.
  - exists c, r. split; [reflexivity |].
    simpl in Hd. apply andb_true_iff in Hd. apply Hd.
Qed.

Lemma read_digits_pretty_positive (p : positive) :
  exists k, k <> 0%nat /\
    read_digits (pretty (N.pos p)) 0 0 = (Z.pos p, k, "").
Proof.
  destruct (read_digits_pretty_N_go (N.pos p) "") as [k [Hk Hr]].
  exists k. split; [apply Hk; discriminate |].
  unfold pretty, pretty_N. case_decide; [discriminate |].
  rewrite Hr. simpl. reflexivity.
Qed.

Lemma isdigit_not_space c : isdigit c = true -> isspace c = false.
Proof. destruct c as [[] [] [] [] [] [] [] []]; try discriminate; reflexivity. Qed.

(** The scan of a text whose first character is a digit. *)
Lemma scan_integer_digit_led c r :
  isdigit c = true ->
  scan_integer (String c r)
  = let '(v, n, _) := read_digits (String c r) 0 0 in
    match n with O => None | _ => Some (v, n) end.
Proof.
  intros Hc. unfold scan_integer.
  assert (skip_space (String c r) = String c r) as ->
    by (simpl; rewrite (isdigit_not_space c Hc); reflexivity).
  rewrite Nat.sub_diag.
  assert ((match String c r with
           | String "-" rest => (true, 1%nat, rest)
           | String "+" rest => (false, 1%nat, rest)
           | _ => (false, 0%nat, String c r)
           end) = (false, 0%nat, String c r)) as ->.
  { destruct c as [[] [] [] [] [] [] [] []]; try discriminate Hc; reflexivity. }
  destruct (read_digits (String c r) 0 0) as [[v n] rest].
  destruct n; reflexivity.
Qed.

(** The scan of a text whose first character is a minus sign. *)
Lemma scan_integer_minus body :
  scan_integer (String "-" body)
  = let '(v, n, _) := read_digits body 0 0 in
    match n with O => None | _ => Some (- v, S n) end.
Proof.
  unfold scan_integer.
  change (skip_space (String "-" body)) with (String "-" body).
  rewrite Nat.sub_diag.
  destruct (read_digits body 0 0) as [[v n] rest].
  destruct n; reflexivity.
Qed.

Lemma scan_integer_plus body :
  scan_integer (String "+" body)
  = let '(v, n, _) := read_digits body 0 0 in
    match n with O => None | _ => Some (v, S n) end.
Proof.
  unfold scan_integer.
  change (skip_space (String "+" body)) with (String "+" body).
  rewrite Nat.sub_diag.
  destruct (read_digits body 0 0) as [[v n] rest].
  destruct n; reflexivity.
Qed.

Lemma scan_integer_to_string (z : Z) :
  exists n, scan_integer (to_string z) = Some (z, n).
Proof.
  destruct z as [| p | p].
  - exists 1%nat. reflexivity.
  - change (to_string (Z.pos p)) with (pretty (N.pos p)).
    destruct (pretty_positive_digit_led p) as [c [r [Hs Hc]]].
    destruct (read_digits_pretty_positive p) as [k [Hk Hr]].
    rewrite Hs in *. rewrite (scan_integer_digit_led c r Hc), Hr.
    exists k. destruct k; [contradiction | reflexivity].
  - change (to_string (Z.neg p)) with (String "-" (pretty (N.pos p))).
    destruct (read_digits_pretty_positive p) as [k [Hk Hr]].
    rewrite scan_integer_minus, Hr.
    exists (S k). destruct k; [contradiction | reflexivity].
Qed.

Lemma wrap_int_in_range z : INT_MIN <= z <= INT_MAX -> wrap_int z = z.
Proof.
  unfold wrap_int, wrap, INT_MIN, INT_MAX. intros H.
  rewrite Z.mod_small; lia.
Qed.

Lemma wrap_int_range z : INT_MIN <= wrap_int z <= INT_MAX.
Proof.
  unfold wrap_int, wrap, INT_MIN, INT_MAX.
  pose proof (Z.mod_pos_bound (z + 2 ^ (32 - 1)) (2 ^ 32) ltac:(lia)). lia.
Qed.


(** Different integers are printed differently. *)
Lemma to_string_inj (a b : Z) : to_string a = to_string b -> a = b.
Proof.
  intros H. destruct (scan_integer_to_string a) as [n Ha].
  destruct (scan_integer_to_string b) as [m Hb].
  rewrite H, Hb in Ha. injection Ha as <- _. reflexivity.
Qed.

(** Three successive values of an [int] counter are pairwise different,
    also across the wrap-around. *)
Lemma wrap_int_successors (n : Z) :
  INT_MIN <= n <= INT_MAX ->
  n <> wrap_int (n + 1) /\
  wrap_int (n + 1) <> wrap_int (wrap_int (n + 1) + 1) /\
  n <> wrap_int (wrap_int (n + 1) + 1).
Proof.
  intros Hn.
  destruct (Z.eq_dec n INT_MAX) as [-> | H1]; [vm_compute; repeat split; discriminate |].
  destruct (Z.eq_dec n (INT_MAX - 1)) as [-> | H2];
    [vm_compute; repeat split; discriminate |].
  assert (INT_MIN <= n + 1 <= INT_MAX) as Ha by (unfold INT_MIN, INT_MAX in *; lia).
  assert (INT_MIN <= n + 1 + 1 <= INT_MAX) as Hb by (unfold INT_MIN, INT_MAX in *; lia).
  rewrite (wrap_int_in_range (n + 1) Ha), (wrap_int_in_range (n + 1 + 1) Hb).
  repeat split; lia.
Qed.

End PrintedIntegers.
(* ===================================================================== *)
(** * Properties of the code generator *)
(* ===================================================================== *)

(** ** The generator only appends to the instruction list *)

Section CodeGeneratorFacts.
Import Cxx Tokens Ast Optimizer CodeGenerator.

Lemma extends_refl st : extends st st.
Proof. exists []. symmetry. apply app_nil_r. Qed.

Lemma extends_trans st1 st2 st3 :
  extends st1 st2 -> extends st2 st3 -> extends st1 st3.
Proof.
  intros [d1 H1] [d2 H2]. exists (d1 ++ d2).
  rewrite H2, H1. symmetry. apply app_assoc.
Qed.

Lemma extends_emit i st : extends st (emit i st).
Proof. exists [i]. reflexivity. Qed.

Lemma extends_newTemp st : extends st (snd (newTemp st)).
Proof. exists []. symmetry. apply app_nil_r. Qed.

Lemma extends_newLabel st : extends st (snd (newLabel st)).
Proof. exists []. symmetry. apply app_nil_r. Qed.

Lemma extends_emitted st st' :
  extends st st' ->
  intermediateCode st' = intermediateCode st ++ emittedBetween st st'.
Proof.
  intros [d Hd]. unfold emittedBetween. rewrite Hd.
  rewrite drop_app_length. reflexivity.
Qed.

Lemma extends_same_code st st1 st2 :
  extends st st1 -> intermediateCode st2 = intermediateCode st1 ->
  extends st st2.
Proof. intros [d Hd] H. exists d. rewrite H. exact Hd. Qed.

Lemma extends_then_emit st st1 st2 i :
  extends st st1 -> intermediateCode st2 = intermediateCode st1 ->
  extends st (emit i st2).
Proof.
  intros H1 H2. eapply extends_trans; [| apply extends_emit].
  eapply extends_same_code; eassumption.
Qed.

Lemma generateArgumentsWith_extends gen ln l :
  Forall (fun e => forall st, extends st (snd (gen e st))) l ->
  forall args st, extends st (snd (generateArgumentsWith gen ln l args st)).
Proof.
  induction 1 as [| e l He _ IH]; intros args st; simpl.
  - apply extends_refl.
  - specialize (He st). destruct (gen e st) as [arg st1]. simpl in He.
    eapply extends_trans; [| apply IH].
    eapply extends_then_emit; [exact He | reflexivity].
Qed.

Lemma generateElementsWith_extends gen r ln l :
  Forall (fun e => forall st, extends st (snd (gen e st))) l ->
  forall i st, extends st (generateElementsWith gen r ln l i st).
Proof.
  induction 1 as [| e l He _ IH]; intros i st; simpl.
  - apply extends_refl.
  - specialize (He st). destruct (gen e st) as [elt st1]. simpl in He.
    eapply extends_trans; [| apply IH].
    eapply extends_then_emit; [exact He | reflexivity].
Qed.

Lemma generateExpression_extends e :
  forall st, extends st (snd (generateExpression e st)).
Proof.
  induction e as [l o r IHl IHr | o r IHr | v | n | c args IH | elts IH]
    using Expr_nested_ind; intros st; simpl.
  - specialize (IHl st). destruct (generateExpression l st) as [lhs st1].
    specialize (IHr st1). destruct (generateExpression r st1) as [rhs st2].
    simpl in *.
    eapply extends_then_emit; [| reflexivity].
    eapply extends_trans; eassumption.
  - specialize (IHr st). destruct (generateExpression r st) as [e st1].
    simpl in *. eapply extends_then_emit; [exact IHr | reflexivity].
  - apply extends_refl.
  - apply extends_refl.
  - pose proof (generateArgumentsWith_extends generateExpression
                  (Tokens.line c) args IH ""
                  (snd (newTemp st))) as H.
    simpl in H.
    destruct (generateArgumentsWith _ _ _ _ _) as [a st2]. simpl in *.
    eapply extends_then_emit; [| reflexivity].
    eapply extends_trans; [| exact H]. apply extends_newTemp.
  - eapply extends_trans; [| apply generateElementsWith_extends; exact IH].
    eapply extends_then_emit; [apply extends_refl | reflexivity].
Qed.

Lemma generateStatementsWith_extends gen l :
  Forall (fun s => forall st, extends st (gen s st)) l ->
  forall st, extends st (generateStatementsWith gen l st).
Proof.
  induction 1 as [| s l Hs _ IH]; intros st; simpl.
  - apply extends_refl.
  - eapply extends_trans; [apply Hs | apply IH].
Qed.

Lemma generateStatement_extends s :
  forall st, extends st (generateStatement s st).
Proof.
  induction s as [n t i | n v | c t e IHt IHe | c b IHb | v | e | l _]
    using Stmt_nested_ind; intros st; simpl.
  - unfold generateDeclaration. destruct i as [init |]; [| apply extends_refl].
    pose proof (generateExpression_extends init st) as H.
    destruct (generateExpression init st) as [value st1]. simpl in H.
    eapply extends_then_emit; [exact H | reflexivity].
  - unfold generateAssignment.
    pose proof (generateExpression_extends v st) as H.
    destruct (generateExpression v st) as [value st1]. simpl in H.
    eapply extends_then_emit; [exact H | reflexivity].
  - pose proof (generateExpression_extends c st) as H.
    destruct (generateExpression c st) as [cond st1]. simpl in *.
    eapply extends_then_emit; [| reflexivity].
    eapply extends_trans;
      [| apply (generateStatementsWith_extends _ _ IHe)].
    eapply extends_then_emit; [| reflexivity].
    eapply extends_then_emit; [| reflexivity].
    eapply extends_trans;
      [| apply (generateStatementsWith_extends _ _ IHt)].
    eapply extends_then_emit; [exact H | reflexivity].
  - match goal with
    | |- context [generateExpression c ?s] =>
        pose proof (generateExpression_extends c s) as H;
        destruct (generateExpression c s) as [cond st8]
    end.
    simpl in *.
    eapply extends_then_emit; [| reflexivity].
    eapply extends_then_emit; [| reflexivity].
    eapply extends_trans; [| exact H].
    eapply extends_then_emit; [| reflexivity].
    eapply extends_trans;
      [| apply (generateStatementsWith_extends _ _ IHb)].
    eapply extends_then_emit; [| reflexivity].
    eapply extends_then_emit; [apply extends_refl | reflexivity].
  - unfold generateReturnStatement. destruct v as [e |]; [| apply extends_emit].
    pose proof (generateExpression_extends e st) as H.
    destruct (generateExpression e st) as [value st1]. simpl in H.
    eapply extends_then_emit; [exact H | reflexivity].
  - apply generateExpression_extends.
  - apply extends_refl.
Qed.

Lemma generateStatements_extends l :
  forall st, extends st (generateStatements l st).
Proof.
  apply generateStatementsWith_extends.
  apply List.Forall_forall. intros s _. apply generateStatement_extends.
Qed.

End CodeGeneratorFacts.
(* ===================================================================== *)
(** * Labels and the statement loop *)
(* ===================================================================== *)

Section CodeGeneratorLabels.
Import Cxx Tokens Ast Optimizer CodeGenerator.

(** The statement loop lowers the statements one after another. *)
Lemma generateStatementsWith_fold gen l st :
  generateStatementsWith gen l st = fold_left (fun s stmt => gen stmt s) l st.
Proof. revert st. induction l as [| x l IH]; intros st; simpl; [reflexivity | apply IH]. Qed.

(** Lowering an expression allocates temporaries only: the label counter
    stays. *)
Lemma generateArgumentsWith_labelCounter gen ln l :
  Forall (fun e => forall st, labelCounter (snd (gen e st)) = labelCounter st) l ->
  forall args st,
    labelCounter (snd (generateArgumentsWith gen ln l args st)) = labelCounter st.
Proof.
  induction 1 as [| e l He _ IH]; intros args st; simpl; [reflexivity |].
  specialize (He st). destruct (gen e st) as [arg st1]. simpl in He.
  rewrite IH. simpl. exact He.
Qed.

Lemma generateElementsWith_labelCounter gen r ln l :
  Forall (fun e => forall st, labelCounter (snd (gen e st)) = labelCounter st) l ->
  forall i st,
    labelCounter (generateElementsWith gen r ln l i st) = labelCounter st.
Proof.
  induction 1 as [| e l He _ IH]; intros i st; simpl; [reflexivity |].
  specialize (He st). destruct (gen e st) as [elt st1]. simpl in He.
  rewrite IH. simpl. exact He.
Qed.

Lemma generateExpression_labelCounter e :
  forall st, labelCounter (snd (generateExpression e st)) = labelCounter st.
Proof.
  induction e as [l o r IHl IHr | o r IHr | v | n | c args IH | elts IH]
    using Expr_nested_ind; intros st; simpl.
  - specialize (IHl st). destruct (generateExpression l st) as [lhs st1].
    specialize (IHr st1). destruct (generateExpression r st1) as [rhs st2].
    simpl in *. congruence.
  - specialize (IHr st). destruct (generateExpression r st) as [e st1].
    simpl in *. exact IHr.
  - reflexivity.
  - reflexivity.
  - pose proof (generateArgumentsWith_labelCounter generateExpression
                  (Tokens.line c) args IH "" (snd (newTemp st))) as H.
    simpl in H.
    destruct (generateArgumentsWith _ _ _ _ _) as [a st2]. simpl in *. exact H.
  - rewrite (generateElementsWith_labelCounter _ _ _ _ IH). reflexivity.
Qed.

(** Labels made from different counter values are different names. *)
Lemma label_inj (a b : Z) :
  "L" +:+ to_string a = "L" +:+ to_string b -> a = b.
Proof. intros H. injection H as H. apply to_string_inj, H. Qed.

End CodeGeneratorLabels.
(* ===================================================================== *)
(** * Properties of the interpreter *)
(* ===================================================================== *)

Section InterpreterFacts.
Import Cxx Ast Interpreter.
Import Tokens (Token, lexeme, type).

(** ** Scopes *)



Lemma assign_total n v st : exists st', assign n v st = (Normal tt, st').
Proof.
  unfold assign. destruct (assignIn n v (scopes st)); eexists; reflexivity.
Qed.


Lemma defineIn_innermost n v sc :
  exists frame outer,
    defineIn n v sc = frame :: outer /\ frame !! n = Some v /\ outer = tail sc.
Proof.
  destruct sc as [| f o]; simpl; eexists; eexists;
    (split; [reflexivity | split; [apply lookup_insert_eq | reflexivity]]).
Qed.

(** ** The function table *)

Lemma functionTable_absent (fs : list FunctionDecl) (n : string)
    (m : gmap string FunctionDecl) :
  m !! n = None ->
  (forall f, In f fs -> lexeme (name f) <> n) ->
  fold_left (fun m f => <[lexeme (name f) := f]> m) fs m !! n = None.
Proof.
  revert m. induction fs as [| f fs IH]; intros m Hm Hfs; simpl; [exact Hm |].
  apply IH.
  - rewrite lookup_insert_ne; [exact Hm |]. apply Hfs. left. reflexivity.
  - intros g Hg. apply Hfs. right. exact Hg.
Qed.

Lemma functionTable_present (fs : list FunctionDecl) (n : string)
    (m : gmap string FunctionDecl) :
  is_Some (m !! n) \/ (exists f, In f fs /\ lexeme (name f) = n) ->
  exists f, fold_left (fun m f => <[lexeme (name f) := f]> m) fs m !! n = Some f.
Proof.
  revert m. induction fs as [| f fs IH]; intros m H; simpl.
  - destruct H as [[g Hg] | [g [[] _]]]. exists g. exact Hg.
  - apply IH. destruct (decide (lexeme (name f) = n)) as [E | E].
    + left. rewrite E, lookup_insert_eq. eexists. reflexivity.
    + destruct H as [[g Hg] | [g [[-> | Hg] Hn]]].
      * left. rewrite lookup_insert_ne by exact E. eexists. exact Hg.
      * contradiction.
      * right. exists g. split; assumption.
Qed.

Lemma functionTable_lookup (fs : list FunctionDecl) (n : string)
    (m : gmap string FunctionDecl) (g : FunctionDecl) :
  fold_left (fun m f => <[lexeme (name f) := f]> m) fs m !! n = Some g ->
  m !! n = Some g \/ (In g fs /\ lexeme (name g) = n).
Proof.
  revert m. induction fs as [| f fs IH]; intros m H; simpl in H.
  - left. exact H.
  - destruct (IH _ H) as [Hm | [Hin Hn]].
    + destruct (decide (lexeme (name f) = n)) as [E | E].
      * rewrite E, lookup_insert_eq in Hm. injection Hm as <-.
        right. split; [left; reflexivity | exact E].
      * rewrite lookup_insert_ne in Hm by exact E. left. exact Hm.
    + right. split; [right; exact Hin | exact Hn].
Qed.

(** ** Conversions *)



(** ** Arithmetic never raises on numeric operands *)

Lemma asFloat_numeric v :
  isNumeric v = true -> exists d, asFloat v = Ok d.
Proof. destruct v; try discriminate; intros _; eexists; reflexivity. Qed.

Lemma performNumeric_numeric func l r st :
  isNumeric l = true -> isNumeric r = true ->
  exists a b,
    asFloat l = Ok a /\ asFloat r = Ok b /\
    performNumeric func l r st
    = (Normal (if isFloat l || isFloat r then FromFloat (func a b)
               else FromInt (ll_of_double (func a b))), st).
Proof.
  intros Hl Hr.
  destruct (asFloat_numeric l Hl) as [a Ha].
  destruct (asFloat_numeric r Hr) as [b Hb].
  exists a, b. split; [exact Ha |]. split; [exact Hb |].
  unfold performNumeric, bindM. rewrite Ha, Hb. simpl.
  destruct (isFloat l || isFloat r); reflexivity.
Qed.

(** ** Equality of printed forms *)

Lemma String_eqb_decide (a b : string) : String.eqb a b = bool_decide (a = b).
Proof.
  destruct (String.eqb_spec a b) as [E | E].
  - symmetry. apply bool_decide_eq_true. exact E.
  - symmetry. apply bool_decide_eq_false. exact E.
Qed.

(** ** Modulo by zero raises *)

Lemma modulo_by_zero_raises functions fuel l o r lv rv a st st1 st2 :
  type o = Tokens.MODULO ->
  evaluateExpression functions fuel l st = (Normal lv, st1) ->
  evaluateExpression functions fuel r st1 = (Normal rv, st2) ->
  asInt lv = Ok a -> asInt rv = Ok 0 ->
  evaluateExpression functions (S fuel) (BinaryExpr l o r) st
  = (Raised (Exception (runtime_error "Runtime error: division by zero")), st2).
Proof.
  intros Ho Hl Hr Ha Hb.
  cbn [evaluateExpression evaluateExpressionBody].
  unfold evaluateBinary, bindM. rewrite Hl, Hr, Ho.
  rewrite Ha, Hb. reflexivity.
Qed.

End InterpreterFacts.
(* ===================================================================== *)
(** * The budget of [tokenize] is never used up *)
(* ===================================================================== *)

Section LexerFacts.
Import Cxx Tokens Lexer.

Lemma skipWhitespace_length s :
  forall c ln col,
    (String.length (rest (skipWhitespace c s ln col)) <= String.length s)%nat.
Proof.
  induction s as [| a s IH]; intros c ln col; simpl; [lia |].
  repeat match goal with
         | |- context [if ?b then _ else _] => destruct b
         end; simpl; try lia;
    match goal with
    | |- (String.length (rest (skipWhitespace ?c' s ?l ?k)) <= _)%nat =>
        specialize (IH c' l k); lia
    end.
Qed.

Lemma stringLiteral_length s :
  forall text ln col,
    (String.length (rest (snd (stringLiteral s text ln col)))
     <= String.length s)%nat.
Proof.
  induction s as [| a s IH]; intros text ln col; simpl; [lia |].
  repeat match goal with
         | |- context [if ?b then _ else _] => destruct b
         end; simpl; try lia;
    match goal with
    | |- (String.length (rest (snd (stringLiteral s ?t ?l ?k))) <= _)%nat =>
        specialize (IH t l k); lia
    end.
Qed.

Lemma number_length s :
  forall text isFloat ln col,
    (String.length (rest (snd (number s text isFloat ln col)))
     <= String.length s)%nat.
Proof.
  induction s as [| a s IH]; intros text isFloat ln col; simpl; [lia |].
  repeat match goal with
         | |- context [if ?b then _ else _] => destruct b
         end; simpl; try lia;
    match goal with
    | |- (String.length (rest (snd (number s ?t ?f ?l ?k))) <= _)%nat =>
        specialize (IH t f l k); lia
    end.
Qed.

Lemma identifier_length s :
  forall text ln col,
    (String.length (rest (snd (identifier s text ln col)))
     <= String.length s)%nat.
Proof.
  induction s as [| a s IH]; intros text ln col; simpl; [lia |].
  repeat match goal with
         | |- context [if ?b then _ else _] => destruct b
         end; simpl; try lia;
    match goal with
    | |- (String.length (rest (snd (identifier s ?t ?l ?k))) <= _)%nat =>
        specialize (IH t l k); lia
    end.
Qed.

Lemma matchChar_length c s r :
  matchChar c s = Some r -> (String.length r < String.length s)%nat.
Proof.
  destruct s as [| a s]; simpl; [discriminate |].
  destruct (Ascii.eqb a c); [| discriminate]. intros [= <-]. lia.
Qed.

(** Every token but END_OF_FILE consumes at least one character. *)
Lemma nextToken_consumes st :
  type (fst (nextToken st)) = END_OF_FILE \/
  (String.length (rest (snd (nextToken st))) < String.length (rest st))%nat.
Proof.
  unfold nextToken.
  pose proof (skipWhitespace_length (rest st) false (line st) (column st)) as Hs.
  destruct (skipWhitespace false (rest st) (line st) (column st))
    as [s ln col]. simpl in Hs.
  destruct s as [| c r]; [left; reflexivity |]. right. simpl in Hs.
  repeat match goal with
         | |- context [if ?b then _ else _] => destruct b
         end;
    try (simpl; lia);
    try (match goal with
         | |- context [identifier r ?t ?l ?k] =>
             pose proof (identifier_length r t l k)
         | |- context [number r ?t ?f ?l ?k] =>
             pose proof (number_length r t f l k)
         | |- context [stringLiteral r ?t ?l ?k] =>
             pose proof (stringLiteral_length r t l k)
         end; lia);
    match goal with
    | |- context [matchChar ?x r] =>
        destruct (matchChar x r) as [r' |] eqn:E;
          [apply matchChar_length in E; simpl; lia | simpl; lia]
    end.
Qed.

Lemma tokenizeFrom_budget n :
  forall n' st,
    (String.length (rest st) < n)%nat -> (String.length (rest st) < n')%nat ->
    tokenizeFrom n st = tokenizeFrom n' st.
Proof.
  induction n as [| n IH]; intros n' st Hn Hn'; [lia |].
  destruct n' as [| n']; [lia |].
  simpl. pose proof (nextToken_consumes st) as Hc.
  destruct (nextToken st) as [token st']. simpl in Hc.
  destruct (type token) eqn:Ht;
    try reflexivity;
    (destruct Hc as [Hc | Hc]; [discriminate Hc |]);
    f_equal; apply IH; lia.
Qed.

(** [tokenize] does not depend on its budget. *)
Lemma tokenize_budget source n :
  (String.length source < n)%nat ->
  tokenize source = tokenizeFrom n (mkState source 1 1).
Proof.
  intros H. unfold tokenize. apply tokenizeFrom_budget; simpl; lia.
Qed.

End LexerFacts.
(* ===================================================================== *)
(** * A larger budget never changes a result of the interpreter *)
(* ===================================================================== *)

Section InterpreterFuel.
Import Cxx Ast Interpreter.
Import Tokens (Token, lexeme, type).

Lemma refines_refl {A} (m : M A) : refines m m.
Proof. intros st o st' H _. exact H. Qed.

Lemma refines_outOfFuel {A} (m : M A) : refines outOfFuel m.
Proof. intros st o st' [= <- <-] []. Qed.

Lemma refines_bind {A B} (m m' : M A) (k k' : A -> M B) :
  refines m m' -> (forall a, refines (k a) (k' a)) ->
  refines (bindM m k) (bindM m' k').
Proof.
  intros Hm Hk st o st' H Ho. unfold bindM in *.
  destruct (m st) as [[a | s |] st1] eqn:E.
  - rewrite (Hm _ _ _ E I). apply Hk; assumption.
  - rewrite (Hm _ _ _ E I). exact H.
  - injection H as <- <-. destruct Ho.
Qed.

(** Closes a goal [refines body body'] where the two sides differ only in
    the recursive calls, which the context relates. *)
Ltac refines_step :=
  first
    [ apply refines_refl
    | assumption
    | match goal with H : forall x, refines (?f x) (?g x) |- refines (?f _) (?g _) => apply H end
    | match goal with H : forall x y, refines (?f x y) (?g x y) |- refines (?f _ _) (?g _ _) => apply H end
    | apply refines_bind; [| intros ?]
    | match goal with |- refines (match ?x with _ => _ end) _ => destruct x end ].

Ltac refines_auto := repeat refines_step.

Section Bodies.
Variable functions : gmap string FunctionDecl.
Variables ev ev' : Expr -> M RuntimeValue.
Variables ex ex' : Stmt -> M unit.
Variables ef ef' : FunctionDecl -> list RuntimeValue -> M RuntimeValue.
Hypothesis Hev : forall e, refines (ev e) (ev' e).
Hypothesis Hex : forall s, refines (ex s) (ex' s).
Hypothesis Hef : forall f args, refines (ef f args) (ef' f args).

Lemma evaluateAll_refines l : refines (evaluateAll ev l) (evaluateAll ev' l).
Proof. induction l as [| e l IH]; simpl; refines_auto. Qed.

Lemma executeAll_refines l : refines (executeAll ex l) (executeAll ex' l).
Proof. induction l as [| s l IH]; simpl; refines_auto. Qed.

Lemma callUserFunction_refines n args :
  refines (callUserFunction functions ef n args)
          (callUserFunction functions ef' n args).
Proof. unfold callUserFunction. refines_auto. Qed.

Lemma evaluateBinary_refines l o r :
  refines (evaluateBinary ev l o r) (evaluateBinary ev' l o r).
Proof. unfold evaluateBinary. refines_auto. Qed.

Lemma evaluateUnary_refines o r :
  refines (evaluateUnary ev o r) (evaluateUnary ev' o r).
Proof. unfold evaluateUnary. refines_auto. Qed.

Lemma evaluateSequence_refines l :
  refines (evaluateSequence ev l) (evaluateSequence ev' l).
Proof.
  unfold evaluateSequence. apply refines_bind;
    [apply evaluateAll_refines | intros ?; apply refines_refl].
Qed.

Lemma printArguments_refines l :
  forall i ln, refines (printArguments ev l i ln) (printArguments ev' l i ln).
Proof. induction l as [| e l IH]; intros i ln; simpl; refines_auto. Qed.

Lemma handlePrint_refines l : refines (handlePrint ev l) (handlePrint ev' l).
Proof.
  unfold handlePrint. apply refines_bind;
    [apply printArguments_refines | intros ?; apply refines_refl].
Qed.

Lemma handleLength_refines l : refines (handleLength ev l) (handleLength ev' l).
Proof. unfold handleLength. refines_auto. Qed.

Lemma handleGet_refines l : refines (handleGet ev l) (handleGet ev' l).
Proof. unfold handleGet. refines_auto. Qed.

Lemma mapItems_refines n items :
  refines (mapItems functions ef n items) (mapItems functions ef' n items).
Proof.
  induction items as [| x items IH]; simpl; [apply refines_refl |].
  apply refines_bind; [apply callUserFunction_refines | intros ?].
  apply refines_bind; [exact IH | intros ?; apply refines_refl].
Qed.

Lemma filterItems_refines n items :
  refines (filterItems functions ef n items) (filterItems functions ef' n items).
Proof.
  induction items as [| x items IH]; simpl; [apply refines_refl |].
  apply refines_bind; [apply callUserFunction_refines | intros ?].
  apply refines_bind; [exact IH | intros ?; apply refines_refl].
Qed.

Lemma handleMap_refines l :
  refines (handleMap functions ev ef l) (handleMap functions ev' ef' l).
Proof.
  unfold handleMap.
  destruct l as [| a [| b [| c l]]]; try apply refines_refl.
  apply refines_bind; [apply Hev | intros v].
  destruct v; try apply refines_refl.
  apply refines_bind; [apply refines_refl | intros ?].
  apply refines_bind; [apply mapItems_refines | intros ?; apply refines_refl].
Qed.

Lemma handleFilter_refines l :
  refines (handleFilter functions ev ef l) (handleFilter functions ev' ef' l).
Proof.
  unfold handleFilter.
  destruct l as [| a [| b [| c l]]]; try apply refines_refl.
  apply refines_bind; [apply Hev | intros v].
  destruct v; try apply refines_refl.
  apply refines_bind; [apply refines_refl | intros ?].
  apply refines_bind; [apply filterItems_refines | intros ?; apply refines_refl].
Qed.

Lemma handleGenerate_refines l :
  refines (handleGenerate ev l) (handleGenerate ev' l).
Proof.
  unfold handleGenerate. apply refines_bind;
    [apply evaluateAll_refines | intros ?; apply refines_refl].
Qed.

Lemma handleInput_refines l : refines (handleInput ev l) (handleInput ev' l).
Proof.
  unfold handleInput.
  destruct l as [| a [| b l]]; try apply refines_refl.
  apply refines_bind; [| intros ?; apply refines_refl].
  apply refines_bind; [apply Hev | intros ?; apply refines_refl].
Qed.

Lemma evaluateCall_refines c l :
  refines (evaluateCall functions ev ef c l) (evaluateCall functions ev' ef' c l).
Proof.
  unfold evaluateCall.
  repeat match goal with
         | |- refines (if ?b then _ else _) _ => destruct b
         end;
    auto using handlePrint_refines, handleLength_refines, handleGet_refines,
      handleMap_refines, handleFilter_refines, handleGenerate_refines,
      handleInput_refines.
  apply refines_bind; [apply evaluateAll_refines | intros ?].
  apply callUserFunction_refines.
Qed.

Lemma evaluateExpressionBody_refines e :
  refines (evaluateExpressionBody functions ev ef e)
          (evaluateExpressionBody functions ev' ef' e).
Proof.
  destruct e; simpl;
    auto using evaluateBinary_refines, evaluateUnary_refines,
      evaluateCall_refines, evaluateSequence_refines, refines_refl.
Qed.

Lemma executeBlock_refines l : refines (executeBlock ex l) (executeBlock ex' l).
Proof.
  unfold executeBlock. apply refines_bind; [apply refines_refl | intros _].
  intros st o st' H Ho.
  destruct (executeAll ex l st) as [[[] | s |] st1] eqn:E.
  - rewrite (executeAll_refines l _ _ _ E I). exact H.
  - rewrite (executeAll_refines l _ _ _ E I). exact H.
  - injection H as <- <-. destruct Ho.
Qed.

Lemma executeStatementBody_refines s :
  refines (executeStatementBody ev ex s) (executeStatementBody ev' ex' s).
Proof.
  destruct s; simpl.
  - refines_auto.
  - refines_auto.
  - apply refines_bind; [apply Hev | intros c].
    destruct (asBool c).
    + apply refines_bind; [apply refines_refl | intros _].
      apply refines_bind; [apply executeAll_refines | intros _; apply refines_refl].
    + destruct elseBranch; [apply refines_refl |].
      apply refines_bind; [apply refines_refl | intros _].
      apply refines_bind; [apply executeAll_refines | intros _; apply refines_refl].
  - apply refines_bind; [apply Hev | intros c].
    destruct (asBool c); [| apply refines_refl].
    apply refines_bind; [apply refines_refl | intros _].
    apply refines_bind; [apply executeAll_refines | intros _].
    apply refines_bind; [apply refines_refl | intros _]. apply Hex.
  - refines_auto.
  - refines_auto.
  - apply executeBlock_refines.
Qed.

Lemma executeFunctionBody_refines f args :
  refines (executeFunctionBody ex f args) (executeFunctionBody ex' f args).
Proof.
  unfold executeFunctionBody.
  apply refines_bind; [apply refines_refl | intros _].
  apply refines_bind; [apply refines_refl | intros _].
  intros st o st' H Ho.
  destruct (executeAll ex (body f) st) as [[[] | s |] st1] eqn:E.
  - rewrite (executeAll_refines _ _ _ _ E I). exact H.
  - rewrite (executeAll_refines _ _ _ _ E I). exact H.
  - injection H as <- <-. destruct Ho.
Qed.

End Bodies.

(** One more unit of budget. *)
Lemma fuel_step functions fuel :
  (forall e, refines (evaluateExpression functions fuel e)
                     (evaluateExpression functions (S fuel) e)) /\
  (forall s, refines (executeStatement functions fuel s)
                     (executeStatement functions (S fuel) s)) /\
  (forall f args, refines (executeFunction functions fuel f args)
                          (executeFunction functions (S fuel) f args)).
Proof.
  induction fuel as [| fuel [IHe [IHs IHf]]].
  - repeat split; intros; apply refines_outOfFuel.
  - repeat split; intros.
    + apply (evaluateExpressionBody_refines functions _ _ _ _ IHe IHf).
    + apply (executeStatementBody_refines _ _ _ _ IHe IHs).
    + apply (executeFunctionBody_refines _ _ IHs).
Qed.

Lemma executeFunction_fuel_monotone functions fuel fuel' f args st o st' :
  (fuel <= fuel')%nat ->
  executeFunction functions fuel f args st = (o, st') -> finished o ->
  executeFunction functions fuel' f args st = (o, st').
Proof.
  induction 1 as [| fuel' _ IH]; intros H Ho; [exact H |].
  apply (proj2 (proj2 (fuel_step functions fuel'))); [apply IH |]; assumption.
Qed.

Lemma evaluateExpression_fuel_monotone functions fuel fuel' e st o st' :
  (fuel <= fuel')%nat ->
  evaluateExpression functions fuel e st = (o, st') -> finished o ->
  evaluateExpression functions fuel' e st = (o, st').
Proof.
  induction 1 as [| fuel' _ IH]; intros H Ho; [exact H |].
  apply (proj1 (fuel_step functions fuel')); [apply IH |]; assumption.
Qed.

(** A result of [run] is the result for every larger budget. *)
Lemma run_fuel_monotone fuel fuel' program input r :
  (fuel <= fuel')%nat ->
  run fuel program input = Some r -> run fuel' program input = Some r.
Proof.
  intros Hle. unfold run. destruct program as [p |]; [| exact (fun H => H)].
  destruct (initializeFunctionTable (Some p) !! "main") as [main |];
    [| exact (fun H => H)].
  destruct (executeFunction _ fuel main [] _) as [o st'] eqn:E.
  intros H.
  assert (Ho : finished o) by (destruct o; [exact I | exact I | discriminate H]).
  rewrite (executeFunction_fuel_monotone _ _ _ _ _ _ _ _ Hle E Ho). exact H.
Qed.

End InterpreterFuel.
(* ===================================================================== *)
(** * A larger budget never changes a result of the parser *)
(* ===================================================================== *)

Section ParserFuel.
Import Cxx Tokens Ast Parser.

Lemma parser_refines_refl {A} (m : P A) : refines m m.
Proof. intros c o c' H _. exact H. Qed.

Lemma parser_refines_outOfFuel {A} (m : P A) : refines outOfFuel m.
Proof. intros c o c' [= <- <-] []. Qed.

Lemma parser_refines_bind {A B} (m m' : P A) (k k' : A -> P B) :
  refines m m' -> (forall a, refines (k a) (k' a)) ->
  refines (bindP m k) (bindP m' k').
Proof.
  intros Hm Hk c o c' H Ho. unfold bindP in *.
  destruct (m c) as [[a | w |] c1] eqn:E.
  - rewrite (Hm _ _ _ E I). apply Hk; assumption.
  - rewrite (Hm _ _ _ E I). exact H.
  - injection H as <- <-. destruct Ho.
Qed.

Ltac prefines_step :=
  first
    [ apply parser_refines_refl
    | assumption
    | apply parser_refines_outOfFuel
    | apply parser_refines_bind; [| intros ?]
    | match goal with |- refines (if ?b then _ else _) _ => destruct b end
    | match goal with |- refines (match ?x with _ => _ end) _ => destruct x end ].

Ltac prefines_auto := repeat prefines_step.

Variable tokens : list Token.

Section Bodies.
Variables fuel fuel' : nat.
Variables pe pe' : P Expr.
Variables ps ps' : P Stmt.
Hypothesis Hfuel : (fuel <= fuel')%nat.
Hypothesis Hpe : refines pe pe'.
Hypothesis Hps : refines ps ps'.

Lemma expressionList_refines n :
  forall n' closing acc, (n <= n')%nat ->
    refines (expressionList tokens pe n closing acc)
            (expressionList tokens pe' n' closing acc).
Proof.
  induction n as [| n IH]; intros n' closing acc Hn; simpl;
    [apply parser_refines_outOfFuel |].
  destruct n' as [| n']; [lia |]. simpl.
  apply parser_refines_bind; [exact Hpe | intros e].
  apply parser_refines_bind; [apply parser_refines_refl | intros comma].
  destruct comma; [| apply parser_refines_refl].
  apply parser_refines_bind; [apply parser_refines_refl | intros closed].
  destruct closed; [apply parser_refines_refl |]. apply IH. lia.
Qed.

Lemma parseArguments_refines :
  refines (parseArguments tokens fuel pe) (parseArguments tokens fuel' pe').
Proof.
  unfold parseArguments.
  apply parser_refines_bind; [apply parser_refines_refl | intros closed].
  apply parser_refines_bind; [| intros ?; apply parser_refines_refl].
  destruct closed; [apply parser_refines_refl |].
  apply expressionList_refines. exact Hfuel.
Qed.

Lemma parseSequence_refines :
  refines (parseSequence tokens fuel pe) (parseSequence tokens fuel' pe').
Proof.
  unfold parseSequence.
  apply parser_refines_bind; [apply parser_refines_refl | intros closed].
  apply parser_refines_bind; [| intros ?; apply parser_refines_refl].
  destruct closed; [apply parser_refines_refl |].
  apply expressionList_refines. exact Hfuel.
Qed.

Lemma parsePrimary_refines :
  refines (parsePrimary tokens fuel pe) (parsePrimary tokens fuel' pe').
Proof.
  unfold parsePrimary.
  repeat first
    [ apply parseArguments_refines
    | apply parseSequence_refines
    | prefines_step ].
Qed.

Lemma parseUnary_refines n :
  forall n', (n <= n')%nat ->
    refines (parseUnary tokens fuel pe n) (parseUnary tokens fuel' pe' n').
Proof.
  induction n as [| n IH]; intros n' Hn; simpl;
    [apply parser_refines_outOfFuel |].
  destruct n' as [| n']; [lia |]. simpl.
  apply parser_refines_bind; [apply parser_refines_refl | intros m].
  destruct m; [| apply parsePrimary_refines].
  apply parser_refines_bind; [apply parser_refines_refl | intros o].
  apply parser_refines_bind; [apply IH; lia | intros ?; apply parser_refines_refl].
Qed.

Lemma binaryLoop_refines ops operand operand' n :
  refines operand operand' ->
  forall n' expr, (n <= n')%nat ->
    refines (binaryLoop tokens n ops operand expr)
            (binaryLoop tokens n' ops operand' expr).
Proof.
  intros Hop. induction n as [| n IH]; intros n' expr Hn; simpl;
    [apply parser_refines_outOfFuel |].
  destruct n' as [| n']; [lia |]. simpl.
  apply parser_refines_bind; [apply parser_refines_refl | intros m].
  destruct m; [| apply parser_refines_refl].
  apply parser_refines_bind; [apply parser_refines_refl | intros o].
  apply parser_refines_bind; [exact Hop | intros rhs]. apply IH. lia.
Qed.

Lemma parseFactor_refines :
  refines (parseFactor tokens fuel pe) (parseFactor tokens fuel' pe').
Proof.
  unfold parseFactor.
  apply parser_refines_bind; [apply parseUnary_refines; exact Hfuel | intros e].
  apply binaryLoop_refines; [apply parseUnary_refines |]; exact Hfuel.
Qed.

Lemma parseTerm_refines :
  refines (parseTerm tokens fuel pe) (parseTerm tokens fuel' pe').
Proof.
  unfold parseTerm.
  apply parser_refines_bind; [apply parseFactor_refines | intros e].
  apply binaryLoop_refines; [apply parseFactor_refines | exact Hfuel].
Qed.

Lemma parseComparison_refines :
  refines (parseComparison tokens fuel pe) (parseComparison tokens fuel' pe').
Proof.
  unfold parseComparison.
  apply parser_refines_bind; [apply parseTerm_refines | intros e].
  apply binaryLoop_refines; [apply parseTerm_refines | exact Hfuel].
Qed.

Lemma parseEquality_refines :
  refines (parseEquality tokens fuel pe) (parseEquality tokens fuel' pe').
Proof.
  unfold parseEquality.
  apply parser_refines_bind; [apply parseComparison_refines | intros e].
  apply binaryLoop_refines; [apply parseComparison_refines | exact Hfuel].
Qed.

Lemma parseLogicalAnd_refines :
  refines (parseLogicalAnd tokens fuel pe) (parseLogicalAnd tokens fuel' pe').
Proof.
  unfold parseLogicalAnd.
  apply parser_refines_bind; [apply parseEquality_refines | intros e].
  apply binaryLoop_refines; [apply parseEquality_refines | exact Hfuel].
Qed.

Lemma parseExpressionBody_refines :
  refines (parseExpressionBody tokens fuel pe)
          (parseExpressionBody tokens fuel' pe').
Proof.
  unfold parseExpressionBody, parseLogicalOr.
  apply parser_refines_bind; [apply parseLogicalAnd_refines | intros e].
  apply binaryLoop_refines; [apply parseLogicalAnd_refines | exact Hfuel].
Qed.

Lemma blockLoop_refines n :
  forall n' statements, (n <= n')%nat ->
    refines (blockLoop tokens ps n statements)
            (blockLoop tokens ps' n' statements).
Proof.
  induction n as [| n IH]; intros n' statements Hn; simpl;
    [apply parser_refines_outOfFuel |].
  destruct n' as [| n']; [lia |]. simpl.
  apply parser_refines_bind; [apply parser_refines_refl | intros closing].
  apply parser_refines_bind; [apply parser_refines_refl | intros e].
  destruct (negb closing && negb e); [| apply parser_refines_refl].
  apply parser_refines_bind; [exact Hps | intros stmt]. apply IH. lia.
Qed.

Lemma parseBlock_refines :
  refines (parseBlock tokens fuel ps) (parseBlock tokens fuel' ps').
Proof.
  unfold parseBlock.
  apply parser_refines_bind; [apply parser_refines_refl | intros _].
  apply parser_refines_bind;
    [apply blockLoop_refines; exact Hfuel | intros ?; apply parser_refines_refl].
Qed.

Lemma parseDeclaration_refines :
  refines (parseDeclaration tokens pe) (parseDeclaration tokens pe').
Proof. unfold parseDeclaration. prefines_auto. Qed.

Lemma parseAssignment_refines :
  refines (parseAssignment tokens pe) (parseAssignment tokens pe').
Proof. unfold parseAssignment. prefines_auto. Qed.

Lemma parseIfStatement_refines :
  refines (parseIfStatement tokens fuel pe ps)
          (parseIfStatement tokens fuel' pe' ps').
Proof.
  unfold parseIfStatement.
  repeat first [ apply parseBlock_refines | prefines_step ].
Qed.

Lemma parseWhileStatement_refines :
  refines (parseWhileStatement tokens fuel pe ps)
          (parseWhileStatement tokens fuel' pe' ps').
Proof.
  unfold parseWhileStatement.
  repeat first [ apply parseBlock_refines | prefines_step ].
Qed.

Lemma parseReturnStatement_refines :
  refines (parseReturnStatement tokens pe) (parseReturnStatement tokens pe').
Proof. unfold parseReturnStatement. prefines_auto. Qed.

Lemma printLoop_refines n :
  forall n' arguments, (n <= n')%nat ->
    refines (printLoop tokens fuel pe n arguments)
            (printLoop tokens fuel' pe' n' arguments).
Proof.
  induction n as [| n IH]; intros n' arguments Hn; simpl;
    [apply parser_refines_outOfFuel |].
  destruct n' as [| n']; [lia |]. simpl.
  apply parser_refines_bind; [apply parser_refines_refl | intros t].
  destruct (isStatementTerminator (type t)); [apply parser_refines_refl |].
  intros c o c' H Ho.
  destruct (parsePrimary tokens fuel pe c) as [[e | w |] c1] eqn:E.
  - rewrite (parsePrimary_refines _ _ _ E I).
    repeat match type of H with
           | (if ?b then _ else _) = _ => destruct b
           end; try exact H.
    apply (IH n' _ ltac:(lia) _ _ _ H Ho).
  - rewrite (parsePrimary_refines _ _ _ E I). exact H.
  - injection H as <- <-. destruct Ho.
Qed.

Lemma parsePrintStatement_refines :
  refines (parsePrintStatement tokens fuel pe)
          (parsePrintStatement tokens fuel' pe').
Proof.
  unfold parsePrintStatement.
  apply parser_refines_bind; [apply parser_refines_refl | intros printToken].
  apply parser_refines_bind;
    [apply printLoop_refines; exact Hfuel | intros ?; apply parser_refines_refl].
Qed.

Lemma parseExpressionStatement_refines :
  refines (parseExpressionStatement tokens pe)
          (parseExpressionStatement tokens pe').
Proof. unfold parseExpressionStatement. prefines_auto. Qed.

Lemma parseStatementBody_refines :
  refines (parseStatementBody tokens fuel pe ps)
          (parseStatementBody tokens fuel' pe' ps').
Proof.
  unfold parseStatementBody.
  repeat first
    [ apply parseDeclaration_refines
    | apply parseIfStatement_refines
    | apply parseWhileStatement_refines
    | apply parseReturnStatement_refines
    | apply parsePrintStatement_refines
    | apply parseAssignment_refines
    | apply parseBlock_refines
    | apply parseExpressionStatement_refines
    | prefines_step ].
Qed.

Lemma parameterLoop_refines n :
  forall n' parameters, (n <= n')%nat ->
    refines (parameterLoop tokens n parameters)
            (parameterLoop tokens n' parameters).
Proof.
  induction n as [| n IH]; intros n' parameters Hn; simpl;
    [apply parser_refines_outOfFuel |].
  destruct n' as [| n']; [lia |]. simpl.
  repeat first [ apply IH; lia | prefines_step ].
Qed.

Lemma parseFunction_refines :
  refines (parseFunction tokens fuel ps) (parseFunction tokens fuel' ps').
Proof.
  unfold parseFunction, parseParameters.
  repeat first
    [ apply parseBlock_refines
    | apply parameterLoop_refines; exact Hfuel
    | prefines_step ].
Qed.

Lemma programLoop_refines n :
  forall n' functions, (n <= n')%nat ->
    refines (programLoop tokens fuel ps n functions)
            (programLoop tokens fuel' ps' n' functions).
Proof.
  induction n as [| n IH]; intros n' functions Hn; simpl;
    [apply parser_refines_outOfFuel |].
  destruct n' as [| n']; [lia |]. simpl.
  repeat first [ apply IH; lia | apply parseFunction_refines | prefines_step ].
Qed.

Lemma parseProgramBody_refines :
  refines (parseProgramBody tokens fuel ps) (parseProgramBody tokens fuel' ps').
Proof.
  unfold parseProgramBody.
  apply parser_refines_bind;
    [apply programLoop_refines; exact Hfuel | intros ?; apply parser_refines_refl].
Qed.

End Bodies.

Lemma parseExpression_step fuel :
  refines (parseExpression tokens fuel) (parseExpression tokens (S fuel)).
Proof.
  induction fuel as [| fuel IH]; [apply parser_refines_outOfFuel |].
  apply (parseExpressionBody_refines fuel (S fuel) _ _ ltac:(lia) IH).
Qed.

Lemma parseStatement_step fuel :
  refines (parseStatement tokens fuel) (parseStatement tokens (S fuel)).
Proof.
  induction fuel as [| fuel IH]; [apply parser_refines_outOfFuel |].
  apply (parseStatementBody_refines fuel (S fuel) _ _ _ _ ltac:(lia)
           (parseExpression_step fuel) IH).
Qed.

Lemma parseProgram_step fuel :
  refines (parseProgram tokens fuel) (parseProgram tokens (S fuel)).
Proof.
  apply (parseProgramBody_refines fuel (S fuel) _ _ ltac:(lia)
           (parseStatement_step fuel)).
Qed.

(** A result of [parse] is the result for every larger budget. *)
Lemma parse_fuel_monotone fuel fuel' o :
  (fuel <= fuel')%nat ->
  parse fuel tokens = o -> finished o -> parse fuel' tokens = o.
Proof.
  unfold parse. induction 1 as [| fuel' _ IH]; intros H Ho; [exact H |].
  specialize (IH H Ho).
  destruct (parseProgram tokens fuel' 0%nat) as [o' c'] eqn:E.
  simpl in IH. subst o'.
  rewrite (parseProgram_step fuel' _ _ _ E Ho). reflexivity.
Qed.

End ParserFuel.
(* ===================================================================== *)
(** * Claims about the optimizer *)
(* ===================================================================== *)

Section OptimizerClaims.
Import Cxx Optimizer.

(** C1, counterexample: for the program [sum_source] one application of
    [optimize] to the generated code propagates [x = 5] into [t0 = x + 3]
    after folding has already run; only a second application folds
    [5 + 3], propagates the 8 and drops [t0].  So [optimize (optimize c)]
    differs from [optimize c]. *)
Lemma C1_optimize_twice_differs :
  Samples.compile 40 Samples.sum_source = Parser.Parsed Samples.sum_code /\
  optimize Samples.sum_code = Ok Samples.sum_optimized_once /\
  optimize Samples.sum_optimized_once = Ok Samples.sum_optimized_twice /\
  Samples.sum_optimized_twice <> Samples.sum_optimized_once.
Proof.
  split; [vm_compute; reflexivity |].
  split; [vm_compute; reflexivity |].
  split; [vm_compute; reflexivity |].
  discriminate.
Qed.

(** C1, amended: constant folding, algebraic simplification and
    redundant-assignment removal are each idempotent; an optimized list is a
    fixed point of the last two; and a second application of [optimize]
    returns the same list whenever that list is also left unchanged by
    constant folding, constant propagation and dead-code elimination. *)
Theorem C1_optimize_idempotent_on_stable_output :
  (forall c c1, constantFolding c = Ok c1 -> constantFolding c1 = Ok c1) /\
  (forall c, algebraicSimplification (algebraicSimplification c)
             = algebraicSimplification c) /\
  (forall c, removeRedundantAssignments (removeRedundantAssignments c)
             = removeRedundantAssignments c) /\
  (forall c c1, optimize c = Ok c1 ->
     algebraicSimplification c1 = c1 /\
     removeRedundantAssignments c1 = c1 /\
     (constantFolding c1 = Ok c1 ->
      constantPropagation c1 = c1 ->
      deadCodeElimination c1 = c1 ->
      optimize c1 = Ok c1)).
Proof.
  split; [exact constantFolding_idempotent |].
  split; [exact algebraicSimplification_idempotent |].
  split; [exact removeRedundantAssignments_idempotent |].
  intros c c1 Hopt.
  pose proof (optimize_output_simplified c c1 Hopt) as HA.
  pose proof (optimize_output_irredundant c c1 Hopt) as HR.
  repeat split; [exact HA | exact HR |].
  intros HF HP HD. unfold optimize. rewrite HF. simpl.
  rewrite HP, HA, HR, HD. reflexivity.
Qed.

Lemma C1_optimize_idempotent_on_stable_output_witness :
  optimize Samples.sum_optimized_once = Ok Samples.sum_optimized_twice /\
  optimize Samples.sum_optimized_twice = Ok Samples.sum_optimized_twice.
Proof.
  assert (H : optimize Samples.sum_optimized_once
              = Ok Samples.sum_optimized_twice)
    by (vm_compute; reflexivity).
  split; [exact H |].
  refine (proj2 (proj2 (proj2 (proj2 (proj2
    C1_optimize_idempotent_on_stable_output))
    Samples.sum_optimized_once Samples.sum_optimized_twice H))
    _ _ _); vm_compute; reflexivity.
Defined.

(** C2, counterexample: in the code generated for [total_source] the
    instruction [total = 5] assigns a user-named variable ([total] is the
    name of a declaration, and not a name the generator's [newTemp] can
    produce); dead-code elimination removes it, because the name begins
    with [t] and is read nowhere, and so does the whole [optimize]. *)
Lemma C2_user_named_assign_removed :
  Samples.compile 40 Samples.total_source = Parser.Parsed Samples.total_code /\
  In Samples.total_assign Samples.total_code /\
  op Samples.total_assign = "ASSIGN" /\
  ~ CodeGenerator.isTemporary (result Samples.total_assign) /\
  ~ In Samples.total_assign (deadCodeElimination Samples.total_code) /\
  optimize Samples.total_code
  = Ok [TAC "LABEL" "" "" "main" 1; TAC "RETURN" "0" "" "" (-1)].
Proof.
  split; [vm_compute; reflexivity |].
  split; [right; left; reflexivity |].
  split; [reflexivity |].
  split; [| split].
  - intros [n Hn]. exact (total_not_generated n Hn).
  - vm_compute. intros [H | [H | []]]; discriminate H.
  - vm_compute. reflexivity.
Qed.

(** C2, amended: dead-code elimination never removes an instruction whose
    destination does not begin with the letter [t], whether or not that
    destination is read anywhere in the list. *)
Theorem C2_dce_keeps_names_not_starting_with_t
    (c : list ThreeAddressCode) (i : ThreeAddressCode) :
  In i c -> startsWith_t (result i) = false -> In i (deadCodeElimination c).
Proof.
  intros Hin Ht. unfold deadCodeElimination. apply filter_In.
  split; [exact Hin |]. unfold isDeadAssign. rewrite Ht.
  rewrite andb_false_r. reflexivity.
Qed.

Lemma C2_dce_keeps_names_not_starting_with_t_witness :
  In (TAC "ASSIGN" "5" "" "x" 1)
     (deadCodeElimination [TAC "ASSIGN" "5" "" "x" 1; TAC "RETURN" "0" "" "" (-1)]).
Proof.
  apply C2_dce_keeps_names_not_starting_with_t;
    [left; reflexivity | reflexivity].
Defined.

(** C3, the defect: in the code generated for [overwrite_source] the
    instruction [x = y] overwrites [x] with a value read at run time, yet
    [x] stays in the constant map with its earlier 5 and the later
    [t1 = x + 1] is rewritten to [t1 = 5 + 1].  The step lemma
    [propagateInstr_assign_nonconstant] is the cause: an Assign whose
    source is not a constant leaves the map untouched. *)
Theorem C3_overwritten_constant_is_substituted :
  Samples.compile 40 Samples.overwrite_source
  = Parser.Parsed Samples.overwrite_code /\
  constantPropagation Samples.overwrite_code = Samples.overwrite_propagated /\
  In (TAC "+" "x" "1" "t1" 1) Samples.overwrite_code /\
  In (TAC "+" "5" "1" "t1" 1) Samples.overwrite_propagated.
Proof.
  split; [vm_compute; reflexivity |].
  split; [vm_compute; reflexivity |].
  split; vm_compute; tauto.
Qed.

(** C10, counterexample: in the code generated for [wide_source] both
    operands of [t0 = 99999999999 / 0] are integer literals for
    [isConstant] and the right one is 0, but the left one does not fit an
    [int]: [std::stoi] throws, and constant folding (and with it
    [optimize]) raises instead of producing an Assign of 0. *)
Lemma C10_wide_literal_makes_folding_throw :
  Samples.compile 40 Samples.wide_source = Parser.Parsed Samples.wide_code /\
  In Samples.wide_division Samples.wide_code /\
  op Samples.wide_division = "/" /\
  isConstant (arg1 Samples.wide_division) = true /\
  isConstant (arg2 Samples.wide_division) = true /\
  stoi (arg2 Samples.wide_division) = Ok 0 /\
  constantFolding Samples.wide_code = Throw (out_of_range "stoi") /\
  optimize Samples.wide_code = Throw (out_of_range "stoi").
Proof. repeat split; vm_compute; tauto. Qed.

(** C10, amended: for a [/] instruction whose operands are both integer
    literals, with a left operand that fits an [int] and a right operand
    equal to 0, constant folding does not raise on the instruction and
    replaces it by an [ASSIGN] of the literal 0. *)
Theorem C10_division_by_zero_folds_to_zero
    (i : ThreeAddressCode) (leftVal : Z) :
  op i = "/" ->
  isConstant (arg1 i) = true -> isConstant (arg2 i) = true ->
  stoi (arg1 i) = Ok leftVal -> stoi (arg2 i) = Ok 0 ->
  foldInstr i = Ok (TAC "ASSIGN" "0" "" (result i) (line i)) /\
  (forall c c' (k : nat),
     constantFolding c = Ok c' -> c !! k = Some i ->
     c' !! k = Some (TAC "ASSIGN" "0" "" (result i) (line i))).
Proof.
  intros Hop H1 H2 Hl Hr.
  assert (Hf : foldInstr i = Ok (TAC "ASSIGN" "0" "" (result i) (line i))).
  { unfold foldInstr, evaluateConstant. rewrite Hop, H1, H2, Hl, Hr. reflexivity. }
  split; [exact Hf |].
  intros c c' k Hc Hk.
  destruct (mapM_lookup foldInstr c c' k i Hc Hk) as [y [Hy Hk']].
  rewrite Hf in Hy. injection Hy as <-. exact Hk'.
Qed.

Lemma C10_division_by_zero_folds_to_zero_witness :
  foldInstr (TAC "/" "7" "0" "t0" 1) = Ok (TAC "ASSIGN" "0" "" "t0" 1).
Proof.
  apply (C10_division_by_zero_folds_to_zero (TAC "/" "7" "0" "t0" 1) 7);
    reflexivity.
Defined.

End OptimizerClaims.
(* ===================================================================== *)
(** * Claims about the code generator *)
(* ===================================================================== *)

Section CodeGeneratorClaims.
Import Cxx Tokens Ast Optimizer CodeGenerator.

(** C8: lowering a While statement appends to the code generated so far
    exactly [Goto condLabel; Label startLabel], the instructions of the
    body (its statements lowered one after another), [Label condLabel],
    the instructions of the condition, [If cond, startLabel] and
    [Label endLabel], in this order, and [Label endLabel] is always the
    last instruction.  With [n] the label counter before the statement,
    the three labels are allocated first and are [L] followed by [n], by
    its successor and by the successor of that, in the order start,
    condition, end: three different names (the successor being taken in
    [int]; from a counter [0 <= n <= INT_MAX - 2] they are [Ln], [Ln+1],
    [Ln+2]). *)
Theorem C8_while_statement_shape
    (condition : Expr) (body : list Stmt) (st : state) :
  let ln := Expr_line condition in
  let n := labelCounter st in
  let startLabel := "L" +:+ to_string n in
  let conditionLabel := "L" +:+ to_string (wrap_int (n + 1)) in
  let endLabel := "L" +:+ to_string (wrap_int (wrap_int (n + 1) + 1)) in
  let st3 := mkState (intermediateCode st) (tempCounter st)
               (wrap_int (wrap_int (wrap_int (n + 1) + 1) + 1)) in
  let st4 := emit (TAC "GOTO" "" "" conditionLabel ln) st3 in
  let st5 := emit (TAC "LABEL" "" "" startLabel ln) st4 in
  let st6 := fold_left (fun s stmt => generateStatement stmt s) body st5 in
  let st7 := emit (TAC "LABEL" "" "" conditionLabel ln) st6 in
  let cond := fst (generateExpression condition st7) in
  let st8 := snd (generateExpression condition st7) in
  intermediateCode (generateWhileStatement condition body st)
  = intermediateCode st
    ++ [TAC "GOTO" "" "" conditionLabel ln; TAC "LABEL" "" "" startLabel ln]
    ++ emittedBetween st5 st6
    ++ [TAC "LABEL" "" "" conditionLabel ln]
    ++ emittedBetween st7 st8
    ++ [TAC "IF" cond "" startLabel ln; TAC "LABEL" "" "" endLabel ln]
  /\ (INT_MIN <= n <= INT_MAX ->
      startLabel <> conditionLabel /\ conditionLabel <> endLabel
      /\ startLabel <> endLabel)
  /\ (0 <= n -> n + 2 <= INT_MAX ->
      conditionLabel = "L" +:+ to_string (n + 1)
      /\ endLabel = "L" +:+ to_string (n + 2)).
Proof.
  intros ln n startLabel conditionLabel endLabel st3 st4 st5 st6 st7 cond st8.
  split; [| split].
  - unfold generateWhileStatement. cbn [generateStatement Stmt_line].
    unfold newLabel. cbn [labelCounter tempCounter intermediateCode].
    rewrite generateStatementsWith_fold.
    fold ln n startLabel conditionLabel endLabel st3 st4 st5 st6 st7.
    pose proof (generateStatements_extends body st5) as H56.
    unfold generateStatements in H56. rewrite generateStatementsWith_fold in H56.
    fold st6 in H56.
    pose proof (generateExpression_extends condition st7) as H78.
    fold st8 in H78.
    destruct (generateExpression condition st7) as [cond' st8'] eqn:E.
    subst cond st8. cbn [fst snd] in *.
    apply extends_emitted in H56, H78.
    cbn [emit intermediateCode].
    rewrite H78. subst st7. cbn [emit intermediateCode].
    rewrite H56. subst st5 st4 st3. cbn [emit intermediateCode].
    rewrite <- !app_assoc. reflexivity.
  - intros Hn. destruct (wrap_int_successors n Hn) as [H1 [H2 H3]].
    repeat split; intros E; apply label_inj in E; contradiction.
  - intros H0 H2. subst conditionLabel endLabel.
    assert (INT_MIN <= n + 1 <= INT_MAX) as Ha by (unfold INT_MIN, INT_MAX in *; lia).
    assert (INT_MIN <= n + 1 + 1 <= INT_MAX) as Hb by (unfold INT_MIN, INT_MAX in *; lia).
    rewrite (wrap_int_in_range (n + 1) Ha), (wrap_int_in_range (n + 1 + 1) Hb).
    replace (n + 1 + 1) with (n + 2) by lia. split; reflexivity.
Qed.

(** The theorem at the loop [while i < 3 { i = i + 1; }], lowered when
    no label and no temporary has been allocated yet. *)
Lemma C8_while_statement_shape_witness :
  let i := mkToken IDENTIFIER "i" 1 7 in
  let number := fun s => LiteralExpr (mkToken NUMBER s 1 1) in
  let condition := BinaryExpr (VariableExpr i) (mkToken LESS "<" 1 9) (number "3") in
  let body :=
    [AssignmentStmt (mkToken IDENTIFIER "i" 2 3)
       (BinaryExpr (VariableExpr i) (mkToken PLUS "+" 2 9) (number "1"))] in
  intermediateCode (generateWhileStatement condition body (mkState [] 0 0))
  = [TAC "GOTO" "" "" "L1" 1; TAC "LABEL" "" "" "L0" 1;
     TAC "+" "i" "1" "t0" 2; TAC "ASSIGN" "t0" "" "i" 2;
     TAC "LABEL" "" "" "L1" 1;
     TAC "<" "i" "3" "t1" 1;
     TAC "IF" "t1" "" "L0" 1; TAC "LABEL" "" "" "L2" 1]
  /\ "L0" <> "L1" /\ "L1" <> "L2" /\ "L0" <> "L2".
Proof.
  intros i number condition body.
  pose proof (C8_while_statement_shape condition body (mkState [] 0 0)) as H.
  cbv zeta in H. destruct H as [Hcode [Hdistinct _]].
  split.
  - rewrite Hcode. vm_compute. reflexivity.
  - assert (INT_MIN <= labelCounter (mkState [] 0 0) <= INT_MAX) as Hn
      by (vm_compute; split; discriminate).
    apply Hdistinct in Hn. vm_compute in Hn. exact Hn.
Defined.

(** The shape on a concrete loop. *)
Example while_sample_shape :
  Samples.compile 40 Samples.while_source = Parser.Parsed Samples.while_code.
Proof. vm_compute. reflexivity. Qed.

End CodeGeneratorClaims.
(* ===================================================================== *)
(** * Claims about the interpreter *)
(* ===================================================================== *)

Section InterpreterClaims.
Import Cxx Ast Interpreter.
Import Tokens (Token, lexeme, type).



(** C5, counterexample: the program [main_with_parameter_source] has no
    function [main] with zero parameters (its [main] takes one), yet [run]
    calls it, with [x] bound to [Void]: the print is executed and the run
    succeeds, on every budget from 40 up. *)
Lemma C5_main_with_a_parameter_is_run :
  exists p,
    Parser.parse 40 (Lexer.tokenize Samples.main_with_parameter_source)
    = Parser.Parsed p /\
    (forall f, In f (functions p) ->
       ~ (lexeme (name f) = "main" /\ parameters f = [])) /\
    (forall fuel, (40 <= fuel)%nat ->
       run fuel (Some p) [] = Some (mkResult true 0 ["1"] "")).
Proof.
  eexists. split; [vm_compute; reflexivity |].
  split.
  - intros f [<- | []] [_ H]. discriminate H.
  - intros fuel Hfuel. apply (run_fuel_monotone 40 fuel _ _ _ Hfuel).
    vm_compute. reflexivity.
Qed.

(** C5, amended: when the program has no function named [main] (whatever
    the parameter lists), [run] returns the failure "No 'main' function
    found" with an empty output log for every budget, the empty one
    included, so without executing any statement; when it has one, the
    result of [run] is that of calling the function the table holds under
    [main], which is one of the program's functions of that name. *)
Theorem C5_run_requires_a_function_named_main (p : Program) :
  ((forall f, In f (functions p) -> lexeme (name f) <> "main") ->
   forall fuel input,
     run fuel (Some p) input
     = Some (mkResult false 0 [] "No 'main' function found")) /\
  ((exists f, In f (functions p) /\ lexeme (name f) = "main") ->
   exists main,
     In main (functions p) /\ lexeme (name main) = "main" /\
     forall fuel input,
       run fuel (Some p) input
       = resultOf (executeFunction (initializeFunctionTable (Some p)) fuel
                     main [] (mkState [] [] input ""))).
Proof.
  split.
  - intros H fuel input. unfold run, initializeFunctionTable.
    rewrite functionTable_absent; [reflexivity | apply lookup_empty | exact H].
  - intros H.
    destruct (functionTable_present (functions p) "main" ∅ (or_intror H))
      as [main Hmain].
    exists main.
    destruct (functionTable_lookup _ _ _ _ Hmain) as [Hm | [Hin Hn]];
      [rewrite lookup_empty in Hm; discriminate Hm |].
    split; [exact Hin |]. split; [exact Hn |].
    intros fuel input. unfold run.
    unfold initializeFunctionTable in *. rewrite Hmain. reflexivity.
Qed.

Lemma C5_run_requires_a_function_named_main_witness :
  let helper :=
    mkFunctionDecl (Tokens.mkToken Tokens.IDENTIFIER "helper" 1 1) [] DT_VOID [] in
  run 0 (Some (mkProgram [helper])) []
  = Some (mkResult false 0 [] "No 'main' function found").
Proof.
  cbv zeta.
  apply (proj1 (C5_run_requires_a_function_named_main _)).
  intros f [<- | []]. discriminate.
Defined.




(** C4, the defect: [/] has no test of its divisor.  In the program
    [division_source] the Int division [1 / 0] and the Float division
    [1.5 / 0] both return a value (the quotient in double is an infinity;
    converted to [long long] it is [LLONG_MIN] on x86-64), the run
    succeeds and prints them; no runtime error is raised.  The sibling
    operator [%] does test its divisor (lemma [modulo_by_zero_raises]): in
    [modulo_source] the error unwinds to [run], which reports it with the
    output printed before the fault. *)
Theorem C4_division_by_zero_returns_a_value :
  (exists p,
     Parser.parse 40 (Lexer.tokenize Samples.division_source)
     = Parser.Parsed p /\
     forall k : nat,
       run (40 + k)%nat (Some p) []
       = Some (mkResult true 0 ["-9223372036854775808 inf"] "")) /\
  (exists p,
     Parser.parse 40 (Lexer.tokenize Samples.modulo_source)
     = Parser.Parsed p /\
     forall k : nat,
       run (40 + k)%nat (Some p) []
       = Some (mkResult false 0 ["1"] "Runtime error: division by zero")).
Proof.
  split; (eexists; split; [vm_compute; reflexivity |]);
    intros k; apply (run_fuel_monotone 40 (40 + k)); [lia | | lia |];
    vm_compute; reflexivity.
Qed.

(** C7, counterexample: the text of Scenario C is not a program.  The
    print statement takes primary expressions only, so it ends after [1];
    the next statement would have to start at [==], and the parser raises
    "Expected expression", on every budget from 40 up.  Nothing reaches
    the interpreter. *)
Lemma C7_print_of_a_comparison_does_not_parse :
  Parser.parse 40 (Lexer.tokenize Samples.scenarioC_source)
  = Parser.ParseError "Expected expression" /\
  (forall fuel, (40 <= fuel)%nat ->
     Samples.interpret fuel Samples.scenarioC_source []
     = Parser.ParseError "Expected expression").
Proof.
  assert (H : Parser.parse 40 (Lexer.tokenize Samples.scenarioC_source)
              = Parser.ParseError "Expected expression")
    by (vm_compute; reflexivity).
  split; [exact H |].
  intros fuel Hfuel. unfold Samples.interpret.
  rewrite (parse_fuel_monotone _ 40 fuel _ Hfuel H I). reflexivity.
Qed.

(** C7, amended: [==] returns true exactly when the printed forms of its
    two operands are equal strings and [!=] returns the negation; Int 1 and
    Float 1.0 both print as [1] and so compare equal; and the program
    [func main() -> int { print (1==1); return 0; }], with the comparison
    in parentheses, produces the output log ["true"]. *)
Theorem C7_equality_compares_printed_forms :
  (forall (functions : gmap string FunctionDecl) (fuel : nat)
          (l r : Expr) (o : Token) (lv rv : RuntimeValue) (st st1 st2 : state),
     evaluateExpression functions fuel l st = (Normal lv, st1) ->
     evaluateExpression functions fuel r st1 = (Normal rv, st2) ->
     (type o = Tokens.EQUALS ->
      evaluateExpression functions (S fuel) (BinaryExpr l o r) st
      = (Normal (FromBool (bool_decide (toString lv = toString rv))), st2)) /\
     (type o = Tokens.NOT_EQUALS ->
      evaluateExpression functions (S fuel) (BinaryExpr l o r) st
      = (Normal (FromBool (negb (bool_decide (toString lv = toString rv)))), st2))) /\
  (exists one, stod "1.0" = Ok one /\
     toString (FromFloat one) = "1" /\ toString (FromInt 1) = "1") /\
  (exists p,
     Parser.parse 40 (Lexer.tokenize Samples.scenarioC_parenthesised_source)
     = Parser.Parsed p /\
     forall fuel, (40 <= fuel)%nat ->
       run fuel (Some p) [] = Some (mkResult true 0 ["true"] "")).
Proof.
  split; [| split].
  - intros functions fuel l r o lv rv st st1 st2 Hl Hr.
    split; intros Ho;
      cbn [evaluateExpression evaluateExpressionBody];
      unfold evaluateBinary, bindM; rewrite Hl, Hr, Ho;
      rewrite String_eqb_decide; reflexivity.
  - eexists. split; [vm_compute; reflexivity |].
    split; vm_compute; reflexivity.
  - eexists. split; [vm_compute; reflexivity |].
    intros fuel Hfuel. apply (run_fuel_monotone 40 fuel _ _ _ Hfuel).
    vm_compute. reflexivity.
Qed.

Lemma C7_equality_compares_printed_forms_witness :
  let lit t s := LiteralExpr (Tokens.mkToken t s 1 1) in
  let st := mkState [] [] [] "" in
  evaluateExpression ∅ 2
    (BinaryExpr (lit Tokens.NUMBER "1") (Tokens.mkToken Tokens.EQUALS "==" 1 1)
                (lit Tokens.FLOAT "1.0")) st
  = (Normal (FromBool true), st).
Proof.
  cbv zeta.
  refine (proj1 (proj1 C7_equality_compares_printed_forms ∅ 1%nat
            (LiteralExpr (Tokens.mkToken Tokens.NUMBER "1" 1 1))
            (LiteralExpr (Tokens.mkToken Tokens.FLOAT "1.0" 1 1))
            (Tokens.mkToken Tokens.EQUALS "==" 1 1)
            (FromInt 1) (FromFloat (double_of_Z 1))
            (mkState [] [] [] "") (mkState [] [] [] "") (mkState [] [] [] "")
            _ _) _); vm_compute; reflexivity.
Defined.

(** ** The scenarios of the specification that run as written *)

Example scenario_A :
  Samples.interpret 40 Samples.scenarioA_source []
  = Parser.Parsed (Some (mkResult true 14 ["14"] "")).
Proof. vm_compute. reflexivity. Qed.

Example scenario_B :
  Samples.interpret 40 Samples.scenarioB_source []
  = Parser.Parsed (Some (mkResult true 0 ["3"] "")).
Proof. vm_compute. reflexivity. Qed.

Example scenario_D :
  Samples.interpret 40 Samples.scenarioD_source []
  = Parser.Parsed
      (Some (mkResult false 0 [] "Runtime error: sequence index out of range")).
Proof. vm_compute. reflexivity. Qed.

End InterpreterClaims.
(* ===================================================================== *)
(** * Further properties of the optimizer *)
(* ===================================================================== *)

Section OptimizerMore.
Import Cxx Optimizer.

(** ** Constants *)

Lemma stoi_to_string (z : Z) :
  INT_MIN <= z <= INT_MAX -> stoi (to_string z) = Ok z.
Proof.
  intros Hz. unfold stoi.
  destruct (scan_integer_to_string z) as [n ->].
  destruct (Z.leb_spec INT_MIN z); [| lia].
  destruct (Z.leb_spec z INT_MAX); [| lia]. reflexivity.
Qed.

Lemma isConstant_to_string (z : Z) : isConstant (to_string z) = true.
Proof.
  destruct z as [| p | p].
  - reflexivity.
  - pose proof (to_string_pos_all_digits p) as Hd.
    change (to_string (Z.pos p)) with (pretty (N.pos p)) in *.
    destruct (pretty_positive_digit_led p) as [c [r [Hs Hc]]].
    rewrite Hs in *. unfold isConstant.
    assert (Ascii.eqb c "-" || Ascii.eqb c "+" = false) as ->
      by (destruct c as [[] [] [] [] [] [] [] []]; try discriminate Hc; reflexivity).
    exact Hd.
  - pose proof (to_string_pos_all_digits p) as Hd.
    change (to_string (Z.pos p)) with (pretty (N.pos p)) in Hd.
    change (to_string (Z.neg p)) with (String "-" (pretty (N.pos p))).
    destruct (pretty_positive_digit_led p) as [c [r [Hs Hc]]].
    rewrite Hs in *. exact Hd.
Qed.

Lemma read_digits_count s acc n :
  (n <= snd (fst (read_digits s acc n)))%nat.
Proof.
  revert acc n. induction s as [| c s IH]; intros acc n; simpl; [lia |].
  destruct (isdigit c); simpl; [| lia].
  specialize (IH (10 * acc + digit_value c) (S n)). lia.
Qed.

Lemma all_digits_read s :
  s <> "" -> all_digits s = true ->
  exists v n r, read_digits s 0 0 = (v, S n, r).
Proof.
  intros Hne Hd. destruct s as [| c s]; [contradiction |].
  simpl in Hd. apply andb_true_iff in Hd as [Hc _].
  pose proof (read_digits_count s (10 * 0 + digit_value c) 1) as Hn.
  simpl. rewrite Hc.
  destruct (read_digits s (10 * 0 + digit_value c) 1) as [[v n] r].
  simpl in Hn. destruct n; [lia |]. eauto.
Qed.

(** What [isConstant] accepts, [std::stoi] can scan. *)
Lemma isConstant_scans s :
  isConstant s = true -> exists v n, scan_integer s = Some (v, n).
Proof.
  unfold isConstant. destruct s as [| c s]; [discriminate |].
  destruct (Ascii.eqb_spec c "-") as [-> | Hm]; simpl orb.
  - intros Hd. rewrite scan_integer_minus.
    destruct (all_digits_read s) as [v [n [r ->]]];
      [destruct s; [discriminate Hd | discriminate] | destruct s; [discriminate | exact Hd] |].
    eauto.
  - destruct (Ascii.eqb_spec c "+") as [-> | Hp].
    + intros Hd. rewrite scan_integer_plus.
      destruct (all_digits_read s) as [v [n [r ->]]];
        [destruct s; [discriminate Hd | discriminate] | destruct s; [discriminate | exact Hd] |].
      eauto.
    + intros Hd. pose proof Hd as Hd'. simpl in Hd'.
      apply andb_true_iff in Hd' as [Hc _].
      rewrite (scan_integer_digit_led c s Hc).
      destruct (all_digits_read (String c s)) as [v [n [r ->]]];
        [discriminate | exact Hd |].
      eauto.
Qed.

Lemma stoi_constant_throws s e :
  isConstant s = true -> stoi s = Throw e -> e = out_of_range "stoi".
Proof.
  intros Hc. unfold stoi. destruct (isConstant_scans s Hc) as [v [n ->]].
  destruct (_ && _); [discriminate |]. intros [= <-]. reflexivity.
Qed.

Lemma mapM_throws {A B} (f : A -> res B) (l : list A) e :
  mapM f l = Throw e -> exists x, In x l /\ f x = Throw e.
Proof.
  induction l as [| a l IH]; [discriminate |].
  simpl. destruct (f a) as [b |] eqn:Hfa; simpl.
  - destruct (mapM f l) as [bs |]; simpl; [discriminate |].
    intros [= <-]. destruct (IH eq_refl) as [x [Hx Hf]].
    exists x. split; [right; exact Hx | exact Hf].
  - intros [= <-]. exists a. split; [left; reflexivity | exact Hfa].
Qed.

Lemma mapM_Forall2 {A B} (f : A -> res B) (l : list A) l' :
  mapM f l = Ok l' -> Forall2 (fun x y => f x = Ok y) l l'.
Proof.
  revert l'. induction l as [| a l IH]; intros l' Hm.
  - injection Hm as <-. constructor.
  - simpl in Hm. destruct (f a) as [b |] eqn:Hfa; [| discriminate Hm].
    simpl in Hm. destruct (mapM f l) as [bs |] eqn:Hl; [| discriminate Hm].
    injection Hm as <-. constructor; [exact Hfa | apply IH; reflexivity].
Qed.

Lemma evaluateConstant_throws o l r e :
  isConstant l = true -> isConstant r = true ->
  evaluateConstant o l r = Throw e ->
  e = out_of_range "stoi" /\ (stoi l = Throw e \/ stoi r = Throw e).
Proof.
  intros Hl Hr. unfold evaluateConstant.
  destruct (stoi l) as [lv | el] eqn:Hsl; simpl.
  - destruct (stoi r) as [rv | er] eqn:Hsr; simpl.
    + repeat (match goal with
              | |- context [if ?b then _ else _] => destruct b
              end; try discriminate).
    + intros [= <-]. split; [exact (stoi_constant_throws r er Hr Hsr) | right; reflexivity].
  - intros [= <-]. split; [exact (stoi_constant_throws l el Hl Hsl) | left; reflexivity].
Qed.

(** ** The set of used temporaries *)

Lemma markUsed_spec u i s :
  s ∈ markUsed u i <->
  s ∈ u \/ (startsWith_t s = true /\ (arg1 i = s \/ arg2 i = s)).
Proof.
  unfold markUsed.
  destruct (startsWith_t (arg1 i)) eqn:H1, (startsWith_t (arg2 i)) eqn:H2;
    rewrite ?elem_of_union, ?elem_of_singleton; split; intros H;
    repeat match goal with
           | H : _ \/ _ |- _ => destruct H
           | H : _ /\ _ |- _ => destruct H
           end; subst; auto; try congruence.
Qed.

Lemma fold_markUsed_spec c u s :
  s ∈ fold_left markUsed c u <->
  s ∈ u \/ (startsWith_t s = true /\ exists i, In i c /\ (arg1 i = s \/ arg2 i = s)).
Proof.
  revert u. induction c as [| i c IH]; intros u; simpl.
  - split; [auto | intros [H | [_ [i [[] _]]]]; exact H].
  - rewrite IH, markUsed_spec. split.
    + intros [[H | [Ht Hi]] | [Ht [j [Hj Ha]]]]; eauto 8.
    + intros [H | [Ht [j [[<- | Hj] Ha]]]]; eauto 8.
Qed.

Lemma isDeadAssign_spec c i :
  isDeadAssign (collectUsedTemps c) i = true <->
  op i = "ASSIGN" /\ startsWith_t (result i) = true /\
  forall j, In j c -> arg1 j <> result i /\ arg2 j <> result i.
Proof.
  unfold isDeadAssign, collectUsedTemps.
  rewrite !andb_true_iff, negb_true_iff, bool_decide_eq_false,
    fold_markUsed_spec, String.eqb_eq.
  split.
  - intros [[Hop Ht] Hn]. repeat split; try assumption.
    + intros E. apply Hn. right. eauto.
    + intros E. apply Hn. right. eauto.
  - intros [Hop [Ht Hn]]. repeat split; try assumption.
    intros [H | [_ [j [Hj Ha]]]]; [set_solver |].
    destruct (Hn j Hj) as [H1 H2]. destruct Ha; contradiction.
Qed.

(** ** Instruction-wise passes *)

Lemma foldInstr_sameTarget i i' : foldInstr i = Ok i' -> sameTarget i i'.
Proof.
  unfold foldInstr. destruct (_ && _).
  - destruct (evaluateConstant _ _ _); simpl; [| discriminate].
    intros [= <-]. split; reflexivity.
  - intros [= <-]. split; reflexivity.
Qed.

Lemma substituteOperands_line m i : line (substituteOperands m i) = line i.
Proof.
  unfold substituteOperands.
  destruct (m !! arg1 i); simpl; destruct (m !! _); reflexivity.
Qed.

Lemma propagateInstr_fst m i : fst (propagateInstr m i) = substituteOperands m i.
Proof.
  unfold propagateInstr. destruct (_ && _); [reflexivity |].
  destruct (negb _); reflexivity.
Qed.

Lemma propagateFrom_sameTarget m c : Forall2 sameTarget c (propagateFrom m c).
Proof.
  revert m. induction c as [| i c IH]; intros m; simpl; [constructor |].
  pose proof (propagateInstr_fst m i) as Hf.
  destruct (propagateInstr m i) as [i' m']. simpl in Hf. subst i'.
  constructor; [| apply IH].
  split; [apply substituteOperands_result | apply substituteOperands_line].
Qed.

Lemma simplifyInstr_sameTarget i : sameTarget i (simplifyInstr i).
Proof.
  unfold simplifyInstr.
  repeat (match goal with
          | |- context [if ?b then _ else _] => destruct b
          end; [split; reflexivity |]).
  split; reflexivity.
Qed.

Lemma sublist_List_filter {A} (p : A -> bool) (l : list A) :
  sublist (List.filter p l) l.
Proof.
  induction l as [| x l IH]; simpl; [constructor |].
  destruct (p x); [apply sublist_skip | apply sublist_cons]; exact IH.
Qed.

(** ** Propagation replaces operands by constants only *)

Lemma substituteOperands_constants m i :
  constantsOnly m -> operandsKeptOrConstant i (substituteOperands m i).
Proof.
  intros Hm. unfold substituteOperands, operandsKeptOrConstant.
  destruct (m !! arg1 i) as [c1 |] eqn:H1; simpl;
    destruct (m !! arg2 i) as [c2 |] eqn:H2; simpl;
    repeat split;
    try (right; eapply (Hm _ _); eassumption); left; reflexivity.
Qed.

Lemma propagateInstr_constantsOnly m i :
  constantsOnly m -> constantsOnly (snd (propagateInstr m i)).
Proof.
  intros Hm. unfold propagateInstr.
  destruct (_ && _) eqn:Hc; simpl.
  - apply andb_true_iff in Hc as [_ Hc].
    apply map_Forall_insert_2; assumption.
  - destruct (negb _); simpl; [apply map_Forall_delete |]; exact Hm.
Qed.

Lemma propagateFrom_constants m c :
  constantsOnly m -> Forall2 operandsKeptOrConstant c (propagateFrom m c).
Proof.
  revert m. induction c as [| i c IH]; intros m Hm; simpl; [constructor |].
  pose proof (propagateInstr_fst m i) as Hf.
  pose proof (propagateInstr_constantsOnly m i Hm) as Hs.
  destruct (propagateInstr m i) as [i' m']. simpl in Hf, Hs. subst i'.
  constructor; [apply substituteOperands_constants; exact Hm | apply IH; exact Hs].
Qed.

Lemma propagateFrom_empty c :
  Forall (fun i => String.eqb (op i) "ASSIGN" && isConstant (arg1 i) = false) c ->
  propagateFrom ∅ c = c.
Proof.
  induction 1 as [| i c Hi _ IH]; [reflexivity |].
  simpl. unfold propagateInstr, substituteOperands.
  rewrite !lookup_empty. simpl. rewrite ?lookup_empty. rewrite Hi.
  destruct (negb _); [rewrite delete_empty |]; rewrite IH; reflexivity.
Qed.

Lemma unreadUntilRedefined_unread temp rest :
  (forall j, In j rest -> arg1 j <> temp /\ arg2 j <> temp) ->
  unreadUntilRedefined temp rest = true.
Proof.
  induction rest as [| j rest IH]; intros H; [reflexivity |].
  simpl. destruct (H j (or_introl eq_refl)) as [H1 H2].
  apply String.eqb_neq in H1, H2. rewrite H1, H2. simpl.
  destruct (String.eqb (result j) temp); [reflexivity |].
  apply IH. intros k Hk. apply H. right. exact Hk.
Qed.


(** X1.  An integer of [int] range printed by [std::to_string] is a
    constant for [isConstant], and [std::stoi] reads it back as the same
    integer. *)
Theorem printed_int_reads_back (z : Z) :
  INT_MIN <= z <= INT_MAX ->
  isConstant (to_string z) = true /\ stoi (to_string z) = Ok z.
Proof.
  intros Hz. split; [apply isConstant_to_string | apply stoi_to_string, Hz].
Qed.

Lemma printed_int_reads_back_witness :
  isConstant (to_string (-42)) = true /\ stoi (to_string (-42)) = Ok (-42).
Proof. apply (printed_int_reads_back (-42)). vm_compute. split; discriminate. Defined.

(** X2.  Constant folding of [+], [-], [*] and [/] on two printed
    integers of [int] range, when the exact result is again in [int] range
    (and, for [/], the divisor is not zero), leaves an Assign of that exact
    result, division being truncated toward zero. *)
Theorem folding_computes_exact_result (a b : Z) (r : string) (ln : Z) :
  INT_MIN <= a <= INT_MAX -> INT_MIN <= b <= INT_MAX ->
  (INT_MIN <= a + b <= INT_MAX ->
   foldInstr (TAC "+" (to_string a) (to_string b) r ln)
   = Ok (TAC "ASSIGN" (to_string (a + b)) "" r ln)) /\
  (INT_MIN <= a - b <= INT_MAX ->
   foldInstr (TAC "-" (to_string a) (to_string b) r ln)
   = Ok (TAC "ASSIGN" (to_string (a - b)) "" r ln)) /\
  (INT_MIN <= a * b <= INT_MAX ->
   foldInstr (TAC "*" (to_string a) (to_string b) r ln)
   = Ok (TAC "ASSIGN" (to_string (a * b)) "" r ln)) /\
  (b <> 0 -> INT_MIN <= Z.quot a b <= INT_MAX ->
   foldInstr (TAC "/" (to_string a) (to_string b) r ln)
   = Ok (TAC "ASSIGN" (to_string (Z.quot a b)) "" r ln)).
Proof.
  intros Ha Hb.
  repeat split; intros; unfold foldInstr, evaluateConstant; simpl;
    rewrite !isConstant_to_string, (stoi_to_string a Ha), (stoi_to_string b Hb);
    simpl.
  - rewrite wrap_int_in_range by assumption. reflexivity.
  - rewrite wrap_int_in_range by assumption. reflexivity.
  - rewrite wrap_int_in_range by assumption. reflexivity.
  - destruct (Z.eqb_spec b 0) as [E | _]; [contradiction |]. simpl.
    rewrite wrap_int_in_range by assumption. reflexivity.
Qed.

Lemma folding_computes_exact_result_witness :
  foldInstr (TAC "+" "7" "-2" "t0" 1) = Ok (TAC "ASSIGN" "5" "" "t0" 1) /\
  foldInstr (TAC "-" "7" "-2" "t0" 1) = Ok (TAC "ASSIGN" "9" "" "t0" 1) /\
  foldInstr (TAC "*" "7" "-2" "t0" 1) = Ok (TAC "ASSIGN" "-14" "" "t0" 1) /\
  foldInstr (TAC "/" "7" "-2" "t0" 1) = Ok (TAC "ASSIGN" "-3" "" "t0" 1).
Proof.
  assert (INT_MIN <= 7 <= INT_MAX) as Ha by (vm_compute; split; discriminate).
  assert (INT_MIN <= -2 <= INT_MAX) as Hb by (vm_compute; split; discriminate).
  destruct (folding_computes_exact_result 7 (-2) "t0" 1 Ha Hb) as [H1 [H2 [H3 H4]]].
  split; [| split; [| split]].
  - apply H1. vm_compute. split; discriminate.
  - apply H2. vm_compute. split; discriminate.
  - apply H3. vm_compute. split; discriminate.
  - apply H4; [discriminate | vm_compute; split; discriminate].
Defined.

(** X3.  The only exception [optimize] lets escape is the
    [std::out_of_range] of [std::stoi], and it comes from an instruction
    that constant folding selects ([+], [-], [*] or [/] on two constants)
    one of whose operands does not fit an [int]. *)
Theorem optimize_throws_only_out_of_range (c : list ThreeAddressCode) (e : exn) :
  optimize c = Throw e ->
  e = out_of_range "stoi" /\
  exists i, In i c /\ isArithOp (op i) = true /\
    isConstant (arg1 i) = true /\ isConstant (arg2 i) = true /\
    (stoi (arg1 i) = Throw e \/ stoi (arg2 i) = Throw e).
Proof.
  unfold optimize. destruct (constantFolding c) as [c1 |] eqn:Hf; simpl;
    [discriminate |].
  intros [= <-]. apply mapM_throws in Hf as [i [Hi Hf]].
  unfold foldInstr in Hf.
  destruct (isArithOp (op i) && isConstant (arg1 i) && isConstant (arg2 i)) eqn:Hc;
    [| discriminate].
  apply andb_true_iff in Hc as [Hc H2]. apply andb_true_iff in Hc as [Hop H1].
  destruct (evaluateConstant (op i) (arg1 i) (arg2 i)) as [v | e'] eqn:He;
    simpl in Hf; [discriminate |].
  injection Hf as ->.
  destruct (evaluateConstant_throws _ _ _ _ H1 H2 He) as [-> Hs].
  split; [reflexivity |]. exists i. auto 10.
Qed.

Lemma optimize_throws_only_out_of_range_witness :
  out_of_range "stoi" = out_of_range "stoi" /\
  exists i, In i [TAC "+" "99999999999" "1" "t0" 1] /\ isArithOp (op i) = true /\
    isConstant (arg1 i) = true /\ isConstant (arg2 i) = true /\
    (stoi (arg1 i) = Throw (out_of_range "stoi")
     \/ stoi (arg2 i) = Throw (out_of_range "stoi")).
Proof.
  apply (optimize_throws_only_out_of_range [TAC "+" "99999999999" "1" "t0" 1]).
  vm_compute. reflexivity.
Defined.

(** X4.  Dead-code elimination keeps the instructions in their order and
    removes exactly the Assigns whose destination starts with [t] and is
    read (as first or second operand) by no instruction of the list. *)
Theorem dce_removes_exactly_unread_t_assigns (c : list ThreeAddressCode) :
  sublist (deadCodeElimination c) c /\
  forall i, In i (deadCodeElimination c) <->
    In i c /\
    ~ (op i = "ASSIGN" /\ startsWith_t (result i) = true /\
       forall j, In j c -> arg1 j <> result i /\ arg2 j <> result i).
Proof.
  split; [apply sublist_List_filter |].
  intros i. unfold deadCodeElimination. rewrite filter_In, negb_true_iff.
  rewrite <- isDeadAssign_spec.
  destruct (isDeadAssign (collectUsedTemps c) i); split; intros [Hi H];
    split; try assumption; try discriminate; try congruence.
Qed.

(** X5.  An instruction that dead-code elimination drops writes a name
    that [isDeadTemp] reports dead at the instruction's index. *)
Theorem dce_removed_is_dead_temp (c : list ThreeAddressCode) (k : nat)
    (i : ThreeAddressCode) :
  c !! k = Some i ->
  isDeadAssign (collectUsedTemps c) i = true ->
  isDeadTemp c (result i) k = true.
Proof.
  intros Hk Hd. apply isDeadAssign_spec in Hd as [_ [Ht Hn]].
  unfold isDeadTemp. rewrite Ht. simpl.
  apply unreadUntilRedefined_unread. intros j Hj. apply Hn.
  apply list_elem_of_In. apply list_elem_of_In in Hj.
  eapply subseteq_drop. exact Hj.
Qed.

Lemma dce_removed_is_dead_temp_witness :
  isDeadTemp [TAC "ASSIGN" "5" "" "t0" 1; TAC "PRINT" "x" "" "" 2] "t0" 0 = true.
Proof.
  apply (dce_removed_is_dead_temp
           [TAC "ASSIGN" "5" "" "t0" 1; TAC "PRINT" "x" "" "" 2] 0
           (TAC "ASSIGN" "5" "" "t0" 1)).
  - reflexivity.
  - vm_compute. reflexivity.
Defined.

(** X6.  [optimize] rewrites instructions in place and then deletes some:
    its output is a subsequence of a list that has, position by position,
    the destination and the source line of the input; so it is never
    longer than the input. *)
Theorem optimize_rewrites_then_deletes (c c' : list ThreeAddressCode) :
  optimize c = Ok c' ->
  (exists c2, Forall2 sameTarget c c2 /\ sublist c' c2) /\
  (length c' <= length c)%nat.
Proof.
  unfold optimize. destruct (constantFolding c) as [c1 |] eqn:Hf; simpl;
    [| discriminate].
  intros [= <-].
  assert (Forall2 sameTarget c (algebraicSimplification (constantPropagation c1)))
    as H2.
  { assert (forall x y z, sameTarget x y -> sameTarget y z -> sameTarget x z) as Ht
      by (intros x y z [H1 H2] [H3 H4]; split; congruence).
    apply (Forall2_trans sameTarget sameTarget sameTarget c
             (constantPropagation c1) _ Ht).
    - apply (Forall2_trans sameTarget sameTarget sameTarget c c1 _ Ht).
      + eapply Forall2_impl; [apply mapM_Forall2, Hf |].
        intros x y. apply foldInstr_sameTarget.
      + apply propagateFrom_sameTarget.
    - unfold algebraicSimplification.
      induction (constantPropagation c1) as [| x l IH]; simpl; constructor;
        [apply simplifyInstr_sameTarget | exact IH]. }
  assert (sublist
            (deadCodeElimination
               (removeRedundantAssignments
                  (algebraicSimplification (constantPropagation c1))))
            (algebraicSimplification (constantPropagation c1))) as Hs.
  { etransitivity; [apply sublist_List_filter |].
    unfold removeRedundantAssignments. rewrite removeRedundantFrom_filter.
    apply sublist_List_filter. }
  split; [eexists; split; eassumption |].
  rewrite (Forall2_length _ _ _ H2). apply sublist_length, Hs.
Qed.

Lemma optimize_rewrites_then_deletes_witness :
  (exists c2, Forall2 sameTarget [TAC "+" "2" "3" "t0" 1; TAC "PRINT" "x" "" "" 2] c2
              /\ sublist [TAC "PRINT" "x" "" "" 2] c2) /\
  (length [TAC "PRINT" "x" "" "" 2]
   <= length [TAC "+" "2" "3" "t0" 1; TAC "PRINT" "x" "" "" 2])%nat.
Proof.
  apply (optimize_rewrites_then_deletes
           [TAC "+" "2" "3" "t0" 1; TAC "PRINT" "x" "" "" 2]).
  vm_compute. reflexivity.
Defined.

(** X7.  Constant propagation changes no operation, and an operand it
    changes becomes an integer constant. *)
Theorem propagation_substitutes_constants_only (c : list ThreeAddressCode) :
  Forall2 operandsKeptOrConstant c (constantPropagation c).
Proof. apply propagateFrom_constants. apply map_Forall_empty. Qed.

(** X8.  Constant propagation leaves unchanged a list in which no
    instruction is an Assign of an integer constant. *)
Theorem propagation_needs_a_constant_assign (c : list ThreeAddressCode) :
  Forall (fun i => String.eqb (op i) "ASSIGN" && isConstant (arg1 i) = false) c ->
  constantPropagation c = c.
Proof. apply propagateFrom_empty. Qed.

Lemma propagation_needs_a_constant_assign_witness :
  constantPropagation [TAC "ASSIGN" "y" "" "x" 1; TAC "+" "x" "1" "t0" 2]
  = [TAC "ASSIGN" "y" "" "x" 1; TAC "+" "x" "1" "t0" 2].
Proof.
  apply (propagation_needs_a_constant_assign
           [TAC "ASSIGN" "y" "" "x" 1; TAC "+" "x" "1" "t0" 2]).
  repeat constructor.
Defined.

End OptimizerMore.
(* ===================================================================== *)
(** * Further properties of the code generator *)
(* ===================================================================== *)

Section CodeGeneratorMore.
Import Cxx Tokens Ast Optimizer CodeGenerator.





Lemma newTemp_isTemporary st : isTemporary (fst (newTemp st)).
Proof. exists (tempCounter st). reflexivity. Qed.




(** The loop of a sequence literal keeps "the last instruction writes [r]". *)
Lemma generateElementsWith_last gen r ln l :
  forall i st,
    (exists code j, intermediateCode st = code ++ [j] /\ result j = r) ->
    exists code j,
      intermediateCode (generateElementsWith gen r ln l i st) = code ++ [j]
      /\ result j = r.
Proof.
  induction l as [| e l IH]; intros i st H; simpl; [exact H |].
  destruct (gen e st) as [elt st1]. apply IH.
  eexists _, _. split; reflexivity.
Qed.


(** X9.  Lowering an If statement appends to the code generated so far
    exactly the instructions of the condition, [IfFalse cond, elseLabel],
    the instructions of the then branch (its statements lowered one after
    another), [Goto endLabel; Label elseLabel], the instructions of the
    else branch and [Label endLabel], in this order.  The two labels are
    allocated after the condition is lowered, which allocates none: with
    [n] the label counter before the statement, the else label is [L]
    followed by [n] and the end label [L] followed by its successor, two
    different names (from [0 <= n < INT_MAX] they are [Ln] and [Ln+1]).
    Both are emitted also when the else branch is empty. *)
Theorem if_statement_shape
    (condition : Expr) (thenBranch elseBranch : list Stmt) (st : state) :
  let ln := Expr_line condition in
  let n := labelCounter st in
  let elseLabel := "L" +:+ to_string n in
  let endLabel := "L" +:+ to_string (wrap_int (n + 1)) in
  let cond := fst (generateExpression condition st) in
  let st1 := snd (generateExpression condition st) in
  let st3 := mkState (intermediateCode st1) (tempCounter st1)
               (wrap_int (wrap_int (n + 1) + 1)) in
  let st4 := emit (TAC "IF_FALSE" cond "" elseLabel ln) st3 in
  let st5 := fold_left (fun s stmt => generateStatement stmt s) thenBranch st4 in
  let st6 := emit (TAC "GOTO" "" "" endLabel ln) st5 in
  let st7 := emit (TAC "LABEL" "" "" elseLabel ln) st6 in
  let st8 := fold_left (fun s stmt => generateStatement stmt s) elseBranch st7 in
  intermediateCode (generateIfStatement condition thenBranch elseBranch st)
  = intermediateCode st
    ++ emittedBetween st st1
    ++ [TAC "IF_FALSE" cond "" elseLabel ln]
    ++ emittedBetween st4 st5
    ++ [TAC "GOTO" "" "" endLabel ln; TAC "LABEL" "" "" elseLabel ln]
    ++ emittedBetween st7 st8
    ++ [TAC "LABEL" "" "" endLabel ln]
  /\ (INT_MIN <= n <= INT_MAX -> elseLabel <> endLabel)
  /\ (0 <= n -> n + 1 <= INT_MAX -> endLabel = "L" +:+ to_string (n + 1))
  /\ (elseBranch = [] ->
      exists code,
        intermediateCode (generateIfStatement condition thenBranch elseBranch st)
        = code ++ [TAC "GOTO" "" "" endLabel ln; TAC "LABEL" "" "" elseLabel ln;
                   TAC "LABEL" "" "" endLabel ln]).
Proof.
  intros ln n elseLabel endLabel cond st1 st3 st4 st5 st6 st7 st8.
  assert (intermediateCode (generateIfStatement condition thenBranch elseBranch st)
          = intermediateCode st8 ++ [TAC "LABEL" "" "" endLabel ln]) as Hlast.
  { unfold generateIfStatement. cbn [generateStatement Stmt_line].
    pose proof (generateExpression_labelCounter condition st) as Hl.
    fold st1 in Hl.
    subst st8 st7 st6 st5 st4 st3 cond st1.
    destruct (generateExpression condition st) as [cond' st1'].
    cbn [fst snd] in *.
    unfold newLabel. cbn [labelCounter tempCounter intermediateCode].
    rewrite !generateStatementsWith_fold. rewrite Hl. reflexivity. }
  split; [| split; [| split]].
  - rewrite Hlast.
    pose proof (generateExpression_extends condition st) as H01. fold st1 in H01.
    pose proof (generateStatements_extends thenBranch st4) as H45.
    unfold generateStatements in H45. rewrite generateStatementsWith_fold in H45.
    fold st5 in H45.
    pose proof (generateStatements_extends elseBranch st7) as H78.
    unfold generateStatements in H78. rewrite generateStatementsWith_fold in H78.
    fold st8 in H78.
    apply extends_emitted in H01, H45, H78.
    rewrite H78. subst st7 st6. cbn [emit intermediateCode].
    rewrite H45. subst st4 st3. cbn [emit intermediateCode].
    rewrite H01. rewrite <- !app_assoc. reflexivity.
  - intros Hn. destruct (wrap_int_successors n Hn) as [H1 _].
    intros E. apply label_inj in E. contradiction.
  - intros H0 H1. subst endLabel.
    rewrite wrap_int_in_range by (unfold INT_MIN, INT_MAX in *; lia). reflexivity.
  - intros ->. rewrite Hlast. subst st8 st7 st6. cbn [fold_left emit intermediateCode].
    exists (intermediateCode st5). rewrite <- !app_assoc. reflexivity.
Qed.

(** The theorem at [if i < 3 { i = i + 1; }], without an else branch,
    lowered when no label and no temporary has been allocated yet. *)
Lemma if_statement_shape_witness :
  let i := mkToken IDENTIFIER "i" 1 4 in
  let number := fun s => LiteralExpr (mkToken NUMBER s 1 1) in
  let condition := BinaryExpr (VariableExpr i) (mkToken LESS "<" 1 6) (number "3") in
  let thenBranch :=
    [AssignmentStmt (mkToken IDENTIFIER "i" 2 3)
       (BinaryExpr (VariableExpr i) (mkToken PLUS "+" 2 9) (number "1"))] in
  intermediateCode (generateIfStatement condition thenBranch [] (mkState [] 0 0))
  = [TAC "<" "i" "3" "t0" 1;
     TAC "IF_FALSE" "t0" "" "L0" 1;
     TAC "+" "i" "1" "t1" 2; TAC "ASSIGN" "t1" "" "i" 2;
     TAC "GOTO" "" "" "L1" 1; TAC "LABEL" "" "" "L0" 1;
     TAC "LABEL" "" "" "L1" 1]
  /\ "L0" <> "L1".
Proof.
  intros i number condition thenBranch.
  pose proof (if_statement_shape condition thenBranch [] (mkState [] 0 0)) as H.
  cbv zeta in H. destruct H as [Hcode [Hdistinct _]].
  split.
  - rewrite Hcode. vm_compute. reflexivity.
  - assert (INT_MIN <= labelCounter (mkState [] 0 0) <= INT_MAX) as Hn
      by (vm_compute; split; discriminate).
    apply Hdistinct in Hn. vm_compute in Hn. exact Hn.
Defined.


(** X11.  The operand that lowering an expression returns is the lexeme
    of a literal or a variable, for which nothing is emitted and no
    counter moves; for every other expression it is a compiler-generated
    temporary, and the last instruction emitted writes it. *)
Theorem expression_operand (e : Expr) (st : state) :
  (exists tok, (e = LiteralExpr tok \/ e = VariableExpr tok)
               /\ generateExpression e st = (lexeme tok, st))
  \/ (isTemporary (fst (generateExpression e st))
      /\ exists code i,
           intermediateCode (snd (generateExpression e st)) = code ++ [i]
           /\ result i = fst (generateExpression e st)).
Proof.
  destruct e as [l o r | o r | v | n | c args | elts].
  - right. simpl.
    destruct (generateExpression l st) as [lhs st1].
    destruct (generateExpression r st1) as [rhs st2]. simpl.
    split; [apply (newTemp_isTemporary st2) |].
    eexists _, _. split; reflexivity.
  - right. simpl.
    destruct (generateExpression r st) as [x st1]. simpl.
    split; [apply (newTemp_isTemporary st1) |].
    eexists _, _. split; reflexivity.
  - left. exists v. split; [left; reflexivity | reflexivity].
  - left. exists n. split; [right; reflexivity | reflexivity].
  - right. simpl.
    destruct (generateArgumentsWith _ _ _ _ _) as [a st2]. simpl.
    split; [apply (newTemp_isTemporary st) |].
    eexists _, _. split; reflexivity.
  - right. simpl.
    split; [apply (newTemp_isTemporary st) |].
    apply generateElementsWith_last.
    eexists _, _. split; reflexivity.
Qed.


End CodeGeneratorMore.
(* ===================================================================== *)
(** * Further properties of the interpreter *)
(* ===================================================================== *)

Section InterpreterMore.
Import Cxx Ast Interpreter.
Import Tokens (Token, lexeme, type).

(** ** Strings *)

Lemma append_assoc (a b c : string) : (a +:+ b) +:+ c = a +:+ (b +:+ c).
Proof.
  induction a as [| x a IH]; [reflexivity |].
  change (String x ((a +:+ b) +:+ c) = String x (a +:+ (b +:+ c))).
  f_equal. exact IH.
Qed.

Lemma append_nil_r (a : string) : a +:+ "" = a.
Proof.
  induction a as [| x a IH]; [reflexivity |].
  change (String x (a +:+ "") = String x a). f_equal. exact IH.
Qed.

(** ** Scopes *)

Lemma set_scopes_same st : set_scopes (scopes st) st = st.
Proof. destruct st. reflexivity. Qed.

Lemma lookupIn_defineIn n v sc : lookupIn n (defineIn n v sc) = Some v.
Proof. destruct sc; simpl; rewrite lookup_insert_eq; reflexivity. Qed.

Lemma lookupIn_defineIn_ne n m v sc :
  m <> n -> lookupIn m (defineIn n v sc) = lookupIn m sc.
Proof.
  intros H. destruct sc as [| f o]; simpl.
  - rewrite lookup_insert_ne by congruence. rewrite lookup_empty. reflexivity.
  - rewrite lookup_insert_ne by congruence. reflexivity.
Qed.

Lemma assignIn_bound n v sc old :
  lookupIn n sc = Some old ->
  exists inner frame outer,
    sc = inner ++ frame :: outer /\
    Forall (fun f => f !! n = None) inner /\
    frame !! n = Some old /\
    assignIn n v sc = Some (inner ++ <[n := v]> frame :: outer).
Proof.
  induction sc as [| f o IH]; simpl; [discriminate |].
  destruct (f !! n) as [x |] eqn:E.
  - intros [= ->]. exists [], f, o. repeat split; [constructor | exact E].
  - intros H. destruct (IH H) as [inner [frame [outer [-> [Hi [Hf Ha]]]]]].
    exists (f :: inner), frame, outer. rewrite Ha.
    repeat split; [constructor; assumption | exact Hf].
Qed.

Lemma lookupIn_updated n v inner frame outer :
  Forall (fun f => f !! n = None) inner ->
  lookupIn n (inner ++ <[n := v]> frame :: outer) = Some v.
Proof.
  induction 1 as [| f inner Hf _ IH]; simpl.
  - rewrite lookup_insert_eq. reflexivity.
  - rewrite Hf. exact IH.
Qed.

Lemma lookupIn_updated_ne n m v inner (frame : gmap string RuntimeValue) outer :
  m <> n ->
  lookupIn m (inner ++ <[n := v]> frame :: outer)
  = lookupIn m (inner ++ frame :: outer).
Proof.
  intros H. induction inner as [| f inner IH]; simpl.
  - rewrite lookup_insert_ne by congruence. reflexivity.
  - rewrite IH. reflexivity.
Qed.

(** ** The function table *)

Lemma functionTable_kept (fs : list FunctionDecl) (n : string)
    (m : gmap string FunctionDecl) :
  (forall f, In f fs -> lexeme (name f) <> n) ->
  fold_left (fun m f => <[lexeme (name f) := f]> m) fs m !! n = m !! n.
Proof.
  revert m. induction fs as [| f fs IH]; intros m Hfs; simpl; [reflexivity |].
  rewrite IH by (intros g Hg; apply Hfs; right; exact Hg).
  apply lookup_insert_ne. apply Hfs. left. reflexivity.
Qed.

(** X13.  After [define n v] the name [n] reads as [v] and every other
    name reads as before; a definition made in a freshly pushed frame is
    undone by popping the frame. *)
Theorem define_then_get (n : string) (v : RuntimeValue) (st : state) :
  get n (snd (define n v st)) = (Normal v, snd (define n v st)) /\
  (forall m, m <> n ->
     lookupIn m (scopes (snd (define n v st))) = lookupIn m (scopes st)) /\
  snd (popScope (snd (define n v (snd (pushScope st))))) = st.
Proof.
  split; [| split].
  - unfold get, define, modify. simpl. rewrite lookupIn_defineIn. reflexivity.
  - intros m Hm. simpl. apply lookupIn_defineIn_ne, Hm.
  - destruct st. reflexivity.
Qed.

(** X14.  [assign] to a name that is bound updates the innermost frame
    that binds it and no other frame; afterwards the name reads as the
    assigned value and every other name reads as before. *)
Theorem assign_updates_nearest_binding
    (n : string) (v old : RuntimeValue) (st : state) :
  lookupIn n (scopes st) = Some old ->
  (exists inner frame outer,
     scopes st = inner ++ frame :: outer /\
     Forall (fun f => f !! n = None) inner /\
     frame !! n = Some old /\
     assign n v st
     = (Normal tt, set_scopes (inner ++ <[n := v]> frame :: outer) st)) /\
  get n (snd (assign n v st)) = (Normal v, snd (assign n v st)) /\
  (forall m, m <> n ->
     lookupIn m (scopes (snd (assign n v st))) = lookupIn m (scopes st)).
Proof.
  intros H.
  destruct (assignIn_bound n v _ _ H) as [inner [frame [outer [Hs [Hi [Hf Ha]]]]]].
  assert (assign n v st
          = (Normal tt, set_scopes (inner ++ <[n := v]> frame :: outer) st)) as E
    by (unfold assign; rewrite Ha; reflexivity).
  split; [exists inner, frame, outer; auto |].
  rewrite E. simpl. split.
  - unfold get. simpl. rewrite (lookupIn_updated n v inner frame outer Hi).
    reflexivity.
  - intros m Hm. rewrite Hs. apply lookupIn_updated_ne, Hm.
Qed.

Lemma assign_updates_nearest_binding_witness :
  let st := mkState [ {["y" := FromInt 1]}; {["x" := FromInt 2]};
                      {["x" := FromInt 3]} ] [] [] "" in
  (exists inner frame outer,
     scopes st = inner ++ frame :: outer /\
     Forall (fun f => f !! "x" = None) inner /\
     frame !! "x" = Some (FromInt 2) /\
     assign "x" (FromInt 7) st
     = (Normal tt, set_scopes (inner ++ <["x" := FromInt 7]> frame :: outer) st)) /\
  get "x" (snd (assign "x" (FromInt 7) st))
  = (Normal (FromInt 7), snd (assign "x" (FromInt 7) st)) /\
  (forall m, m <> "x" ->
     lookupIn m (scopes (snd (assign "x" (FromInt 7) st))) = lookupIn m (scopes st)).
Proof.
  intros st. apply (assign_updates_nearest_binding "x" (FromInt 7) (FromInt 2) st).
  vm_compute. reflexivity.
Defined.

(** X15.  In the function table a name stands for the last function of
    the program that carries it, and a name that no function carries is
    absent. *)
Theorem function_table_last_definition_wins
    (fs1 fs2 : list FunctionDecl) (f : FunctionDecl) :
  (forall g, In g fs2 -> lexeme (name g) <> lexeme (name f)) ->
  initializeFunctionTable (Some (mkProgram (fs1 ++ f :: fs2))) !! lexeme (name f)
  = Some f.
Proof.
  intros H. unfold initializeFunctionTable. simpl.
  rewrite fold_left_app. simpl.
  rewrite functionTable_kept by exact H. apply lookup_insert_eq.
Qed.

Lemma function_table_last_definition_wins_witness :
  let f1 := mkFunctionDecl (Tokens.mkToken Tokens.IDENTIFIER "f" 1 6) [] DT_INT [] in
  let f2 := mkFunctionDecl (Tokens.mkToken Tokens.IDENTIFIER "f" 2 6) [] DT_VOID [] in
  initializeFunctionTable (Some (mkProgram ([f1] ++ f2 :: []))) !! "f" = Some f2.
Proof.
  intros f1 f2.
  apply (function_table_last_definition_wins [f1] [] f2).
  intros g [].
Defined.


(** ** Built-in functions *)

Lemma concat_space_cons (x : string) (xs : list string) :
  String.concat " " (x :: xs)
  = x +:+ String.concat "" (map (fun y => " " +:+ y) xs).
Proof.
  revert x. induction xs as [| y xs IH]; intros x.
  - simpl. symmetry. apply append_nil_r.
  - change (String.concat " " (x :: y :: xs))
      with (x +:+ " " +:+ String.concat " " (y :: xs)).
    rewrite IH. f_equal.
    destruct xs as [| z xs]; simpl.
    + rewrite append_nil_r. reflexivity.
    + rewrite append_assoc. reflexivity.
Qed.

Section BuiltinFacts.
Variable functions : gmap string FunctionDecl.
Variable ev : Expr -> M RuntimeValue.
Variable ef : FunctionDecl -> list RuntimeValue -> M RuntimeValue.

(** The loop of [handlePrint] after its first argument. *)
Lemma printArguments_later l : forall i ln st,
  printArguments ev l (S i) ln st
  = match evaluateAll ev l st with
    | (Normal vs, st') =>
        (Normal (ln +:+ String.concat ""
                          (map (fun y => " " +:+ y) (map toString vs))), st')
    | (Raised s, st') => (Raised s, st')
    | (OutOfFuel, st') => (OutOfFuel, st')
    end.
Proof.
  induction l as [| e l IH]; intros i ln st.
  - simpl. unfold ret. rewrite append_nil_r. reflexivity.
  - simpl. unfold bindM.
    destruct (ev e st) as [[v | s |] st1]; [| reflexivity | reflexivity].
    rewrite IH.
    destruct (evaluateAll ev l st1) as [[vs | s |] st2]; [| reflexivity | reflexivity].
    unfold ret. simpl map.
    destruct vs as [| w vs].
    + simpl. rewrite ?append_nil_r, ?append_assoc. reflexivity.
    + change (String.concat "" ((" " +:+ toString v) :: map (fun y => " " +:+ y) (map toString (w :: vs))))
        with ((" " +:+ toString v) +:+ ""
              +:+ String.concat "" (map (fun y => " " +:+ y) (map toString (w :: vs)))).
      change ("" +:+ String.concat "" (map (fun y => " " +:+ y) (map toString (w :: vs))))
        with (String.concat "" (map (fun y => " " +:+ y) (map toString (w :: vs)))).
      rewrite !append_assoc. reflexivity.
Qed.

Lemma printArguments_first l st :
  printArguments ev l O "" st
  = match evaluateAll ev l st with
    | (Normal vs, st') => (Normal (String.concat " " (map toString vs)), st')
    | (Raised s, st') => (Raised s, st')
    | (OutOfFuel, st') => (OutOfFuel, st')
    end.
Proof.
  destruct l as [| e l]; [reflexivity |].
  simpl. unfold bindM.
  destruct (ev e st) as [[v | s |] st1]; [| reflexivity | reflexivity].
  rewrite printArguments_later.
  destruct (evaluateAll ev l st1) as [[vs | s |] st2]; [| reflexivity | reflexivity].
  unfold ret. simpl map. rewrite concat_space_cons. reflexivity.
Qed.

(** X16.  [print] evaluates its arguments from left to right and then
    appends one line to the output log: their printed forms separated by
    single spaces.  When an argument raises, the print logs nothing. *)
Theorem print_logs_one_line (arguments : list Expr) (st : state) :
  handlePrint ev arguments st
  = match evaluateAll ev arguments st with
    | (Normal vs, st') =>
        (Normal Void,
         mkState (scopes st')
                 (outputLog st' ++ [String.concat " " (map toString vs)])
                 (cin st') (cout st'))
    | (Raised s, st') => (Raised s, st')
    | (OutOfFuel, st') => (OutOfFuel, st')
    end.
Proof.
  unfold handlePrint. unfold bindM at 1. rewrite printArguments_first.
  destruct (evaluateAll ev arguments st) as [[vs | s |] st']; reflexivity.
Qed.

(** X17.  [get(sequence, index)] converts the index to an integer (a
    float is truncated, a boolean counts as 0 or 1), returns the element
    at that position when it lies in [0, length) and otherwise raises
    "sequence index out of range". *)
Theorem get_checks_bounds (a b : Expr) (st st1 st2 : state)
    (l : list RuntimeValue) (index : RuntimeValue) (idx : Z) :
  ev a st = (Normal (FromSequence l), st1) ->
  ev b st1 = (Normal index, st2) ->
  asInt index = Ok idx ->
  (0 <= idx < Z.of_nat (length l) ->
   exists v, l !! Z.to_nat idx = Some v /\
             handleGet ev [a; b] st = (Normal v, st2)) /\
  (~ (0 <= idx < Z.of_nat (length l)) ->
   handleGet ev [a; b] st
   = (Raised (Exception (runtime_error
        "Runtime error: sequence index out of range")), st2)).
Proof.
  intros Ha Hb Hi. unfold handleGet, bindM. rewrite Ha, Hb, Hi. simpl.
  split.
  - intros [H0 H1].
    destruct (Z.ltb_spec idx 0) as [? | _]; [lia |].
    destruct (Z.leb_spec (Z.of_nat (length l)) idx) as [? | _]; [lia |].
    simpl. destruct (lookup_lt_is_Some_2 l (Z.to_nat idx)) as [v Hv]; [lia |].
    exists v. rewrite Hv. split; reflexivity.
  - intros Hn.
    destruct (Z.ltb_spec idx 0) as [? | ?]; [reflexivity |].
    destruct (Z.leb_spec (Z.of_nat (length l)) idx) as [? | ?]; [reflexivity | lia].
Qed.

Lemma filterItems_sublist n items : forall st vs st',
  filterItems functions ef n items st = (Normal vs, st') -> sublist vs items.
Proof.
  induction items as [| x items IH]; intros st vs st'; simpl.
  - intros [= <- _]. constructor.
  - unfold bindM.
    destruct (callUserFunction functions ef n [x] st) as [[keep | s |] st1];
      [| discriminate | discriminate].
    destruct (filterItems functions ef n items st1) as [[ws | s |] st2] eqn:E;
      [| discriminate | discriminate].
    intros [= <- _]. specialize (IH _ _ _ E).
    destruct (asBool keep); [apply sublist_skip | apply sublist_cons]; exact IH.
Qed.

Lemma mapItems_length n items : forall st vs st',
  mapItems functions ef n items st = (Normal vs, st') -> length vs = length items.
Proof.
  induction items as [| x items IH]; intros st vs st'; simpl.
  - intros [= <- _]. reflexivity.
  - unfold bindM.
    destruct (callUserFunction functions ef n [x] st) as [[w | s |] st1];
      [| discriminate | discriminate].
    destruct (mapItems functions ef n items st1) as [[ws | s |] st2] eqn:E;
      [| discriminate | discriminate].
    intros [= <- _]. simpl. f_equal. exact (IH _ _ _ E).
Qed.

(** X18.  What [filter(sequence, f)] returns is a sequence made of
    elements of the argument sequence, in their order: the predicate
    decides which elements stay and cannot change or add one. *)
Theorem filter_returns_a_subsequence (a b : Expr) (st st1 st' : state)
    (l : list RuntimeValue) (v : RuntimeValue) :
  ev a st = (Normal (FromSequence l), st1) ->
  handleFilter functions ev ef [a; b] st = (Normal v, st') ->
  exists vs, v = FromSequence vs /\ sublist vs l.
Proof.
  intros Ha. unfold handleFilter, bindM. rewrite Ha.
  destruct (extractFunctionName b st1) as [[n | s |] st2];
    [| discriminate | discriminate].
  destruct (filterItems functions ef n l st2) as [[vs | s |] st3] eqn:E;
    [| discriminate | discriminate].
  intros [= <- _]. exists vs. split; [reflexivity |].
  exact (filterItems_sublist _ _ _ _ _ E).
Qed.

(** X19.  What [map(sequence, f)] returns is a sequence of the length of
    the argument sequence. *)
Theorem map_keeps_the_length (a b : Expr) (st st1 st' : state)
    (l : list RuntimeValue) (v : RuntimeValue) :
  ev a st = (Normal (FromSequence l), st1) ->
  handleMap functions ev ef [a; b] st = (Normal v, st') ->
  exists vs, v = FromSequence vs /\ length vs = length l.
Proof.
  intros Ha. unfold handleMap, bindM. rewrite Ha.
  destruct (extractFunctionName b st1) as [[n | s |] st2];
    [| discriminate | discriminate].
  destruct (mapItems functions ef n l st2) as [[vs | s |] st3] eqn:E;
    [| discriminate | discriminate].
  intros [= <- _]. exists vs. split; [reflexivity |].
  exact (mapItems_length _ _ _ _ _ E).
Qed.

End BuiltinFacts.


Lemma get_checks_bounds_witness :
  let ev := evaluateExpression ∅ 5 in
  let number := fun s => LiteralExpr (Tokens.mkToken Tokens.NUMBER s 1 1) in
  let a := SequenceExpr [number "10"; number "20"] in
  let b := number "1" in
  let st := mkState [] [] [] "" in
  let l := [FromInt 10; FromInt 20] in
  (0 <= 1 < Z.of_nat (length l) ->
   exists v, l !! Z.to_nat 1 = Some v /\
             handleGet ev [a; b] st = (Normal v, st)) /\
  (~ (0 <= 1 < Z.of_nat (length l)) ->
   handleGet ev [a; b] st
   = (Raised (Exception (runtime_error
        "Runtime error: sequence index out of range")), st)).
Proof.
  intros ev number a b st l.
  apply (get_checks_bounds ev a b st st st l (FromInt 1) 1);
    vm_compute; reflexivity.
Defined.

Lemma filter_returns_a_subsequence_witness :
  exists vs, FromSequence [FromInt 2; FromInt 3] = FromSequence vs
             /\ sublist vs [FromInt 1; FromInt 2; FromInt 3].
Proof.
  pose (tok := fun t s => Tokens.mkToken t s 1 1).
  pose (number := fun s => LiteralExpr (tok Tokens.NUMBER s)).
  pose (keep :=
    mkFunctionDecl (tok Tokens.IDENTIFIER "keep")
      [(tok Tokens.IDENTIFIER "x", DT_INT)] DT_BOOL
      [ReturnStmt (Some (BinaryExpr (VariableExpr (tok Tokens.IDENTIFIER "x"))
                                    (tok Tokens.GREATER ">") (number "1")))]).
  pose (functions := {["keep" := keep]} : gmap string FunctionDecl).
  pose (st := mkState [] [] [] "").
  apply (filter_returns_a_subsequence functions
           (evaluateExpression functions 6) (executeFunction functions 6)
           (SequenceExpr [number "1"; number "2"; number "3"])
           (VariableExpr (tok Tokens.IDENTIFIER "keep"))
           st st st [FromInt 1; FromInt 2; FromInt 3]);
    vm_compute; reflexivity.
Defined.

Lemma map_keeps_the_length_witness :
  exists vs, FromSequence [FromInt 2; FromInt 3] = FromSequence vs
             /\ length vs = length [FromInt 1; FromInt 2].
Proof.
  pose (tok := fun t s => Tokens.mkToken t s 1 1).
  pose (number := fun s => LiteralExpr (tok Tokens.NUMBER s)).
  pose (next :=
    mkFunctionDecl (tok Tokens.IDENTIFIER "next")
      [(tok Tokens.IDENTIFIER "x", DT_INT)] DT_INT
      [ReturnStmt (Some (BinaryExpr (VariableExpr (tok Tokens.IDENTIFIER "x"))
                                    (tok Tokens.PLUS "+") (number "1")))]).
  pose (functions := {["next" := next]} : gmap string FunctionDecl).
  pose (st := mkState [] [] [] "").
  apply (map_keeps_the_length functions
           (evaluateExpression functions 6) (executeFunction functions 6)
           (SequenceExpr [number "1"; number "2"])
           (VariableExpr (tok Tokens.IDENTIFIER "next"))
           st st st [FromInt 1; FromInt 2]);
    vm_compute; reflexivity.
Defined.

(** ** Binding the parameters of a call *)

Lemma set_scopes_twice sc sc' st :
  set_scopes sc (set_scopes sc' st) = set_scopes sc st.
Proof. reflexivity. Qed.

(** X20.  The parameter loop of a call binds, in the innermost frame and
    nowhere else, each parameter to the argument at its position, and to
    [Void] when the call has fewer arguments; arguments beyond the
    parameters are dropped, and other names of the frame are untouched.
    (Parameter names pairwise different.) *)
Theorem parameters_bound_by_position (ps : list (Token * DataType)) :
  forall (args : list RuntimeValue) (st : state)
         (frame : gmap string RuntimeValue) outer,
  scopes st = frame :: outer ->
  NoDup (map (fun p => lexeme (fst p)) ps) ->
  exists frame',
    bindParameters ps args st = (Normal tt, set_scopes (frame' :: outer) st) /\
    (forall i p, ps !! i = Some p ->
       frame' !! lexeme (fst p) = Some (default Void (args !! i))) /\
    (forall n, (forall p, In p ps -> lexeme (fst p) <> n) ->
       frame' !! n = frame !! n).
Proof.
  induction ps as [| [p ty] ps IH]; intros args st frame outer Hs Hnd.
  - exists frame. simpl. unfold ret. rewrite <- Hs, set_scopes_same.
    split; [reflexivity |]. split; [intros i p Hp; destruct i; discriminate Hp |].
    reflexivity.
  - simpl in Hnd. apply NoDup_cons in Hnd as [Hp Hnd].
    set (a0 := match args with a :: _ => a | [] => Void end).
    destruct (IH (tail args) (set_scopes (<[lexeme p := a0]> frame :: outer) st)
                (<[lexeme p := a0]> frame) outer eq_refl Hnd)
      as [frame' [Hb [Hi Hn]]].
    exists frame'. split; [| split].
    + simpl. unfold bindM, define, modify. fold a0. rewrite Hs. simpl.
      rewrite Hb. reflexivity.
    + intros i q Hq. destruct i as [| i]; simpl in Hq.
      * injection Hq as <-. simpl. rewrite Hn.
        -- rewrite lookup_insert_eq. unfold a0. destruct args; reflexivity.
        -- intros q Hq E. apply Hp. rewrite <- E.
           apply list_elem_of_In, in_map_iff. exists q. split; [reflexivity | exact Hq].
      * rewrite (Hi i q Hq). destruct args; reflexivity.
    + intros n Hq. rewrite Hn by (intros q Hin; apply Hq; right; exact Hin).
      apply lookup_insert_ne. apply (Hq (p, ty)). left. reflexivity.
Qed.

Lemma parameters_bound_by_position_witness :
  let x := Tokens.mkToken Tokens.IDENTIFIER "x" 1 1 in
  let y := Tokens.mkToken Tokens.IDENTIFIER "y" 1 1 in
  let ps := [(x, DT_INT); (y, DT_INT)] in
  let st := mkState [∅] [] [] "" in
  exists frame',
    bindParameters ps [FromInt 4] st = (Normal tt, set_scopes (frame' :: []) st) /\
    (forall i p, ps !! i = Some p ->
       frame' !! lexeme (fst p) = Some (default Void ([FromInt 4] !! i))) /\
    (forall n, (forall p, In p ps -> lexeme (fst p) <> n) ->
       frame' !! n = (∅ : gmap string RuntimeValue) !! n).
Proof.
  intros x y ps st.
  apply (parameters_bound_by_position ps [FromInt 4] st ∅ []).
  - reflexivity.
  - apply NoDup_cons. split.
    + intros H. apply list_elem_of_In in H. destruct H as [H | []]. discriminate H.
    + apply NoDup_cons. split; [intros H; apply list_elem_of_In in H; destruct H | apply NoDup_nil_2].
Defined.

(** ** Reading a line of input *)

Lemma read_digits_consumed s : forall acc n v m r,
  read_digits s acc n = (v, m, r) ->
  (m + String.length r = n + String.length s)%nat.
Proof.
  induction s as [| c s IH]; intros acc n v m r; simpl.
  - intros [= <- <- <-]. reflexivity.
  - destruct (isdigit c).
    + intros H. apply IH in H. lia.
    + intros [= <- <- <-]. reflexivity.
Qed.

Lemma scan_integer_to_string_length (z : Z) :
  scan_integer (to_string z) = Some (z, String.length (to_string z)).
Proof.
  destruct z as [| p | p].
  - reflexivity.
  - change (to_string (Z.pos p)) with (pretty (N.pos p)).
    destruct (pretty_positive_digit_led p) as [c [r [Hs Hc]]].
    destruct (read_digits_pretty_positive p) as [k [Hk Hr]].
    pose proof (read_digits_consumed _ _ _ _ _ _ Hr) as Hlen.
    rewrite Hs in *. rewrite (scan_integer_digit_led c r Hc), Hr.
    destruct k; [contradiction |]. simpl in Hlen. do 2 f_equal. simpl. lia.
  - change (to_string (Z.neg p)) with (String "-" (pretty (N.pos p))).
    destruct (read_digits_pretty_positive p) as [k [Hk Hr]].
    pose proof (read_digits_consumed _ _ _ _ _ _ Hr) as Hlen.
    rewrite scan_integer_minus, Hr.
    destruct k; [contradiction |]. simpl in Hlen. do 2 f_equal. simpl. lia.
Qed.

Lemma to_string_nonempty (z : Z) : to_string z <> "".
Proof.
  intros H. pose proof (scan_integer_to_string_length z) as Hs.
  rewrite H in Hs. discriminate Hs.
Qed.

(** X21.  [input()] writes the prompt ["> "] to the console, consumes one
    line of the input and, when the line without its leading and trailing
    blanks is a printed integer of [long long] range, returns that
    integer. *)
Theorem input_reads_a_printed_integer (ev : Expr -> M RuntimeValue)
    (z : Z) (l : string) (rest : list string) (st : state) :
  cin st = l :: rest ->
  trim l = to_string z ->
  LLONG_MIN <= z <= LLONG_MAX ->
  handleInput ev [] st
  = (Normal (FromInt z),
     mkState (scopes st) (outputLog st) rest (cout st +:+ "> ")).
Proof.
  intros Hc Ht Hz. unfold handleInput, bindM, write_cout, modify, getline, ret.
  simpl. rewrite Hc, Ht.
  destruct (String.eqb_spec (to_string z) "") as [E | _];
    [destruct (to_string_nonempty z E) |].
  unfold parseInputLine, stoll_idx.
  rewrite scan_integer_to_string_length.
  destruct (Z.leb_spec LLONG_MIN z); [| lia].
  destruct (Z.leb_spec z LLONG_MAX); [| lia]. simpl.
  rewrite Nat.eqb_refl. reflexivity.
Qed.

Lemma input_reads_a_printed_integer_witness :
  handleInput (evaluateExpression ∅ 1) [] (mkState [] [] ["  -42 "; "7"] "")
  = (Normal (FromInt (-42)), mkState [] [] ["7"] "> ").
Proof.
  apply (input_reads_a_printed_integer (evaluateExpression ∅ 1) (-42) "  -42 " ["7"]
           (mkState [] [] ["  -42 "; "7"] "")).
  - reflexivity.
  - vm_compute. reflexivity.
  - vm_compute. split; discriminate.
Defined.


(** ** What every execution respects *)

Lemma streamsAdvance_same st st' :
  outputLog st' = outputLog st -> cin st' = cin st -> cout st' = cout st ->
  streamsAdvance st st'.
Proof.
  intros Hl Hi Ho. split; [| split].
  - exists []. rewrite app_nil_r. exact Hl.
  - exists 0%nat. rewrite drop_0. exact Hi.
  - exists "". rewrite append_nil_r. exact Ho.
Qed.

Lemma streamsAdvance_refl st : streamsAdvance st st.
Proof. apply streamsAdvance_same; reflexivity. Qed.

Lemma streamsAdvance_trans st1 st2 st3 :
  streamsAdvance st1 st2 -> streamsAdvance st2 st3 -> streamsAdvance st1 st3.
Proof.
  intros [[d1 Hd1] [[k1 Hk1] [s1 Hs1]]] [[d2 Hd2] [[k2 Hk2] [s2 Hs2]]].
  split; [| split].
  - exists (d1 ++ d2). rewrite Hd2, Hd1. symmetry. apply app_assoc.
  - exists (k1 + k2)%nat. rewrite Hk2, Hk1. apply drop_drop.
  - exists (s1 +:+ s2). rewrite Hs2, Hs1. apply append_assoc.
Qed.

Section Respects.
Variable ok : signal -> Prop.
Hypothesis Hok : forall e, ok (Exception e).

Lemma respects_ret {A} (a : A) : respects ok (ret a).
Proof. intros st o st' [= <- <-]. split; [apply streamsAdvance_refl | exact I]. Qed.

Lemma respects_outOfFuel {A} : respects ok (@outOfFuel A).
Proof. intros st o st' [= <- <-]. split; [apply streamsAdvance_refl | exact I]. Qed.

Lemma respects_throw {A} w : respects ok (@throw A w).
Proof. intros st o st' [= <- <-]. split; [apply streamsAdvance_refl | apply Hok]. Qed.

Lemma respects_lift {A} (r : res A) : respects ok (lift r).
Proof.
  destruct r; intros st o st' [= <- <-];
    (split; [apply streamsAdvance_refl |]); [exact I | apply Hok].
Qed.

Lemma respects_bind {A B} (m : M A) (k : A -> M B) :
  respects ok m -> (forall a, respects ok (k a)) -> respects ok (bindM m k).
Proof.
  intros Hm Hk st o st' H. unfold bindM in H.
  destruct (m st) as [[a | s |] st1] eqn:E; destruct (Hm _ _ _ E) as [H1 Ho].
  - destruct (Hk a _ _ _ H) as [H2 Ho2].
    split; [eapply streamsAdvance_trans; eassumption | exact Ho2].
  - injection H as <- <-. split; assumption.
  - injection H as <- <-. split; [assumption | exact I].
Qed.

Lemma respects_modify (f : state -> state) :
  (forall st, streamsAdvance st (f st)) -> respects ok (modify f).
Proof. intros Hf st o st' [= <- <-]. split; [apply Hf | exact I]. Qed.

Lemma respects_pushScope : respects ok pushScope.
Proof. apply respects_modify. intros st. apply streamsAdvance_same; reflexivity. Qed.

Lemma respects_popScope : respects ok popScope.
Proof. apply respects_modify. intros st. apply streamsAdvance_same; reflexivity. Qed.

Lemma respects_define n v : respects ok (define n v).
Proof. apply respects_modify. intros st. apply streamsAdvance_same; reflexivity. Qed.

Lemma respects_assign n v : respects ok (assign n v).
Proof.
  intros st o st'. unfold assign.
  destruct (assignIn n v (scopes st)).
  - intros [= <- <-]. split; [apply streamsAdvance_same; reflexivity | exact I].
  - apply respects_define.
Qed.

Lemma respects_get n : respects ok (get n).
Proof.
  intros st o st'. unfold get. destruct (lookupIn n (scopes st)).
  - apply respects_ret.
  - apply respects_throw.
Qed.

Lemma respects_write_cout s : respects ok (write_cout s).
Proof.
  apply respects_modify. intros st. split; [| split]; simpl.
  - exists []. symmetry. apply app_nil_r.
  - exists 0%nat. reflexivity.
  - exists s. reflexivity.
Qed.

Lemma respects_getline : respects ok getline.
Proof.
  intros st o st'. unfold getline. destruct (cin st) as [| l rest] eqn:E.
  - apply respects_ret.
  - intros [= <- <-]. split; [| exact I]. split; [| split]; simpl.
    + exists []. symmetry. apply app_nil_r.
    + exists 1%nat. rewrite E. reflexivity.
    + exists "". symmetry. apply append_nil_r.
Qed.

Lemma respects_log ln :
  respects ok
    (modify (fun st => mkState (scopes st) (outputLog st ++ [ln]) (cin st) (cout st))).
Proof.
  apply respects_modify. intros st. split; [| split]; simpl.
  - exists [ln]. reflexivity.
  - exists 0%nat. reflexivity.
  - exists "". symmetry. apply append_nil_r.
Qed.

(** Closes a goal [respects ok body] from the facts about the pieces. *)
Ltac respects_step :=
  first
    [ assumption
    | match goal with H : forall x, respects _ (?f x) |- respects _ (?f _) => apply H end
    | match goal with H : forall x y, respects _ (?f x y) |- respects _ (?f _ _) => apply H end
    | apply respects_ret
    | apply respects_throw
    | apply respects_lift
    | apply respects_pushScope
    | apply respects_popScope
    | apply respects_define
    | apply respects_assign
    | apply respects_get
    | apply respects_write_cout
    | apply respects_getline
    | apply respects_log
    | apply respects_bind; [| intros ?]
    | match goal with |- respects _ (match ?x with _ => _ end) => destruct x end ].

Ltac respects_auto := repeat respects_step.

Lemma respects_ensureNumeric v o : respects ok (ensureNumeric v o).
Proof. unfold ensureNumeric. respects_auto. Qed.

Lemma respects_extractFunctionName e : respects ok (extractFunctionName e).
Proof. unfold extractFunctionName. respects_auto. Qed.

Lemma respects_performNumeric f l r : respects ok (performNumeric f l r).
Proof. unfold performNumeric. respects_auto. Qed.

Lemma respects_compareNumeric f l r : respects ok (compareNumeric f l r).
Proof. unfold compareNumeric. respects_auto. Qed.

Section RespectsExpressions.
Variable functions : gmap string FunctionDecl.
Variable ev : Expr -> M RuntimeValue.
Variable ef : FunctionDecl -> list RuntimeValue -> M RuntimeValue.
Hypothesis Hev : forall e, respects ok (ev e).
Hypothesis Hef : forall f args, respects ok (ef f args).

Lemma respects_evaluateAll l : respects ok (evaluateAll ev l).
Proof. induction l as [| e l IH]; simpl; respects_auto. Qed.

Lemma respects_callUserFunction n args :
  respects ok (callUserFunction functions ef n args).
Proof. unfold callUserFunction. respects_auto. Qed.

Lemma respects_evaluateBinary l o r : respects ok (evaluateBinary ev l o r).
Proof.
  unfold evaluateBinary.
  repeat first [ apply respects_performNumeric | apply respects_compareNumeric
               | respects_step ].
Qed.

Lemma respects_evaluateUnary o r : respects ok (evaluateUnary ev o r).
Proof.
  unfold evaluateUnary.
  repeat first [ apply respects_ensureNumeric | respects_step ].
Qed.

Lemma respects_evaluateLiteral v : respects ok (evaluateLiteral v).
Proof. unfold evaluateLiteral. respects_auto. Qed.

Lemma respects_evaluateSequence l : respects ok (evaluateSequence ev l).
Proof.
  unfold evaluateSequence.
  apply respects_bind; [apply respects_evaluateAll | intros ?; apply respects_ret].
Qed.

Lemma respects_printArguments l :
  forall i ln, respects ok (printArguments ev l i ln).
Proof. induction l as [| e l IH]; intros i ln; simpl; respects_auto. Qed.

Lemma respects_handlePrint l : respects ok (handlePrint ev l).
Proof.
  unfold handlePrint.
  apply respects_bind; [apply respects_printArguments | intros ?].
  respects_auto.
Qed.

Lemma respects_handleLength l : respects ok (handleLength ev l).
Proof. unfold handleLength. respects_auto. Qed.

Lemma respects_handleGet l : respects ok (handleGet ev l).
Proof. unfold handleGet. respects_auto. Qed.

Lemma respects_mapItems n items : respects ok (mapItems functions ef n items).
Proof.
  induction items as [| x items IH]; simpl; [apply respects_ret |].
  apply respects_bind; [apply respects_callUserFunction | intros ?].
  apply respects_bind; [exact IH | intros ?; apply respects_ret].
Qed.

Lemma respects_filterItems n items : respects ok (filterItems functions ef n items).
Proof.
  induction items as [| x items IH]; simpl; [apply respects_ret |].
  apply respects_bind; [apply respects_callUserFunction | intros ?].
  apply respects_bind; [exact IH | intros ?; apply respects_ret].
Qed.

Lemma respects_handleMap l : respects ok (handleMap functions ev ef l).
Proof.
  unfold handleMap.
  destruct l as [| a [| b [| c l]]]; try apply respects_throw.
  apply respects_bind; [apply Hev | intros v].
  destruct v; try apply respects_throw.
  apply respects_bind; [apply respects_extractFunctionName | intros ?].
  apply respects_bind; [apply respects_mapItems | intros ?; apply respects_ret].
Qed.

Lemma respects_handleFilter l : respects ok (handleFilter functions ev ef l).
Proof.
  unfold handleFilter.
  destruct l as [| a [| b [| c l]]]; try apply respects_throw.
  apply respects_bind; [apply Hev | intros v].
  destruct v; try apply respects_throw.
  apply respects_bind; [apply respects_extractFunctionName | intros ?].
  apply respects_bind; [apply respects_filterItems | intros ?; apply respects_ret].
Qed.

Lemma respects_handleGenerate l : respects ok (handleGenerate ev l).
Proof.
  unfold handleGenerate.
  apply respects_bind; [apply respects_evaluateAll | intros ?; apply respects_ret].
Qed.

Lemma respects_handleInput l : respects ok (handleInput ev l).
Proof.
  unfold handleInput.
  destruct l as [| a [| b l]]; try apply respects_throw; respects_auto.
Qed.

Lemma respects_evaluateCall c l :
  respects ok (evaluateCall functions ev ef c l).
Proof.
  unfold evaluateCall.
  repeat match goal with
         | |- respects _ (if ?b then _ else _) => destruct b
         end;
    auto using respects_handlePrint, respects_handleLength, respects_handleGet,
      respects_handleMap, respects_handleFilter, respects_handleGenerate,
      respects_handleInput.
  apply respects_bind; [apply respects_evaluateAll | intros ?].
  apply respects_callUserFunction.
Qed.

Lemma respects_evaluateExpressionBody e :
  respects ok (evaluateExpressionBody functions ev ef e).
Proof.
  destruct e; simpl;
    auto using respects_evaluateBinary, respects_evaluateUnary,
      respects_evaluateLiteral, respects_evaluateCall, respects_evaluateSequence.
  apply respects_get.
Qed.

End RespectsExpressions.
End Respects.

Lemma respects_weaken {A} (ok ok' : signal -> Prop) (m : M A) :
  (forall s, ok s -> ok' s) -> respects ok m -> respects ok' m.
Proof.
  intros Hs Hm st o st' H. destruct (Hm _ _ _ H) as [H1 H2].
  split; [exact H1 |]. destruct o; auto.
Qed.

Section RespectsStatements.
Variable ev : Expr -> M RuntimeValue.
Variable ex : Stmt -> M unit.
Hypothesis Hev : forall e, respects isException (ev e).
Hypothesis Hex : forall s, respects anySignal (ex s).

Lemma respects_ev_any e : respects anySignal (ev e).
Proof. apply (respects_weaken isException); [intros s _; exact I | apply Hev]. Qed.

Lemma respects_executeAll l : respects anySignal (executeAll ex l).
Proof.
  induction l as [| s l IH]; simpl; [apply respects_ret |].
  apply respects_bind; [apply Hex | intros _; exact IH].
Qed.

Lemma respects_scoped l :
  respects anySignal (pushScope ;; executeAll ex l ;; popScope).
Proof.
  apply respects_bind; [apply respects_pushScope | intros _].
  apply respects_bind; [apply respects_executeAll | intros _].
  apply respects_popScope.
Qed.

Lemma respects_executeBlock l : respects anySignal (executeBlock ex l).
Proof.
  unfold executeBlock.
  apply respects_bind; [apply respects_pushScope | intros _].
  intros st o st' H.
  destruct (executeAll ex l st) as [[[] | s |] st1] eqn:E;
    destruct (respects_executeAll l _ _ _ E) as [H1 _].
  - destruct (respects_popScope anySignal _ _ _ H) as [H2 _].
    split; [eapply streamsAdvance_trans; eassumption | destruct o; exact I].
  - injection H as <- <-. split; [| exact I].
    eapply streamsAdvance_trans; [exact H1 |].
    apply streamsAdvance_same; reflexivity.
  - injection H as <- <-. split; [exact H1 | exact I].
Qed.

Lemma respects_executeStatementBody s :
  respects anySignal (executeStatementBody ev ex s).
Proof.
  destruct s; simpl.
  - apply respects_bind;
      [destruct initializer; [apply respects_ev_any | apply respects_ret]
      | intros ?; apply respects_define].
  - apply respects_bind; [apply respects_ev_any | intros ?; apply respects_assign].
  - apply respects_bind; [apply respects_ev_any | intros c].
    destruct (asBool c); [apply respects_scoped |].
    destruct elseBranch; [apply respects_ret | apply respects_scoped].
  - apply respects_bind; [apply respects_ev_any | intros c].
    destruct (asBool c); [| apply respects_ret].
    apply respects_bind; [apply respects_pushScope | intros _].
    apply respects_bind; [apply respects_executeAll | intros _].
    apply respects_bind; [apply respects_popScope | intros _]. apply Hex.
  - apply respects_bind;
      [destruct value; [apply respects_ev_any | apply respects_ret] | intros v].
    intros st o st' [= <- <-]. split; [apply streamsAdvance_refl | exact I].
  - apply respects_bind; [apply respects_ev_any | intros ?; apply respects_ret].
  - apply respects_executeBlock.
Qed.

Lemma respects_bindParameters ps :
  forall args, respects isException (bindParameters ps args).
Proof.
  induction ps as [| [p ty] ps IH]; intros args; simpl; [apply respects_ret |].
  apply respects_bind; [apply respects_define | intros _; apply IH].
Qed.

(** A call catches the return signal of its body. *)
Lemma respects_executeFunctionBody f args :
  respects isException (executeFunctionBody ex f args).
Proof.
  unfold executeFunctionBody.
  apply respects_bind; [apply respects_pushScope | intros _].
  apply respects_bind; [apply respects_bindParameters | intros _].
  intros st o st' H.
  destruct (executeAll ex (body f) st) as [[[] | [e | v] |] st1] eqn:E;
    destruct (respects_executeAll _ _ _ _ E) as [H1 _];
    injection H as <- <-;
    (split; [| exact I]);
    try (eapply streamsAdvance_trans; [exact H1 |];
         apply streamsAdvance_same; reflexivity).
Qed.

End RespectsStatements.

Lemma respects_fuel functions fuel :
  (forall e, respects isException (evaluateExpression functions fuel e)) /\
  (forall s, respects anySignal (executeStatement functions fuel s)) /\
  (forall f args, respects isException (executeFunction functions fuel f args)).
Proof.
  induction fuel as [| fuel [IHe [IHs IHf]]].
  - split; [| split]; [intros e | intros s | intros f args];
      apply respects_outOfFuel.
  - split; [| split].
    + intros e. apply (respects_evaluateExpressionBody isException (fun _ => I)
                         functions _ _ IHe IHf).
    + intros s. apply (respects_executeStatementBody _ _ IHe IHs).
    + intros f args. apply (respects_executeFunctionBody _ IHs).
Qed.

(** X22.  Whatever is executed, and however it ends, the output log and
    the console output are only extended and the input is only consumed:
    nothing already logged is changed or dropped, no input line is read
    twice. *)
Theorem execution_advances_streams
    (functions : gmap string FunctionDecl) (fuel : nat) :
  (forall e st,
     streamsAdvance st (snd (evaluateExpression functions fuel e st))) /\
  (forall s st,
     streamsAdvance st (snd (executeStatement functions fuel s st))) /\
  (forall f args st,
     streamsAdvance st (snd (executeFunction functions fuel f args st))).
Proof.
  destruct (respects_fuel functions fuel) as [He [Hs Hf]].
  split; [| split].
  - intros e st.
    destruct (evaluateExpression functions fuel e st) as [o st'] eqn:E.
    apply (He _ _ _ _ E).
  - intros s st.
    destruct (executeStatement functions fuel s st) as [o st'] eqn:E.
    apply (Hs _ _ _ _ E).
  - intros f args st.
    destruct (executeFunction functions fuel f args st) as [o st'] eqn:E.
    apply (Hf _ _ _ _ _ E).
Qed.

(** X23.  The signal of a return statement never leaves the call that
    executes it: neither a function call nor the evaluation of an
    expression ends with a pending return. *)
Theorem return_signal_is_caught
    (functions : gmap string FunctionDecl) (fuel : nat) :
  (forall e st v st',
     evaluateExpression functions fuel e st <> (Raised (ReturnSignal v), st')) /\
  (forall f args st v st',
     executeFunction functions fuel f args st <> (Raised (ReturnSignal v), st')).
Proof.
  destruct (respects_fuel functions fuel) as [He [_ Hf]].
  split.
  - intros e st v st' E. destruct (He _ _ _ _ E) as [_ []].
  - intros f args st v st' E. destruct (Hf _ _ _ _ _ E) as [_ []].
Qed.


(** ** A return inside a branch *)

Lemma bindM_normal {A B} (m : M A) (k : A -> M B) st a st' :
  m st = (Normal a, st') -> bindM m k st = k a st'.
Proof. intros H. unfold bindM. rewrite H. reflexivity. Qed.

Lemma bindM_raised {A B} (m : M A) (k : A -> M B) st s st' :
  m st = (Raised s, st') -> bindM m k st = (Raised s, st').
Proof. intros H. unfold bindM. rewrite H. reflexivity. Qed.

Lemma bindParameters_frame (ps : list (Token * DataType)) :
  forall args st frame outer,
    scopes st = frame :: outer ->
    exists frame',
      bindParameters ps args st = (Normal tt, set_scopes (frame' :: outer) st).
Proof.
  induction ps as [| [p ty] ps IH]; intros args st frame outer Hs.
  - exists frame. simpl. unfold ret. rewrite <- Hs, set_scopes_same. reflexivity.
  - set (a0 := match args with a :: _ => a | [] => Void end).
    destruct (IH (tail args) (set_scopes (<[lexeme p := a0]> frame :: outer) st)
                (<[lexeme p := a0]> frame) outer eq_refl) as [frame' Hb].
    exists frame'. simpl. unfold bindM, define, modify. fold a0. rewrite Hs.
    simpl. rewrite Hb. reflexivity.
Qed.

(** X24.  A function whose body is an [if] that returns from its then
    branch: when the condition holds, the call returns the value, but of
    the two frames pushed (one for the call, one for the branch) only one
    is popped.  With a condition and a returned expression that leave the
    frames alone, the frame holding the parameters is still on the stack
    after the call, which is then one frame deeper than before. *)
Theorem return_inside_if_keeps_the_callee_frame
    (functions : gmap string FunctionDecl) (fuel : nat)
    (name : Token) (ps : list (Token * DataType)) (rt : DataType)
    (c e : Expr) (els : list Stmt) (args : list RuntimeValue)
    (st st1 st2 : state) (cv v : RuntimeValue) :
  let st0 := snd (bindParameters ps args (snd (pushScope st))) in
  evaluateExpression functions (S fuel) c st0 = (Normal cv, st1) ->
  asBool cv = true ->
  evaluateExpression functions fuel e (snd (pushScope st1)) = (Normal v, st2) ->
  scopes st2 = ∅ :: scopes st0 ->
  exists st',
    executeFunction functions (S (S (S fuel)))
      (mkFunctionDecl name ps rt [IfStmt c [ReturnStmt (Some e)] els]) args st
    = (Normal v, st') /\
    scopes st' = scopes st0 /\
    length (scopes st') = S (length (scopes st)).
Proof.
  intros st0 Hc Hb He Hs.
  destruct (bindParameters_frame ps args (snd (pushScope st)) ∅ (scopes st) eq_refl)
    as [frame' Hbind].
  assert (scopes st0 = frame' :: scopes st) as H0
    by (unfold st0; rewrite Hbind; reflexivity).
  assert (bindParameters ps args (snd (pushScope st)) = (Normal tt, st0)) as Hb0
    by (unfold st0; rewrite Hbind; reflexivity).
  assert (executeStatement functions (S fuel) (ReturnStmt (Some e))
            (snd (pushScope st1)) = (Raised (ReturnSignal v), st2)) as Hr.
  { change (executeStatement functions (S fuel) (ReturnStmt (Some e)))
      with (let* value := evaluateExpression functions fuel e in
            @raise unit (ReturnSignal value)).
    rewrite (bindM_normal _ _ _ _ _ He). reflexivity. }
  assert (executeStatement functions (S (S fuel))
            (IfStmt c [ReturnStmt (Some e)] els) st0
          = (Raised (ReturnSignal v), st2)) as Hi.
  { change (executeStatement functions (S (S fuel))
              (IfStmt c [ReturnStmt (Some e)] els))
      with (let* cv := evaluateExpression functions (S fuel) c in
            if asBool cv then
              pushScope ;;
              executeAll (executeStatement functions (S fuel))
                [ReturnStmt (Some e)] ;;
              popScope
            else
              match els with
              | [] => ret tt
              | _ => pushScope ;;
                     executeAll (executeStatement functions (S fuel)) els ;;
                     popScope
              end).
    rewrite (bindM_normal _ _ _ _ _ Hc). rewrite Hb.
    rewrite (bindM_normal _ _ st1 tt (snd (pushScope st1)) eq_refl).
    apply bindM_raised. simpl executeAll. apply bindM_raised. exact Hr. }
  exists (snd (popScope st2)). split; [| split].
  - change (executeFunction functions (S (S (S fuel))) ?f args)
      with (executeFunctionBody (executeStatement functions (S (S fuel))) f args).
    unfold executeFunctionBody. cbn [parameters body].
    rewrite (bindM_normal _ _ st tt (snd (pushScope st)) eq_refl).
    rewrite (bindM_normal _ _ _ _ _ Hb0).
    simpl executeAll. rewrite (bindM_raised _ _ _ _ _ Hi). reflexivity.
  - simpl. rewrite Hs. reflexivity.
  - simpl. rewrite Hs, H0. reflexivity.
Qed.

Lemma return_inside_if_keeps_the_callee_frame_witness :
  let tok := fun t s => Tokens.mkToken t s 1 1 in
  let x := tok Tokens.IDENTIFIER "x" in
  let f := mkFunctionDecl (tok Tokens.IDENTIFIER "f") [(x, DT_INT)] DT_INT
             [IfStmt (LiteralExpr (tok Tokens.TRUE "true"))
                     [ReturnStmt (Some (VariableExpr x))] []] in
  let st := mkState [ {["x" := FromInt 5]} ] [] [] "" in
  exists st',
    executeFunction ∅ 5 f [FromInt 7] st = (Normal (FromInt 7), st') /\
    scopes st' = [ {["x" := FromInt 7]}; {["x" := FromInt 5]} ] /\
    length (scopes st') = S (length (scopes st)).
Proof.
  intros tok x f st.
  pose (st0 := mkState [ {["x" := FromInt 7]}; {["x" := FromInt 5]} ] [] [] "").
  apply (return_inside_if_keeps_the_callee_frame ∅ 2
           (tok Tokens.IDENTIFIER "f") [(x, DT_INT)] DT_INT
           (LiteralExpr (tok Tokens.TRUE "true")) (VariableExpr x) []
           [FromInt 7] st st0 (set_scopes (∅ :: scopes st0) st0)
           (FromBool true) (FromInt 7)).
  - vm_compute. reflexivity.
  - reflexivity.
  - vm_compute. reflexivity.
  - vm_compute. reflexivity.
Defined.

(** ** The result of a run *)

(** X25.  When [main] returns a value that is neither void nor
    convertible to an integer (a string, a sequence), [run] reports
    success with exit code 0 and, at the same time, the error message of
    the failed conversion. *)
Theorem main_returning_a_non_number (fuel : nat) (p : Program)
    (main : FunctionDecl) (input : list string) (v : RuntimeValue)
    (st : state) (e : exn) :
  initializeFunctionTable (Some p) !! "main" = Some main ->
  executeFunction (initializeFunctionTable (Some p)) fuel main []
    (mkState [] [] input "") = (Normal v, st) ->
  v <> Void -> asInt v = Throw e ->
  run fuel (Some p) input
  = Some (mkResult true 0 (outputLog st)
            "Runtime error: value is not an integer").
Proof.
  intros Hm Hx Hv Ha. unfold run. rewrite Hm, Hx. unfold resultOf.
  destruct v; try discriminate Ha; [contradiction | |];
    simpl; reflexivity.
Qed.

Lemma main_returning_a_non_number_witness :
  let tok := fun t s => Tokens.mkToken t s 1 1 in
  let main := mkFunctionDecl (tok Tokens.IDENTIFIER "main") [] DT_INT
                [ReturnStmt (Some (LiteralExpr (tok Tokens.STRING "done")))] in
  run 5 (Some (mkProgram [main])) []
  = Some (mkResult true 0 [] "Runtime error: value is not an integer").
Proof.
  intros tok main.
  apply (main_returning_a_non_number 5 (mkProgram [main]) main []
           (FromString "done") (mkState [] [] [] "")
           (runtime_error "Runtime error: value is not an integer")).
  - vm_compute. reflexivity.
  - vm_compute. reflexivity.
  - discriminate.
  - reflexivity.
Defined.

End InterpreterMore.
(* ===================================================================== *)
(** * Further properties of the lexer *)
(* ===================================================================== *)

Section LexerMore.
Import Cxx Tokens Lexer.

(** ** The shape of the token list *)

Lemma tokenizeFrom_shape n :
  forall st, (String.length (rest st) < n)%nat ->
    exists ts t,
      tokenizeFrom n st = ts ++ [t] /\
      (type t = END_OF_FILE \/ type t = ERROR) /\
      Forall (fun x => type x <> END_OF_FILE /\ type x <> ERROR) ts.
Proof.
  induction n as [| n IH]; intros st Hn; [lia |].
  simpl. pose proof (nextToken_consumes st) as Hc.
  destruct (nextToken st) as [token st']. simpl in Hc.
  destruct (type token) eqn:Ht;
    try (exists [], token; rewrite Ht; split; [reflexivity |];
         split; [auto | constructor]; fail);
    (destruct Hc as [Hc | Hc]; [discriminate Hc |]);
    (destruct (IH st' ltac:(lia)) as [ts [t [-> [Hend Hall]]]]);
    exists (token :: ts), t;
    (split; [reflexivity |]); (split; [exact Hend |]);
    (constructor; [rewrite Ht; split; discriminate | exact Hall]).
Qed.

(** X29.  The token list of any source text is never empty: it ends with
    one END_OF_FILE or ERROR token, and no token before the last is an
    END_OF_FILE or an ERROR.  (Scanning stops at the first lexical error;
    the tokens read before it are kept.) *)
Theorem tokens_end_with_one_terminator (source : string) :
  exists ts t,
    tokenize source = ts ++ [t] /\
    (type t = END_OF_FILE \/ type t = ERROR) /\
    Forall (fun x => type x <> END_OF_FILE /\ type x <> ERROR) ts.
Proof. unfold tokenize. apply tokenizeFrom_shape. simpl. lia. Qed.

(** ** Number tokens *)

Lemma all_digits_app a b :
  Optimizer.all_digits (a +:+ b)
  = Optimizer.all_digits a && Optimizer.all_digits b.
Proof.
  induction a as [| c a IH]; [reflexivity |].
  change (Optimizer.all_digits (String c (a +:+ b))
          = Optimizer.all_digits (String c a) && Optimizer.all_digits b).
  simpl. rewrite IH. apply andb_assoc.
Qed.

Lemma app_char_nonempty (text : string) (c : ascii) : text +:+ String c "" <> "".
Proof. destruct text; discriminate. Qed.

Lemma number_float s : forall text ln col,
  type (fst (number s text true ln col)) = FLOAT.
Proof.
  induction s as [| c s IH]; intros text ln col; simpl; [reflexivity |].
  destruct (Ascii.eqb c "."); [reflexivity |].
  destruct (isdigit c); [apply IH | reflexivity].
Qed.

Lemma number_digits s : forall text ln col,
  Optimizer.all_digits text = true -> text <> "" ->
  type (fst (number s text false ln col)) = NUMBER ->
  Optimizer.all_digits (lexeme (fst (number s text false ln col))) = true /\
  lexeme (fst (number s text false ln col)) <> "".
Proof.
  induction s as [| c s IH]; intros text ln col Hd Hne; simpl; [auto |].
  destruct (Ascii.eqb c ".").
  - rewrite number_float. discriminate.
  - destruct (isdigit c) eqn:Hc; [| simpl; auto].
    apply IH; [| apply app_char_nonempty].
    rewrite all_digits_app, Hd. simpl. rewrite Hc. reflexivity.
Qed.

Lemma keywords_not_number text t : keywords text = Some t -> t <> NUMBER.
Proof.
  unfold keywords.
  repeat match goal with
         | |- context [if ?b then _ else _] => destruct b
         end; intros [= <-]; discriminate.
Qed.

Lemma identifier_not_number s : forall text ln col,
  type (fst (identifier s text ln col)) <> NUMBER.
Proof.
  assert (forall text, match keywords text with Some t => t | None => IDENTIFIER end
                       <> NUMBER) as Hk.
  { intros text. destruct (keywords text) as [t |] eqn:E;
      [exact (keywords_not_number _ _ E) | discriminate]. }
  induction s as [| c s IH]; intros text ln col; simpl; [apply Hk |].
  destruct (isalnum c || Ascii.eqb c "_"); [apply IH | apply Hk].
Qed.

Lemma stringLiteral_not_number s : forall text ln col,
  type (fst (stringLiteral s text ln col)) <> NUMBER.
Proof.
  induction s as [| c s IH]; intros text ln col; simpl; [discriminate |].
  destruct (Ascii.eqb c "034"); [discriminate |].
  destruct (Ascii.eqb c "010"); apply IH.
Qed.

Lemma nextToken_number st :
  type (fst (nextToken st)) = NUMBER ->
  Optimizer.all_digits (lexeme (fst (nextToken st))) = true /\
  lexeme (fst (nextToken st)) <> "".
Proof.
  unfold nextToken.
  destruct (skipWhitespace false (rest st) (line st) (column st)) as [s ln col].
  destruct s as [| c r]; [discriminate |].
  destruct (isalpha c || Ascii.eqb c "_");
    [intros H; destruct (identifier_not_number _ _ _ _ H) |].
  destruct (isdigit c) eqn:Hc.
  - apply number_digits; [simpl; rewrite Hc; reflexivity | discriminate].
  - destruct (Ascii.eqb c "034");
      [intros H; destruct (stringLiteral_not_number _ _ _ _ H) |].
    repeat match goal with
           | |- context [if ?b then _ else _] => destruct b
           end;
      try discriminate;
      match goal with
      | |- context [matchChar ?x r] => destruct (matchChar x r); discriminate
      end.
Qed.

Lemma tokenizeFrom_tokens n : forall st t,
  In t (tokenizeFrom n st) -> exists st0, t = fst (nextToken st0).
Proof.
  induction n as [| n IH]; intros st t; simpl;
    destruct (nextToken st) as [token st'] eqn:E.
  - destruct (type token); intros [<- | []]; exists st; rewrite E; reflexivity.
  - destruct (type token);
      try (intros [<- | []]; exists st; rewrite E; reflexivity);
      (intros [<- | H]; [exists st; rewrite E; reflexivity | exact (IH _ _ H)]).
Qed.

Lemma all_digits_isConstant s :
  Optimizer.all_digits s = true -> s <> "" -> Optimizer.isConstant s = true.
Proof.
  intros Hd Hne. destruct s as [| c s]; [contradiction |].
  unfold Optimizer.isConstant.
  pose proof Hd as Hd'. simpl in Hd'. apply andb_true_iff in Hd' as [Hc _].
  assert (Ascii.eqb c "-" || Ascii.eqb c "+" = false) as ->
    by (destruct c as [[] [] [] [] [] [] [] []]; try discriminate Hc; reflexivity).
  exact Hd.
Qed.

(** X30.  The text of every NUMBER token is a non-empty run of decimal
    digits: the optimizer takes it for a constant, and its conversion by
    [std::stoll] when the literal is evaluated can fail only because the
    value is out of range, never because the text is not a number. *)
Theorem number_tokens_are_integer_constants (source : string) (t : Token) :
  In t (tokenize source) -> type t = NUMBER ->
  Optimizer.isConstant (lexeme t) = true /\
  (forall e, stoll (lexeme t) = Throw e -> e = out_of_range "stoll").
Proof.
  intros Hin Ht. unfold tokenize in Hin.
  apply tokenizeFrom_tokens in Hin as [st0 ->].
  destruct (nextToken_number st0 Ht) as [Hd Hne].
  pose proof (all_digits_isConstant _ Hd Hne) as Hc.
  split; [exact Hc |].
  intros e. unfold stoll, stoll_idx.
  destruct (isConstant_scans _ Hc) as [v [n ->]].
  destruct (_ && _); simpl; [discriminate |]. intros [= <-]. reflexivity.
Qed.

Lemma number_tokens_are_integer_constants_witness :
  Optimizer.isConstant "12" = true /\
  (forall e, stoll "12" = Throw e -> e = out_of_range "stoll").
Proof.
  apply (number_tokens_are_integer_constants "x = 12;" (mkToken NUMBER "12" 1 7)).
  - vm_compute. right. right. left. reflexivity.
  - reflexivity.
Defined.

End LexerMore.
(* ===================================================================== *)
(** * Further properties of the parser *)
(* ===================================================================== *)

Create HintDb forward.

Section ParserMore.
Import Cxx Tokens Ast Parser.

Variable tokens : list Token.

(** ** The primitives *)

Lemma forward_ret {A} (a : A) : movesForward tokens (ret a).
Proof. intros c o c' [= <- <-]. split; [lia | exact (fun H => H)]. Qed.

Lemma forward_throw {A} w : movesForward tokens (@throw A w).
Proof. intros c o c' [= <- <-]. split; [lia | exact (fun H => H)]. Qed.

Lemma forward_outOfFuel {A} : movesForward tokens (@outOfFuel A).
Proof. intros c o c' [= <- <-]. split; [lia | exact (fun H => H)]. Qed.

Lemma forward_bind {A B} (m : P A) (k : A -> P B) :
  movesForward tokens m -> (forall a, movesForward tokens (k a)) ->
  movesForward tokens (bindP m k).
Proof.
  intros Hm Hk c o c' H. unfold bindP in H.
  destruct (m c) as [[a | w |] c1] eqn:E; destruct (Hm _ _ _ E) as [H1 H2].
  - destruct (Hk a _ _ _ H) as [H3 H4]. split; [lia | auto].
  - injection H as <- <-. split; assumption.
  - injection H as <- <-. split; assumption.
Qed.

Lemma forward_peek : movesForward tokens (peek tokens).
Proof. intros c o c' [= <- <-]. split; [lia | exact (fun H => H)]. Qed.

Lemma forward_peekNext : movesForward tokens (peekNext tokens).
Proof. intros c o c' [= <- <-]. split; [lia | exact (fun H => H)]. Qed.

Lemma forward_previous : movesForward tokens (previous tokens).
Proof. intros c o c' [= <- <-]. split; [lia | exact (fun H => H)]. Qed.

Lemma forward_isAtEnd : movesForward tokens (isAtEnd tokens).
Proof. intros c o c' [= <- <-]. split; [lia | exact (fun H => H)]. Qed.

(** Away from END_OF_FILE the index is inside the vector. *)
Lemma not_at_end_in_range c :
  TokenType_eqb (type (tokenAt tokens c)) END_OF_FILE = false ->
  (c < length tokens)%nat.
Proof.
  unfold tokenAt. destruct (tokens !! c) as [t |] eqn:L.
  - intros _. apply lookup_lt_Some in L. exact L.
  - discriminate.
Qed.

Lemma advance_spec c :
  advance tokens c
  = if TokenType_eqb (type (tokenAt tokens c)) END_OF_FILE
    then (Parsed (match c with O => eofToken | S i => tokenAt tokens i end), c)
    else (Parsed (tokenAt tokens c), S c).
Proof.
  unfold advance, isAtEnd, peek, previous, bindP, ret.
  destruct (TokenType_eqb (type (tokenAt tokens c)) END_OF_FILE); reflexivity.
Qed.

Lemma forward_advance : movesForward tokens (advance tokens).
Proof.
  intros c o c'. rewrite advance_spec.
  destruct (TokenType_eqb (type (tokenAt tokens c)) END_OF_FILE) eqn:E;
    intros [= <- <-].
  - split; [lia | exact (fun H => H)].
  - apply not_at_end_in_range in E. split; lia.
Qed.

Lemma forward_check t : movesForward tokens (check tokens t).
Proof.
  intros c o c'. unfold check, isAtEnd, peek, bindP, ret.
  destruct (TokenType_eqb (type (tokenAt tokens c)) END_OF_FILE);
    intros [= <- <-]; (split; [lia | exact (fun H => H)]).
Qed.

#[local] Hint Resolve forward_ret forward_throw forward_outOfFuel forward_peek
  forward_peekNext forward_previous forward_isAtEnd forward_advance
  forward_check : forward.

(** Closes a goal [movesForward tokens body] from the facts about the
    pieces. *)
Ltac forward_step :=
  first
    [ assumption
    | solve [auto 2 with forward nocore]
    | apply forward_bind; [| intros ?]
    | match goal with |- movesForward _ (if ?b then _ else _) => destruct b end
    | match goal with |- movesForward _ (match ?x with _ => _ end) => destruct x end ].

Ltac forward_auto := repeat forward_step.

Lemma forward_match t : movesForward tokens (match_ tokens t).
Proof. unfold match_. forward_auto. Qed.

Lemma forward_matchAny types : movesForward tokens (matchAny tokens types).
Proof. induction types as [| t types IH]; simpl; forward_auto. Qed.

Lemma forward_checkAny types : movesForward tokens (checkAny tokens types).
Proof. induction types as [| t types IH]; simpl; forward_auto. Qed.

Lemma forward_consume t message : movesForward tokens (consume tokens t message).
Proof. unfold consume. forward_auto. Qed.

#[local] Hint Resolve forward_match forward_matchAny forward_checkAny
  forward_consume : forward.

(** ** The grammar functions *)

Section Bodies.
Variable fuel : nat.
Variable pe : P Expr.
Variable ps : P Stmt.
Hypothesis Hpe : movesForward tokens pe.
Hypothesis Hps : movesForward tokens ps.

Lemma forward_expressionList n : forall closing acc,
  movesForward tokens (expressionList tokens pe n closing acc).
Proof. induction n as [| n IH]; intros closing acc; simpl; forward_auto. Qed.

#[local] Hint Resolve forward_expressionList : forward.

Lemma forward_parseArguments : movesForward tokens (parseArguments tokens fuel pe).
Proof. unfold parseArguments. forward_auto. Qed.

Lemma forward_parseSequence : movesForward tokens (parseSequence tokens fuel pe).
Proof. unfold parseSequence. forward_auto. Qed.

#[local] Hint Resolve forward_parseArguments forward_parseSequence : forward.

Lemma forward_parsePrimary : movesForward tokens (parsePrimary tokens fuel pe).
Proof. unfold parsePrimary. forward_auto. Qed.

#[local] Hint Resolve forward_parsePrimary : forward.

Lemma forward_parseUnary n : movesForward tokens (parseUnary tokens fuel pe n).
Proof. induction n as [| n IH]; simpl; forward_auto. Qed.

#[local] Hint Resolve forward_parseUnary : forward.

Lemma forward_binaryLoop ops operand n :
  movesForward tokens operand ->
  forall expr, movesForward tokens (binaryLoop tokens n ops operand expr).
Proof. intros Hop. induction n as [| n IH]; intros expr; simpl; forward_auto. Qed.

Lemma forward_parseFactor : movesForward tokens (parseFactor tokens fuel pe).
Proof.
  unfold parseFactor. apply forward_bind; [apply forward_parseUnary | intros e].
  apply forward_binaryLoop, forward_parseUnary.
Qed.

Lemma forward_parseTerm : movesForward tokens (parseTerm tokens fuel pe).
Proof.
  unfold parseTerm. apply forward_bind; [apply forward_parseFactor | intros e].
  apply forward_binaryLoop, forward_parseFactor.
Qed.

Lemma forward_parseComparison : movesForward tokens (parseComparison tokens fuel pe).
Proof.
  unfold parseComparison. apply forward_bind; [apply forward_parseTerm | intros e].
  apply forward_binaryLoop, forward_parseTerm.
Qed.

Lemma forward_parseEquality : movesForward tokens (parseEquality tokens fuel pe).
Proof.
  unfold parseEquality.
  apply forward_bind; [apply forward_parseComparison | intros e].
  apply forward_binaryLoop, forward_parseComparison.
Qed.

Lemma forward_parseLogicalAnd : movesForward tokens (parseLogicalAnd tokens fuel pe).
Proof.
  unfold parseLogicalAnd.
  apply forward_bind; [apply forward_parseEquality | intros e].
  apply forward_binaryLoop, forward_parseEquality.
Qed.

Lemma forward_parseExpressionBody :
  movesForward tokens (parseExpressionBody tokens fuel pe).
Proof.
  unfold parseExpressionBody, parseLogicalOr.
  apply forward_bind; [apply forward_parseLogicalAnd | intros e].
  apply forward_binaryLoop, forward_parseLogicalAnd.
Qed.

Lemma forward_blockLoop n : forall statements,
  movesForward tokens (blockLoop tokens ps n statements).
Proof. induction n as [| n IH]; intros statements; simpl; forward_auto. Qed.

#[local] Hint Resolve forward_blockLoop : forward.

Lemma forward_parseBlock : movesForward tokens (parseBlock tokens fuel ps).
Proof. unfold parseBlock. forward_auto. Qed.

#[local] Hint Resolve forward_parseBlock : forward.

Lemma forward_parseDeclaration : movesForward tokens (parseDeclaration tokens pe).
Proof. unfold parseDeclaration. forward_auto. Qed.

Lemma forward_parseAssignment : movesForward tokens (parseAssignment tokens pe).
Proof. unfold parseAssignment. forward_auto. Qed.

Lemma forward_parseIfStatement :
  movesForward tokens (parseIfStatement tokens fuel pe ps).
Proof. unfold parseIfStatement. forward_auto. Qed.

Lemma forward_parseWhileStatement :
  movesForward tokens (parseWhileStatement tokens fuel pe ps).
Proof. unfold parseWhileStatement. forward_auto. Qed.

Lemma forward_parseReturnStatement :
  movesForward tokens (parseReturnStatement tokens pe).
Proof. unfold parseReturnStatement. forward_auto. Qed.

Lemma forward_printLoop n : forall arguments,
  movesForward tokens (printLoop tokens fuel pe n arguments).
Proof.
  induction n as [| n IH]; intros arguments; simpl; [apply forward_outOfFuel |].
  apply forward_bind; [apply forward_peek | intros t].
  destruct (isStatementTerminator (type t)); [apply forward_ret |].
  intros c o c' H.
  destruct (parsePrimary tokens fuel pe c) as [[e | w |] c1] eqn:E;
    destruct (forward_parsePrimary _ _ _ E) as [H1 H2].
  - repeat match type of H with
           | context [if ?b then _ else _] => destruct b
           end;
      try (injection H as <- <-; split; assumption).
    destruct (IH _ _ _ _ H) as [H3 H4]. split; [lia | auto].
  - injection H as <- <-. split; assumption.
  - injection H as <- <-. split; assumption.
Qed.

#[local] Hint Resolve forward_printLoop : forward.

Lemma forward_parsePrintStatement :
  movesForward tokens (parsePrintStatement tokens fuel pe).
Proof. unfold parsePrintStatement. forward_auto. Qed.

Lemma forward_parseExpressionStatement :
  movesForward tokens (parseExpressionStatement tokens pe).
Proof. unfold parseExpressionStatement. forward_auto. Qed.

#[local] Hint Resolve forward_parseDeclaration forward_parseAssignment
  forward_parseIfStatement forward_parseWhileStatement
  forward_parseReturnStatement forward_parsePrintStatement
  forward_parseExpressionStatement : forward.

Lemma forward_parseStatementBody :
  movesForward tokens (parseStatementBody tokens fuel pe ps).
Proof. unfold parseStatementBody. forward_auto. Qed.

Lemma forward_parameterLoop n : forall parameters,
  movesForward tokens (parameterLoop tokens n parameters).
Proof. induction n as [| n IH]; intros parameters; simpl; forward_auto. Qed.

#[local] Hint Resolve forward_parameterLoop : forward.

Lemma forward_parseParameters : movesForward tokens (parseParameters tokens fuel).
Proof. unfold parseParameters. forward_auto. Qed.

#[local] Hint Resolve forward_parseParameters : forward.

Lemma forward_parseFunction : movesForward tokens (parseFunction tokens fuel ps).
Proof. unfold parseFunction. forward_auto. Qed.

#[local] Hint Resolve forward_parseFunction : forward.

Lemma forward_programLoop n : forall functions,
  movesForward tokens (programLoop tokens fuel ps n functions).
Proof. induction n as [| n IH]; intros functions; simpl; forward_auto. Qed.

#[local] Hint Resolve forward_programLoop : forward.

Lemma forward_parseProgramBody :
  movesForward tokens (parseProgramBody tokens fuel ps).
Proof. unfold parseProgramBody. forward_auto. Qed.

End Bodies.

Lemma forward_parseExpression fuel :
  movesForward tokens (parseExpression tokens fuel).
Proof.
  induction fuel as [| fuel IH]; simpl; [apply forward_outOfFuel |].
  apply forward_parseExpressionBody, IH.
Qed.

Lemma forward_parseStatement fuel :
  movesForward tokens (parseStatement tokens fuel).
Proof.
  induction fuel as [| fuel IH]; simpl; [apply forward_outOfFuel |].
  apply forward_parseStatementBody; [apply forward_parseExpression | exact IH].
Qed.

(** X26.  The parser never backtracks and never leaves the token vector:
    every grammar function leaves the index [current] where it was or
    further on, and at most one past the last token; so [previous] and
    [peek] never read outside the vector. *)
Theorem parser_index_moves_forward (fuel : nat) :
  movesForward tokens (parseExpression tokens fuel) /\
  movesForward tokens (parseStatement tokens fuel) /\
  movesForward tokens (parseProgram tokens fuel).
Proof.
  split; [apply forward_parseExpression |].
  split; [apply forward_parseStatement |].
  apply forward_parseProgramBody, forward_parseStatement.
Qed.


(** ** What the primitives return *)

Lemma check_spec t c :
  check tokens t c
  = (Parsed (negb (TokenType_eqb (type (tokenAt tokens c)) END_OF_FILE)
             && TokenType_eqb (type (tokenAt tokens c)) t), c).
Proof.
  unfold check, isAtEnd, peek, bindP, ret.
  destruct (TokenType_eqb (type (tokenAt tokens c)) END_OF_FILE); reflexivity.
Qed.

Lemma match_hit t c :
  type (tokenAt tokens c) = t -> t <> END_OF_FILE ->
  match_ tokens t c = (Parsed true, S c).
Proof.
  intros Ht Hne. unfold match_, bindP. rewrite check_spec, Ht.
  unfold TokenType_eqb. rewrite (bool_decide_eq_false_2 _ Hne).
  rewrite (bool_decide_eq_true_2 _ eq_refl). simpl.
  rewrite advance_spec, Ht. unfold TokenType_eqb.
  rewrite (bool_decide_eq_false_2 _ Hne). reflexivity.
Qed.

Lemma match_miss t c :
  type (tokenAt tokens c) <> t -> match_ tokens t c = (Parsed false, c).
Proof.
  intros Ht. unfold match_, bindP. rewrite check_spec.
  unfold TokenType_eqb at 2. rewrite (bool_decide_eq_false_2 _ Ht).
  rewrite andb_false_r. reflexivity.
Qed.

Lemma matchAny_miss types c :
  Forall (fun t => type (tokenAt tokens c) <> t) types ->
  matchAny tokens types c = (Parsed false, c).
Proof.
  induction 1 as [| t types Ht _ IH]; simpl; [reflexivity |].
  unfold bindP. rewrite check_spec.
  unfold TokenType_eqb at 2. rewrite (bool_decide_eq_false_2 _ Ht).
  rewrite andb_false_r. exact IH.
Qed.

Lemma consume_hit t message c :
  type (tokenAt tokens c) = t -> t <> END_OF_FILE ->
  consume tokens t message c = (Parsed (tokenAt tokens c), S c).
Proof.
  intros Ht Hne. unfold consume, bindP. rewrite check_spec, Ht.
  unfold TokenType_eqb. rewrite (bool_decide_eq_false_2 _ Hne).
  rewrite (bool_decide_eq_true_2 _ eq_refl). simpl.
  rewrite advance_spec, Ht. unfold TokenType_eqb.
  rewrite (bool_decide_eq_false_2 _ Hne). reflexivity.
Qed.

Lemma programLoop_ends_at_end_of_file fuel ps n :
  forall functions c result c',
    programLoop tokens fuel ps n functions c = (Parsed result, c') ->
    type (tokenAt tokens c') = END_OF_FILE.
Proof.
  induction n as [| n IH]; intros functions c result c'; simpl; [discriminate |].
  unfold bindP at 1. unfold isAtEnd at 1, peek, bindP at 1, ret at 1.
  destruct (TokenType_eqb (type (tokenAt tokens c)) END_OF_FILE) eqn:E.
  - intros [= _ <-]. unfold TokenType_eqb in E.
    apply bool_decide_eq_true_1 in E. exact E.
  - unfold bindP at 1.
    destruct (match_ tokens FUNC c) as [[[] | w |] c1]; try discriminate.
    unfold bindP at 1.
    destruct (parseFunction tokens fuel ps c1) as [[f | w |] c2]; try discriminate.
    apply IH.
Qed.

(** X27.  A program is function declarations up to the end of the
    tokens: a parse that succeeds has stopped at an END_OF_FILE token (or
    at the end of the vector), and where a declaration may start a token
    that is neither [func] nor END_OF_FILE is answered by "Expected
    function declaration", with nothing consumed. *)
Theorem program_is_functions_to_the_end (fuel : nat) (c : nat) :
  (forall p c', parseProgram tokens fuel c = (Parsed p, c') ->
     type (tokenAt tokens c') = END_OF_FILE) /\
  (type (tokenAt tokens c) <> FUNC ->
   type (tokenAt tokens c) <> END_OF_FILE ->
   parseProgram tokens (S fuel) c
   = (ParseError "Expected function declaration", c)).
Proof.
  split.
  - intros p c'. unfold parseProgram, parseProgramBody. unfold bindP at 1.
    destruct (programLoop tokens fuel (parseStatement tokens fuel) fuel [] c)
      as [[fs | w |] c1] eqn:E; try discriminate.
    intros [= _ <-]. exact (programLoop_ends_at_end_of_file _ _ _ _ _ _ _ E).
  - intros Hf He. unfold parseProgram, parseProgramBody. simpl programLoop.
    unfold bindP at 1. unfold bindP at 1.
    unfold isAtEnd at 1, peek, bindP at 1, ret at 1.
    unfold TokenType_eqb at 1. rewrite (bool_decide_eq_false_2 _ He).
    unfold bindP at 1. rewrite (match_miss FUNC c Hf). reflexivity.
Qed.

(** X28.  An identifier followed by a bracketed expression, [name[i]],
    is parsed as the call [get(name, i)]: a call node whose callee token
    is an identifier spelled [get] placed at the position of [name]. *)
Theorem index_is_a_call_of_get (fuel : nat) (pe : P Expr)
    (c c1 : nat) (i : Expr) :
  type (tokenAt tokens c) = IDENTIFIER ->
  type (tokenAt tokens (S c)) = LBRACKET ->
  pe (S (S c)) = (Parsed i, c1) ->
  type (tokenAt tokens c1) = RBRACKET ->
  parsePrimary tokens fuel pe c
  = (Parsed (CallExpr (mkToken IDENTIFIER "get"
                         (line (tokenAt tokens c)) (column (tokenAt tokens c)))
               [VariableExpr (tokenAt tokens c); i]),
     S c1).
Proof.
  intros Hn Hl Hi Hr. unfold parsePrimary.
  unfold bindP at 1. rewrite match_miss by (rewrite Hn; discriminate).
  unfold bindP at 1. rewrite match_miss by (rewrite Hn; discriminate).
  unfold bindP at 1.
  rewrite matchAny_miss
    by (repeat constructor; rewrite Hn; discriminate).
  unfold bindP at 1. rewrite (match_hit IDENTIFIER c Hn) by discriminate.
  unfold bindP at 1. unfold previous at 1.
  unfold bindP at 1. rewrite match_miss by (rewrite Hl; discriminate).
  unfold bindP at 1. rewrite (match_hit LBRACKET (S c) Hl) by discriminate.
  unfold bindP at 1. rewrite Hi.
  unfold bindP at 1.
  rewrite (consume_hit RBRACKET _ c1 Hr) by discriminate.
  reflexivity.
Qed.

End ParserMore.

Section ParserWitnesses.
Import Cxx Tokens Ast Parser.

Lemma index_is_a_call_of_get_witness :
  let tokens := Lexer.tokenize "xs[1]" in
  parsePrimary tokens 3 (parseExpression tokens 3) 0%nat
  = (Parsed (CallExpr (mkToken IDENTIFIER "get" 1 3)
               [VariableExpr (mkToken IDENTIFIER "xs" 1 3);
                LiteralExpr (mkToken NUMBER "1" 1 5)]),
     4%nat).
Proof.
  intros tokens.
  apply (index_is_a_call_of_get tokens 3 (parseExpression tokens 3) 0%nat 3%nat
           (LiteralExpr (mkToken NUMBER "1" 1 5)));
    vm_compute; reflexivity.
Defined.

End ParserWitnesses.
